(** * MutatorMath: the interpolation engine of [mutatorMath/objects/mutator.py]

    A shallow embedding of [buildMutator], the [Mutator] class and
    [getLimits], with the properties stated of them.

    Numbers.  Coordinates and factors are Python floats in the source; this
    development computes with exact canonical rationals ([Qc]), so [==] on
    numbers is Leibniz equality and every arithmetic step is exact.  The
    inputs used in closed examples are dyadic, so the same values are exact
    in binary64 as well.

    Effects.  Python exceptions are the [Raise] branch of [result].  Methods
    that update [self] return the updated [Mutator]; methods that update
    their location argument in place ([getFactors], [getInstance]) return
    the argument's value after the call next to their result. *)

From Stdlib Require Import QArith Qcanon Lqa List String Bool Lia Arith NArith.
From Stdlib Require Import Permutation Sorted.
Import ListNotations.

Open Scope string_scope.
Open Scope list_scope.
Open Scope Qc_scope.

(* ================================================================= *)
(** ** Exceptions and the error monad *)

Inductive PyError : Type :=
| MutatorError (msg : string)
| TypeError
| IndexError
| ZeroDivisionError.

Inductive result (A : Type) : Type :=
| Ok (a : A)
| Raise (e : PyError).

Arguments Ok {A} a.
Arguments Raise {A} e.

Definition bind {A B : Type} (c : result A) (k : A -> result B) : result B :=
  match c with
  | Ok a => k a
  | Raise e => Raise e
  end.

Notation "x <- c ;; k" := (bind c (fun x => k))
  (at level 61, c at next level, right associativity).
Notation "' p <- c ;; k" := (bind c (fun x => let p := x in k))
  (at level 61, p pattern, c at next level, right associativity).

(* ================================================================= *)
(** ** Numbers *)

(** [sys.float_info.epsilon], 2^-52. *)
Definition _EPSILON : Qc := Q2Qc (1 # 4503599627370496).

Definition Qceqb (x y : Qc) : bool := Qeq_bool x y.
Definition Qcltb (x y : Qc) : bool :=
  match x ?= y with Lt => true | _ => false end.
Definition Qcleb (x y : Qc) : bool :=
  match x ?= y with Gt => false | _ => true end.

Definition Qcmax (x y : Qc) : Qc := if Qcltb x y then y else x.
Definition Qcmin (x y : Qc) : Qc := if Qcltb y x then y else x.

(** [float(a)/b]: division raises on a zero divisor. *)
Definition pydiv (a b : Qc) : result Qc :=
  if Qceqb b 0 then Raise ZeroDivisionError else Ok (a / b).

(* ================================================================= *)
(** ** Python containers: lists, sorting, dictionaries *)

Section Sorting.
Context {A : Type} (leb : A -> A -> bool).

Fixpoint insert (x : A) (l : list A) : list A :=
  match l with
  | [] => [x]
  | y :: r => if leb x y then x :: y :: r else y :: insert x r
  end.

(** [list.sort()]: a stable sort. *)
Fixpoint sort (l : list A) : list A :=
  match l with
  | [] => []
  | x :: r => insert x (sort r)
  end.
End Sorting.

Definition leb_of {A : Type} (cmp : A -> A -> comparison) (x y : A) : bool :=
  match cmp x y with Gt => false | _ => true end.

(** Comparison of tuples and lists: the first difference decides, a proper
    prefix is smaller. *)
Fixpoint list_compare {A : Type} (cmp : A -> A -> comparison)
  (l1 l2 : list A) : comparison :=
  match l1, l2 with
  | [], [] => Eq
  | [], _ :: _ => Lt
  | _ :: _, [] => Gt
  | x :: r1, y :: r2 =>
      match cmp x y with
      | Eq => list_compare cmp r1 r2
      | c => c
      end
  end.

Definition pair_compare {A B : Type} (ca : A -> A -> comparison)
  (cb : B -> B -> comparison) (p q : A * B) : comparison :=
  match ca (fst p) (fst q) with
  | Eq => cb (snd p) (snd q)
  | c => c
  end.

(** [None] is smaller than every string. *)
Definition name_compare (a b : option string) : comparison :=
  match a, b with
  | None, None => Eq
  | None, Some _ => Lt
  | Some _, None => Gt
  | Some x, Some y => String.compare x y
  end.

Section Dict.
Context {K V : Type} (keq : K -> K -> bool).

(** [d.get(k, None)] *)
Fixpoint dget (d : list (K * V)) (k : K) : option V :=
  match d with
  | [] => None
  | (k', v) :: r => if keq k k' then Some v else dget r k
  end.

Definition has_key (d : list (K * V)) (k : K) : bool :=
  match dget d k with Some _ => true | None => false end.

(** [d[k] = v] *)
Fixpoint dset (d : list (K * V)) (k : K) (v : V) : list (K * V) :=
  match d with
  | [] => [(k, v)]
  | (k', v') :: r =>
      if keq k k' then (k, v) :: r else (k', v') :: dset r k v
  end.
End Dict.

Definition keys {K V : Type} (d : list (K * V)) : list K := map fst d.

(** [x in l] *)
Definition mem {A : Type} (eqb : A -> A -> bool) (x : A) (l : list A) : bool :=
  existsb (eqb x) l.

(* ================================================================= *)
(** ** Locations *)

(** Modelled from the spec: the class [Location] of
    [mutatorMath/objects/location.py], which is not among the sources: "a
    finite mapping from axis-name (string) to coordinate".  It is kept here
    as an association list ordered by axis name. *)
Definition Location : Type := list (string * Qc).

(** The key of a delta: [location.asTuple()]. *)
Definition LocTuple : Type := list (string * Qc).

Definition coord_compare : string * Qc -> string * Qc -> comparison :=
  pair_compare String.compare Qccompare.

Definition tuple_compare : LocTuple -> LocTuple -> comparison :=
  list_compare coord_compare.

Definition coord_eqb (p q : string * Qc) : bool :=
  String.eqb (fst p) (fst q) && Qceqb (snd p) (snd q).

Fixpoint tuple_eqb (a b : LocTuple) : bool :=
  match a, b with
  | [], [] => true
  | p :: r, q :: s => coord_eqb p q && tuple_eqb r s
  | _, _ => false
  end.

(** The three answers of [isOnAxis]: [None], an axis name, [False]. *)
Inductive AxisClass : Type :=
| AtOrigin
| OnAxis (name : string)
| OffAxis.

Module Loc.

(** Modelled from the spec: indexing a location, [loc[name]]; "absent axes
    are semantically equivalent to coordinate 0". *)
Fixpoint get (l : Location) (k : string) : Qc :=
  match l with
  | [] => 0
  | (k', v) :: r => if String.eqb k k' then v else get r k
  end.

(** Modelled from the spec: [name in loc], a location being a mapping. *)
Definition has (l : Location) (k : string) : bool :=
  mem String.eqb k (keys l).

(** Modelled from the spec: [loc[name] = v] on a name the location has. *)
Fixpoint replace (l : Location) (k : string) (v : Qc) : Location :=
  match l with
  | [] => []
  | (k', v') :: r =>
      if String.eqb k k' then (k, v) :: r else (k', v') :: replace r k v
  end.

(** Modelled from the spec: [loc[name] = v] on a new name; the names are
    kept in order. *)
Fixpoint add (l : Location) (k : string) (v : Qc) : Location :=
  match l with
  | [] => [(k, v)]
  | (k', v') :: r =>
      match String.compare k k' with
      | Lt => (k, v) :: l
      | _ => (k', v') :: add r k v
      end
  end.

(** Modelled from the spec: [loc[name] = v]. *)
Definition set (l : Location) (k : string) (v : Qc) : Location :=
  if has l k then replace l k v else add l k v.

(** Modelled from the spec: [Location(pairs)], the location of a tuple of
    (name, value) pairs, as [_collectAxisPoints] and [getFactors] build it
    from the key of a delta. *)
Definition ofTuple (t : LocTuple) : Location :=
  fold_left (fun l p => set l (fst p) (snd p)) t [].

(** Modelled from the spec: [asTuple], the (name, value) pairs sorted by
    axis name; it is the dictionary key of a delta. *)
Definition asTuple (l : Location) : LocTuple := ofTuple l.

(** Modelled from the spec: [a.expand(names)], "ensure all given axis
    names appear, inserting 0 where missing". *)
Definition expand (l : Location) (names : list string) : Location :=
  fold_left (fun l k => if has l k then l else set l k 0) names l.

Definition nonzero (p : string * Qc) : bool := negb (Qceqb (snd p) 0).

(** Modelled from the spec: [isOrigin], "all coordinates are zero". *)
Definition isOrigin (l : Location) : bool :=
  forallb (fun p => Qceqb (snd p) 0) l.

(** Modelled from the spec: [isOnAxis] "returns the single axis name with
    non-zero coordinate, None if origin, False if two or more non-zero
    coordinates". *)
Definition isOnAxis (l : Location) : AxisClass :=
  match filter nonzero l with
  | [] => AtOrigin
  | [p] => OnAxis (fst p)
  | _ => OffAxis
  end.

(** Modelled from the spec: [a - b], the "per-axis difference, result
    carries the union of axes". *)
Definition sub (a b : Location) : Location :=
  fold_left (fun l p => set l (fst p) (get l (fst p) - snd p)) b a.

Definition near_zero (x : Qc) : bool :=
  Qcltb (- _EPSILON) x && Qcltb x _EPSILON.

(** Modelled from the spec: [a.common(b)], the pair of both locations
    restricted to the axes they share, [(None, None)] when there is none.
    Which axes count as shared is fixed by the doctests of [getLimits] in
    mutator.py: the query [pop=0] against the masters [pop=0] and [pop=1]
    has the limits [{'pop': (None, 0, None)}], so an axis present in both
    locations is left out only when both coordinates are zero (within
    epsilon). *)
Definition common (a b : Location) : option (Location * Location) :=
  let dims :=
    filter (fun k => has b k && negb (near_zero (get a k) && near_zero (get b k)))
           (keys a) in
  match dims with
  | [] => None
  | _ => Some (map (fun k => (k, get a k)) dims,
               map (fun k => (k, get b k)) dims)
  end.

End Loc.

(* ================================================================= *)
(** ** The objects that are interpolated

    The engine only adds, subtracts and scales its objects; [list.sort]
    on the factor list also compares them. *)

Class MathObject (T : Type) : Type := {
  oadd : T -> T -> T;
  osub : T -> T -> T;
  oscale : Qc -> T -> T;
  ocompare : T -> T -> comparison
}.

Class MathObjectLaws (T : Type) `{MathObject T} : Prop := {
  oadd_comm : forall a b : T, oadd a b = oadd b a;
  oadd_assoc : forall a b c : T, oadd a (oadd b c) = oadd (oadd a b) c;
  osub_add : forall a b : T, oadd (osub a b) b = a;
  osub_diag : forall a b : T, osub a a = osub b b;
  oadd_zero_l : forall a b : T, oadd (osub a a) b = b;
  oscale_1 : forall a : T, oscale 1 a = a;
  oscale_0 : forall a : T, oscale 0 a = osub a a;
  oscale_zero : forall (q : Qc) (a : T), oscale q (osub a a) = osub a a;
  ocompare_eq : forall a b : T, ocompare a b = Eq -> a = b;
  ocompare_antisym : forall a b : T, ocompare b a = CompOpp (ocompare a b);
  ocompare_trans : forall (c : comparison) (x y z : T),
      ocompare x y = c -> ocompare y z = c -> ocompare x z = c
}.

#[export] Instance Qc_MathObject : MathObject Qc := {
  oadd := Qcplus;
  osub := Qcminus;
  oscale := Qcmult;
  ocompare := Qccompare
}.

(* ================================================================= *)
(** ** [getLimits] *)

(** One of the dictionaries [limit[name]['<']], [['=']], [['>']]: from a
    coordinate to the locations that have it. *)
Definition Bucket : Type := list (Qc * list Location).

Record Buckets : Type := {
  below_ : Bucket;   (* limit[name]['<'] *)
  at_ : Bucket;      (* limit[name]['='] *)
  above_ : Bucket    (* limit[name]['>'] *)
}.

(** The middle component of a limits triple is [None], a coordinate, or (in
    the "end of a limit" case) the whole ['='] dictionary. *)
Inductive AtEntry : Type :=
| AtValue (value : Qc)
| AtDict (d : Bucket).

Definition Triple : Type := (option Qc * option AtEntry * option Qc)%type.
Definition Limits : Type := list (string * Triple).

Definition bucket_add (b : Bucket) (value : Qc) (l : Location) : Bucket :=
  let old := match dget Qceqb b value with Some ls => ls | None => [] end in
  dset Qceqb b value (old ++ [l]).

Definition limit_init (f : Qc) : Buckets :=
  if Qcltb 0 f then {| below_ := []; at_ := []; above_ := [(0, [[]])] |}
  else if Qcltb f 0 then {| below_ := [(0, [[]])]; at_ := []; above_ := [] |}
  else {| below_ := []; at_ := [(0, [[]])]; above_ := [] |}.

Definition limit_step (current l a : Location)
  (limit : list (string * Buckets)) (nv : string * Qc) : list (string * Buckets) :=
  let name := fst nv in
  let value := snd nv in
  let f := Loc.get a name in
  let lims := match dget String.eqb limit name with
              | Some b => b
              | None => limit_init f
              end in
  let lims' :=
    if Qcltb (Loc.get current name) (value - _EPSILON) then
      {| below_ := bucket_add (below_ lims) value l;
         at_ := at_ lims; above_ := above_ lims |}
    else if Qcltb (value + _EPSILON) (Loc.get current name) then
      {| below_ := below_ lims; at_ := at_ lims;
         above_ := bucket_add (above_ lims) value l |}
    else
      {| below_ := below_ lims; at_ := bucket_add (at_ lims) value l;
         above_ := above_ lims |} in
  dset String.eqb limit name lims'.

(** [getLimits(locations, current, sortResults=False)]: the buckets. *)
Definition getLimits_raw (locations : list Location) (current : Location)
  : list (string * Buckets) :=
  fold_left
    (fun limit l =>
       match Loc.common current l with
       | None => limit
       | Some (a, b) => fold_left (limit_step current l a) b limit
       end)
    locations [].

(** The second half of [getLimits], for one axis; [None] when no entry is
    written for the axis. *)
Definition sort_limit (lims : Buckets) : option Triple :=
  let less := sort Qcleb (keys (above_ lims)) in
  let more := sort Qcleb (keys (below_ lims)) in
  let lim_min := match rev less with x :: _ => Some x | [] => None end in
  let lim_max := match more with x :: _ => Some x | [] => None end in
  match lim_min, lim_max with
  | None, Some _ =>
      match keys (at_ lims), more with
      | k :: _, _ => Some (None, Some (AtValue k), None)
      | [], m0 :: m1 :: _ => Some (None, Some (AtValue m0), Some m1)
      | [], _ => None
      end
  | Some _, None =>
      match keys (at_ lims), rev less with
      | _ :: _, _ => Some (None, Some (AtDict (at_ lims)), None)
      | [], l1 :: l2 :: _ => Some (Some l2, Some (AtValue l1), None)
      | [], _ => None
      end
  | _, _ =>
      match keys (at_ lims) with
      | k :: _ => Some (None, Some (AtValue k), None)
      | [] => Some (lim_min, None, lim_max)
      end
  end.

Definition getLimits (locations : list Location) (current : Location) : Limits :=
  fold_left
    (fun l nl =>
       match sort_limit (snd nl) with
       | Some t => dset String.eqb l (fst nl) t
       | None => l
       end)
    (getLimits_raw locations current) [].

(* ================================================================= *)
(** ** The factor routines *)

Definition nth_or_raise {A : Type} (l : list A) (n : nat) : result A :=
  match nth_error l n with
  | Some x => Ok x
  | None => Raise IndexError
  end.

Definition opt_nonempty {A : Type} (f : list A -> A) (l : list A) : option A :=
  match l with [] => None | _ => Some (f l) end.

Definition list_max (l : list Qc) : Qc :=
  match l with [] => 0 | x :: r => fold_left Qcmax r x end.
Definition list_min (l : list Qc) : Qc :=
  match l with [] => 0 | x :: r => fold_left Qcmin r x end.

(** The keys of the dictionary [iv], sorted. *)
Definition axis_values (deltaAxis : string) (deltasOnSameAxis : list LocTuple)
  : list Qc :=
  sort Qcleb
    (keys (fold_left
             (fun iv value => dset Qceqb iv (Loc.get (Loc.ofTuple value) deltaAxis) 1%nat)
             deltasOnSameAxis [])).

Definition _calcOnAxisFactor (aLocation : Location) (deltaAxis : string)
  (deltasOnSameAxis : list LocTuple) (deltaLocation : Location) : result Qc :=
  let f := if String.eqb deltaAxis "origin" then 0 else Loc.get aLocation deltaAxis in
  let v := if String.eqb deltaAxis "origin" then 0 else Loc.get deltaLocation deltaAxis in
  let i := axis_values deltaAxis deltasOnSameAxis in
  let B := filter (fun value => Qcltb value f) i in
  let A := filter (fun value => negb (Qcltb value f) && Qcltb f value) i in
  let M := filter (fun value => negb (Qcltb value f) && negb (Qcltb f value)) i in
  let mB := opt_nonempty list_max B in
  let mA := opt_nonempty list_min A in
  let mM := opt_nonempty list_min M in
  match mM, mB, mA with
  | Some _, _, _ =>
      if (Qcltb (f - _EPSILON) v && Qcltb v (f + _EPSILON)) || Qceqb f v
      then Ok 1 else Ok 0
  | None, Some mB, Some mA =>
      if Qcltb v mB || Qcltb mA v then Ok 0
      else if Qceqb v mA then pydiv (f - mB) (mA - mB)
      else pydiv (f - mA) (mB - mA)
  | None, None, Some _ =>
      A1 <- nth_or_raise A 1 ;;
      if Qceqb v A1 then
        A0 <- nth_or_raise A 0 ;; pydiv (f - A0) (A1 - A0)
      else
        A0 <- nth_or_raise A 0 ;;
        if Qceqb v A0 then pydiv (f - A1) (A0 - A1) else Ok 0
  | None, Some mB, None =>
      B2 <- nth_or_raise (rev B) 1 ;;
      if Qceqb v B2 then
        B1 <- nth_or_raise (rev B) 0 ;; pydiv (f - B1) (B2 - B1)
      else if Qceqb v mB then
        B1 <- nth_or_raise (rev B) 0 ;; pydiv (f - B2) (B1 - B2)
      else Ok 0
  | None, None, None => Ok 0
  end.

Definition opt_ltb_l (o : option Qc) (v : Qc) : bool :=
  match o with Some x => Qcltb x v | None => false end.
Definition opt_ltb_r (v : Qc) (o : option Qc) : bool :=
  match o with Some x => Qcltb v x | None => false end.

(** The span [max(M, m) - min(M, m)]; a dictionary in the place of [M]
    cannot be subtracted. *)
Definition span (M : AtEntry) (m : Qc) : result Qc :=
  match M with
  | AtValue x => Ok (Qcmax x m - Qcmin x m)
  | AtDict _ => Raise TypeError
  end.

Definition at_eqb (v : Qc) (M : AtEntry) : bool :=
  match M with AtValue x => Qceqb v x | AtDict _ => false end.

(** The body of the loop of [_calcOffAxisFactor]: the value appended to
    [relative] for one dimension. *)
Definition offAxisDim (f v : Qc) (lim : Triple) : result Qc :=
  let '(mB, M, mA) := lim in
  if opt_ltb_l mA v then Ok 0
  else if opt_ltb_r v mB then Ok 0
  else if Qcltb f (v - _EPSILON) then
    match mB, M, mA with
    | None, Some M, Some mA =>
        s <- span M mA ;;
        q <- pydiv (Qcmax f mA - Qcmin f mA) s ;;
        if at_eqb v M then Ok q else Ok (- (q - 1))
    | None, _, _ => Ok 0
    | Some _, _, None => Ok 0
    | Some mB, _, Some mA => pydiv (f - mB) (mA - mB)
    end
  else if Qcltb (v + _EPSILON) f then
    match mB, M, mA with
    | None, _, _ => Ok 0
    | Some mB, Some M, None =>
        s <- span M mB ;;
        q <- pydiv (Qcmax f mB - Qcmin f mB) s ;;
        if at_eqb v M then Ok q else Ok (- (q - 1))
    | Some _, None, None => Ok 0
    | Some mB, _, Some mA => pydiv (mA - f) (mA - mB)
    end
  else Ok 1.

Fixpoint offAxisRelative (aLocation deltaLocation : Location) (limits : Limits)
  : result (list Qc) :=
  match limits with
  | [] => Ok []
  | (dim, lim) :: rest =>
      r <- offAxisDim (Loc.get aLocation dim) (Loc.get deltaLocation dim) lim ;;
      rs <- offAxisRelative aLocation deltaLocation rest ;;
      Ok (r :: rs)
  end.

Definition _calcOffAxisFactor (aLocation deltaLocation : Location)
  (limits : Limits) : result Qc :=
  relative <- offAxisRelative aLocation deltaLocation limits ;;
  Ok (fold_left Qcmult relative 1).

(* ================================================================= *)
(** ** The [Mutator] class *)

Section Mutator.
Context {T : Type} `{MathObject T}.

(** An entry of the list [getFactors] returns:
    [(factor, mathItem, deltaName)]. *)
Definition Delta : Type := (Qc * T * option string)%type.

(** The dictionary a [Mutator] is: from [location.asTuple()] to
    [(mathItem, deltaName)]. *)
Definition Store : Type := list (LocTuple * (T * option string)).

Definition Axes : Type := list (string * list LocTuple).

Record Mutator : Type := {
  store : Store;
  _axes : Axes;
  _neutral : option T;
  _bias : Location
}.

(** [Mutator(neutral)] *)
Definition newMutator (neutral : option T) : Mutator :=
  {| store := []; _axes := []; _neutral := neutral; _bias := [] |}.

Definition set_store (m : Mutator) (s : Store) : Mutator :=
  {| store := s; _axes := _axes m; _neutral := _neutral m; _bias := _bias m |}.
Definition set_axes (m : Mutator) (a : Axes) : Mutator :=
  {| store := store m; _axes := a; _neutral := _neutral m; _bias := _bias m |}.

Definition setBias (m : Mutator) (bias : Location) : Mutator :=
  {| store := store m; _axes := _axes m; _neutral := _neutral m; _bias := bias |}.

Definition getBias (m : Mutator) : Location := _bias m.

Definition getNeutral (m : Mutator) : option T := _neutral m.

(** Tuples compare component by component. *)
Definition delta_compare (a b : Delta) : comparison :=
  pair_compare (pair_compare Qccompare ocompare) name_compare a b.

Definition item_compare (a b : LocTuple * (T * option string)) : comparison :=
  pair_compare tuple_compare (pair_compare ocompare name_compare) a b.

Definition getAxisNames (m : Mutator) : list string :=
  fold_left
    (fun s l =>
       fold_left (fun s k => if mem String.eqb k s then s else s ++ [k])
                 (keys l) s)
    (keys (store m)) [].

Definition collect_point (axes : Axes) (l : LocTuple) : Axes :=
  match Loc.isOnAxis (Loc.ofTuple l) with
  | OnAxis name =>
      let pts := match dget String.eqb axes name with
                 | Some pts => pts
                 | None => []
                 end in
      dset String.eqb axes name (if mem tuple_eqb l pts then pts else pts ++ [l])
  | _ => axes
  end.

Definition _collectAxisPoints (m : Mutator) : Mutator :=
  set_axes m (fold_left collect_point (keys (store m)) (_axes m)).

Definition _collectOffAxisPoints (m : Mutator) : list LocTuple :=
  filter (fun l => match Loc.isOnAxis (Loc.ofTuple l) with
                   | OnAxis _ => false
                   | _ => true
                   end)
         (keys (store m)).

Definition _allLocations (m : Mutator) : list Location :=
  map Loc.ofTuple (keys (store m)).

Definition collectLocations (m : Mutator) : list Location :=
  map Loc.ofTuple (keys (store m)).

(** The truth value of an axis name: the empty string is false. *)
Definition truthy (name : string) : bool := negb (String.eqb name "").

(** The branch [elif not axisOnly] of [_accumulateFactors]. *)
Definition offAxisBranch (aLocation deltaLocation : Location)
  (limits : Limits) (axisOnly : bool) : result (list Qc) :=
  if axisOnly then Ok []
  else factor <- _calcOffAxisFactor aLocation deltaLocation limits ;; Ok [factor].

Definition _accumulateFactors (axes : Axes) (aLocation deltaLocation : Location)
  (limits : Limits) (axisOnly : bool) : result (Qc * Axes) :=
  ' (relative, axes') <-
    match Loc.isOnAxis deltaLocation with
    | AtOrigin => Ok ([1], axes)
    | OnAxis deltaAxis =>
        if truthy deltaAxis then
          match dget String.eqb axes deltaAxis with
          | None => Raise TypeError
          | Some deltasOnSameAxis =>
              let d := [(deltaAxis, 0)] in
              let pts := if mem tuple_eqb d deltasOnSameAxis
                         then deltasOnSameAxis
                         else deltasOnSameAxis ++ [d] in
              let axes' := dset String.eqb axes deltaAxis pts in
              if (List.length pts =? 1)%nat then
                Ok ([Loc.get aLocation deltaAxis * Loc.get deltaLocation deltaAxis],
                    axes')
              else
                factor <- _calcOnAxisFactor aLocation deltaAxis pts deltaLocation ;;
                Ok ([factor], axes')
          end
        else
          relative <- offAxisBranch aLocation deltaLocation limits axisOnly ;;
          Ok (relative, axes)
    | OffAxis =>
        relative <- offAxisBranch aLocation deltaLocation limits axisOnly ;;
        Ok (relative, axes)
    end ;;
  Ok (match relative with
      | [] => 0
      | v :: rest => fold_left Qcmult rest v
      end, axes').

(** [not (factor-_EPSILON < 0 < factor+_EPSILON)] *)
Definition nonzero_factor (factor : Qc) : bool :=
  negb (Qcltb (factor - _EPSILON) 0 && Qcltb 0 (factor + _EPSILON)).

(** The loop of [getFactors] over [sorted(self.iteritems())]. *)
Fixpoint factors_loop (names : list string) (aLocation : Location)
  (limits : Limits) (axisOnly : bool)
  (items : Store) (axes : Axes) : result (list Delta * Axes) :=
  match items with
  | [] => Ok ([], axes)
  | (deltaLocationTuple, (mathItem, deltaName)) :: rest =>
      let deltaLocation := Loc.expand (Loc.ofTuple deltaLocationTuple) names in
      ' (factor, axes1) <-
        _accumulateFactors axes aLocation deltaLocation limits axisOnly ;;
      ' (deltas, axes2) <-
        factors_loop names aLocation limits axisOnly rest axes1 ;;
      Ok (if nonzero_factor factor
          then (factor, mathItem, deltaName) :: deltas
          else deltas, axes2)
  end.

(** [getFactors] returns the list of deltas, the location argument as the
    call leaves it, and the mutator with its axis index as the call
    leaves it. *)
Definition getFactors (m : Mutator) (aLocation : Location) (axisOnly : bool)
  : result (list Delta * Location * Mutator) :=
  let names := getAxisNames m in
  let aLocation := Loc.expand aLocation names in
  let limits := getLimits (_allLocations m) aLocation in
  ' (deltas, axes) <-
    factors_loop names aLocation limits axisOnly
      (sort (leb_of item_compare) (store m)) (_axes m) ;;
  Ok (rev (sort (leb_of delta_compare) deltas), aLocation, set_axes m axes).

(** The weighted sum of [getInstance]; [None] when there is no factor. *)
Definition weighted_sum (factors : list Delta) : option T :=
  fold_left
    (fun total d =>
       let '(f, item, _) := d in
       match total with
       | None => Some (oscale f item)
       | Some t => Some (oadd t (oscale f item))
       end)
    factors None.

(** [getInstance(aLocation, axisOnly, getFactors=True)] *)
Definition getInstance_factors (m : Mutator) (aLocation : Location)
  (axisOnly : bool) : result (T * list Delta * Location * Mutator) :=
  ' (factors, aLocation', m') <-
    getFactors (_collectAxisPoints m) aLocation axisOnly ;;
  match weighted_sum factors with
  | Some total => Ok (total, factors, aLocation', m')
  | None =>
      match _neutral m' with
      | Some n => Ok (oscale 0 n, factors, aLocation', m')
      | None => Raise TypeError
      end
  end.

(** [getInstance(aLocation, axisOnly)] *)
Definition getInstance (m : Mutator) (aLocation : Location) (axisOnly : bool)
  : result (T * Location * Mutator) :=
  ' (total, _, aLocation', m') <- getInstance_factors m aLocation axisOnly ;;
  Ok (total, aLocation', m').

(** [addDelta]; the instance [r] of a punch is an object, never [None],
    so the [else: raise] of the source is not reached. *)
Definition addDelta (m : Mutator) (location : Location) (aMathObject : T)
  (deltaName : option string) (punch axisOnly : bool)
  : result (Location * Mutator) :=
  if punch then
    ' (r, location', m') <- getInstance m location axisOnly ;;
    Ok (location',
        set_store m' (dset tuple_eqb (store m') (Loc.asTuple location')
                        (osub aMathObject r, deltaName)))
  else
    Ok (location,
        set_store m (dset tuple_eqb (store m) (Loc.asTuple location)
                       (aMathObject, deltaName))).

Definition setNeutral (m : Mutator) (aMathObject : T) (deltaName : option string)
  : result Mutator :=
  let m := {| store := store m; _axes := _axes m;
              _neutral := Some aMathObject; _bias := _bias m |} in
  ' (_, m') <- addDelta m [] (osub aMathObject aMathObject) deltaName false true ;;
  Ok m'.

(** [makeInstance] on a location with scalar coordinates, for which
    [isAmbivalent()] is false.  The argument of [getInstance] is the new
    location [aLocation - self._bias]; the location returned next to the
    instance is [aLocation] as the call leaves it. *)
Definition makeInstance (m : Mutator) (aLocation : Location)
  : result (T * Location * Mutator) :=
  ' (instanceObject, _, m') <- getInstance m (Loc.sub aLocation (_bias m)) false ;;
  match _neutral m' with
  | Some n => Ok (oadd instanceObject n, aLocation, m')
  | None => Raise TypeError
  end.

(* --------------------------------------------------------------- *)
(** *** [buildMutator] *)

(** [biasFromLocations] belongs to location.py, which is not among the
    sources; it is taken as given. *)
Variable biasFromLocations : list Location -> bool -> Location.

(** Modelled from the spec: the order [items.sort()] uses.  The items are
    sorted "by location"; locations compare as their tuples of
    (name, value) pairs, and the objects decide between equal locations. *)
Definition build_item_compare (a b : Location * T) : comparison :=
  pair_compare tuple_compare ocompare a b.

(** The first loop: the first item at the bias sets the neutral. *)
Fixpoint find_neutral (m : Mutator) (bias : Location) (items : list (Location * T))
  : result Mutator :=
  match items with
  | [] => Ok m
  | (loc, obj) :: rest =>
      if Loc.isOrigin (Loc.sub loc bias) then setNeutral m obj (Some "origin")
      else find_neutral m bias rest
  end.

(** [if lb.isOnAxis():] *)
Definition onAxis_truth (l : Location) : bool :=
  match Loc.isOnAxis l with
  | OnAxis name => truthy name
  | _ => false
  end.

(** The second loop: the lists [onx] and [ofx]. *)
Fixpoint split_items (bias : Location) (n : T) (items : list (Location * T))
  : list (Location * T) * list (Location * T) :=
  match items with
  | [] => ([], [])
  | (loc, obj) :: rest =>
      let lb := Loc.sub loc bias in
      let '(onx, ofx) := split_items bias n rest in
      if Loc.isOrigin lb then (onx, ofx)
      else if onAxis_truth lb then ((lb, osub obj n) :: onx, ofx)
      else (onx, (lb, osub obj n) :: ofx)
  end.

Fixpoint addDeltas (m : Mutator) (punch : bool) (ds : list (Location * T))
  : result Mutator :=
  match ds with
  | [] => Ok m
  | (loc, obj) :: rest =>
      ' (_, m') <- addDelta m loc obj None punch true ;;
      addDeltas m' punch rest
  end.

Definition buildMutator (items : list (Location * T))
  : result (Location * Mutator) :=
  let m := newMutator None in
  let items := sort (leb_of build_item_compare) items in
  let bias := biasFromLocations (map fst items) true in
  let m := setBias m bias in
  m <- find_neutral m bias items ;;
  match getNeutral m with
  | None => Raise (MutatorError "Did not find a neutral for this system")
  | Some n =>
      let '(onx, ofx) := split_items bias n items in
      m <- addDeltas m false onx ;;
      m <- addDeltas m true ofx ;;
      Ok (bias, m)
  end.

End Mutator.

Arguments Mutator T : clear implicits.
Arguments Delta T : clear implicits.
Arguments Store T : clear implicits.


(* ================================================================= *)
(** ** The systems of the doctests *)

Definition qz (z : Z) : Qc := Q2Qc (inject_Z z).

Definition half : Qc := Q2Qc (1 # 2).

(** The mutator [buildMutator] returned. *)
Definition built_mutator {T : Type} `{MathObject T}
  (b : result (Location * Mutator T)) : Mutator T :=
  match b with
  | Ok (_, m) => m
  | Raise _ => newMutator None
  end.

(** The mutator a sequence of calls has built. *)
Definition built {T : Type} `{MathObject T} (r : result (Mutator T)) : Mutator T :=
  match r with
  | Ok m => m
  | Raise _ => newMutator None
  end.

(** [test_singleAxis] with any objects and any axis name:
    [m.setNeutral(N); m.addDelta(Location(k=1), V - N)]. *)
Definition singleAxis {T : Type} `{MathObject T} (k : string) (N V : T)
  : result (Mutator T) :=
  m <- setNeutral (newMutator None) N (Some "origin") ;;
  ' (_, m) <- addDelta m [(k, 1)] (osub V N) (Some "test") false true ;;
  Ok m.

(** [test_twoAxes]: neutral 0, [pop=1 -> 100], [snap=1 -> -100]. *)
Definition twoAxes : result (Mutator Qc) :=
  m <- setNeutral (newMutator None) 0 (Some "origin") ;;
  ' (_, m) <- addDelta m [("pop", 1)] (qz 100) (Some "test1") false true ;;
  ' (_, m) <- addDelta m [("snap", 1)] (qz (-100)) (Some "test2") false true ;;
  Ok m.

(** [test_twoAxesOffAxis]: the same with [pop=1, snap=1 -> 50] punched in. *)
Definition twoAxesOffAxis : result (Mutator Qc) :=
  m <- twoAxes ;;
  ' (_, m) <- addDelta m [("pop", 1); ("snap", 1)] (qz 50) (Some "test2") true true ;;
  Ok m.

(** [Mutator(5)] with one delta and no delta at the origin. *)
Definition noOrigin : result (Mutator Qc) :=
  ' (_, m) <- addDelta (newMutator (Some (qz 5))) [("pop", 1)] (qz 100) None false true ;;
  Ok m.

(** The instance a built mutator gives at a location. *)
Definition built_instance {T : Type} `{MathObject T}
  (b : result (Location * Mutator T)) (q : Location) : result T :=
  ' (_, m) <- b ;;
  ' (obj, _, _) <- makeInstance m q ;;
  Ok obj.

(** The items of [test_builder]. *)
Definition test_builder_items : list (Location * Qc) :=
  [ ([("pop", qz 1); ("snap", qz 1)], qz 1);
    ([("pop", qz 2); ("snap", qz 1)], qz 2);
    ([("pop", qz 3); ("snap", qz 1)], qz 3);
    ([("pop", qz 1); ("snap", qz 2)], qz 4);
    ([("pop", qz 2); ("snap", qz 2)], qz 5);
    ([("pop", qz 3); ("snap", qz 2)], qz 6) ].

(** The bias [test_builder] reports for them. *)
Definition test_builder_bias (locations : list Location) (preferOrigin : bool)
  : Location :=
  [("pop", qz 1); ("snap", qz 1)].

(** What a call returned, with the numbers read as fractions. *)
Definition shown (d : Delta Qc) : Q * Q * option string :=
  (this (fst (fst d)), this (snd (fst d)), snd d).

(* ================================================================= *)
(** ** Vocabulary of the properties *)

(** What [getLimits] guarantees of the triple of an axis on which the query
    has the coordinate [c]: the bounds bracket [c], and the two values used
    for an extrapolation are distinct. *)
Definition triple_wf (c : Qc) (t : Triple) : Prop :=
  let '(mB, M, mA) := t in
  (forall b, mB = Some b -> b < c) /\
  (forall a, mA = Some a -> c < a) /\
  match M with
  | None => True
  | Some (AtDict _) => mB = None /\ mA = None
  | Some (AtValue x) =>
      (mB = None \/ mA = None) /\
      (forall a, mA = Some a -> x < a) /\
      (forall b, mB = Some b -> b < x)
  end.

Definition buckets_wf (c : Qc) (lims : Buckets) : Prop :=
  NoDup (keys (below_ lims)) /\ NoDup (keys (above_ lims)) /\
  (forall k, In k (keys (below_ lims)) -> c < k) /\
  (forall k, In k (keys (above_ lims)) -> k < c).

Definition raw_wf (current : Location) (limit : list (string * Buckets)) : Prop :=
  forall name lims, In (name, lims) limit -> buckets_wf (Loc.get current name) lims.


(** With the query at 0 on every axis, each axis has an entry in its ['=']
    bucket. *)
Definition at_nonempty (limit : list (string * Buckets)) : Prop :=
  forall name lims, In (name, lims) limit -> at_ lims <> [].

(** The axis [k] has an entry in its ['='] bucket. *)
Definition at_nonempty_on (k : string) (limit : list (string * Buckets)) : Prop :=
  forall lims, In (k, lims) limit -> at_ lims <> [].

(** The number [x] is 0 or the coordinate of one of the locations on the
    axis. *)
Definition from_locations (locations : list Location) (name : string) (x : Qc) : Prop :=
  x = 0 \/ exists l, In l locations /\ Loc.get l name = x.

(** Every key of the three buckets of an axis is such a number. *)
Definition buckets_from (locations : list Location) (name : string) (lims : Buckets)
  : Prop :=
  (forall k, In k (keys (below_ lims)) -> from_locations locations name k) /\
  (forall k, In k (keys (at_ lims)) -> from_locations locations name k) /\
  (forall k, In k (keys (above_ lims)) -> from_locations locations name k).

Definition raw_from (locations : list Location) (limit : list (string * Buckets))
  : Prop :=
  forall name lims, In (name, lims) limit -> buckets_from locations name lims.

(** The bucket of an axis the coordinate [v] is filed in, for a query with
    the coordinate [c]. *)
Definition filed (c v : Qc) (lims : Buckets) : Prop :=
  if Qcltb c (v - _EPSILON) then In v (keys (below_ lims))
  else if Qcltb (v + _EPSILON) c then In v (keys (above_ lims))
  else In v (keys (at_ lims)).

(** The buckets of [lims'] hold the keys of the buckets of [lims]. *)
Definition buckets_le (lims lims' : Buckets) : Prop :=
  (forall k, In k (keys (below_ lims)) -> In k (keys (below_ lims'))) /\
  (forall k, In k (keys (at_ lims)) -> In k (keys (at_ lims'))) /\
  (forall k, In k (keys (above_ lims)) -> In k (keys (above_ lims'))).

(** The coordinate [v] is filed in the buckets the axis [name] has in
    [limit]. *)
Definition files (current : Location) (name : string) (v : Qc)
  (limit : list (string * Buckets)) : Prop :=
  exists lims, In (name, lims) limit /\ filed (Loc.get current name) v lims.

(** The distance of two coordinates is epsilon or more. *)
Definition apart (x y : Qc) : bool :=
  Qcleb (x + _EPSILON) y || Qcleb (y + _EPSILON) x.

(** The order a comparison decides. *)
Definition le_of {A : Type} (cmp : A -> A -> comparison) (x y : A) : Prop :=
  leb_of cmp x y = true.


(** A comparison that is a total order with [Eq] as equality. *)
Record Order {A : Type} (cmp : A -> A -> comparison) : Prop := {
  cmp_eq : forall x y, cmp x y = Eq -> x = y;
  cmp_antisym : forall x y, cmp y x = CompOpp (cmp x y);
  cmp_trans : forall c x y z, cmp x y = c -> cmp y z = c -> cmp x z = c
}.

Section Vocabulary.
Context {T : Type} `{MathObject T}.

Definition factor_of (d : Delta T) : Qc := fst (fst d).

(** The list of a call that returned; the empty list of one that raised. *)
Definition factors_of {A B : Type} (r : result (list (Delta T) * A * B))
  : list (Delta T) :=
  match r with
  | Ok (fs, _, _) => fs
  | Raise _ => []
  end.

(** The point [t] is listed under the axis [a]. *)
Definition covered (axes : Axes) (t : LocTuple) (a : string) : Prop :=
  exists pts, dget String.eqb axes a = Some pts /\ In t pts.

Definition axes_cover (ks : list LocTuple) (axes : Axes) : Prop :=
  forall t a, In t ks -> Loc.isOnAxis (Loc.ofTuple t) = OnAxis a -> covered axes t a.

(** The list under the axis after the sentinel is appended. *)
Definition with_sentinel (a : string) (pts : list LocTuple) : list LocTuple :=
  if mem tuple_eqb [(a, 0)] pts then pts else pts ++ [[(a, 0)]].

Definition relative_product (relative : list Qc) : Qc :=
  match relative with
  | [] => 0
  | v :: rest => fold_left Qcmult rest v
  end.

Definition off_factor (aLocation deltaLocation : Location) (limits : Limits)
  (axisOnly : bool) : result Qc :=
  relative <- offAxisBranch aLocation deltaLocation limits axisOnly ;;
  Ok (relative_product relative).

(** The factor [_accumulateFactors] returns. *)
Definition delta_factor (axes : Axes) (aLocation deltaLocation : Location)
  (limits : Limits) (axisOnly : bool) : result Qc :=
  match Loc.isOnAxis deltaLocation with
  | AtOrigin => Ok 1
  | OnAxis a =>
      if truthy a then
        match dget String.eqb axes a with
        | None => Raise TypeError
        | Some pts =>
            if (List.length (with_sentinel a pts) =? 1)%nat
            then Ok (Loc.get aLocation a * Loc.get deltaLocation a)
            else _calcOnAxisFactor aLocation a (with_sentinel a pts) deltaLocation
        end
      else off_factor aLocation deltaLocation limits axisOnly
  | OffAxis => off_factor aLocation deltaLocation limits axisOnly
  end.

(** The axis index [_accumulateFactors] leaves. *)
Definition axes_after (axes : Axes) (deltaLocation : Location) : Axes :=
  match Loc.isOnAxis deltaLocation with
  | OnAxis a =>
      if truthy a then
        match dget String.eqb axes a with
        | Some pts => dset String.eqb axes a (with_sentinel a pts)
        | None => axes
        end
      else axes
  | _ => axes
  end.

(** The list under an axis once the sentinel is in. *)
Definition ws (axes : Axes) (a : string) : option (list LocTuple) :=
  option_map (with_sentinel a) (dget String.eqb axes a).

Definition ws_eq (axes axes' : Axes) : Prop := forall a, ws axes a = ws axes' a.

(** The loop of [getFactors] with the factors taken against one index. *)
Fixpoint pure_factors (axes : Axes) (names : list string) (aLocation : Location)
  (limits : Limits) (axisOnly : bool) (items : Store T) : result (list (Delta T)) :=
  match items with
  | [] => Ok []
  | (t, (mathItem, deltaName)) :: rest =>
      factor <- delta_factor axes aLocation
                  (Loc.expand (Loc.ofTuple t) names) limits axisOnly ;;
      deltas <- pure_factors axes names aLocation limits axisOnly rest ;;
      Ok (if nonzero_factor factor
          then (factor, mathItem, deltaName) :: deltas
          else deltas)
  end.

(** The index after the loop. *)
Definition axes_loop (names : list string) (items : Store T) (axes : Axes) : Axes :=
  fold_left (fun ax item => axes_after ax (Loc.expand (Loc.ofTuple (fst item)) names))
            items axes.

(** The axes of the items have their sentinel in the index. *)
Definition sentinels_in (names : list string) (items : Store T) (axes : Axes) : Prop :=
  forall item a,
    In item items ->
    Loc.isOnAxis (Loc.expand (Loc.ofTuple (fst item)) names) = OnAxis a ->
    truthy a = true -> covered axes [(a, 0)] a.

(** A coordinate that is 0 or farther than epsilon from 0. *)
Definition spaced (v : Qc) : bool :=
  Qceqb v 0 || Qcltb _EPSILON v || Qcltb v (- _EPSILON).

(** Every coordinate of every stored delta is [spaced]. *)
Definition well_spaced (s : Store T) : bool :=
  forallb (fun item => forallb (fun p => spaced (snd p)) (Loc.ofTuple (fst item))) s.

(** No stored delta lies on an axis named "origin". *)
Definition no_origin_axis (s : Store T) : bool :=
  forallb (fun item => match Loc.isOnAxis (Loc.ofTuple (fst item)) with
                       | OnAxis a => negb (String.eqb a "origin")
                       | _ => true
                       end) s.

(** The weighted sum of [getInstance] continued from an object. *)
Definition wsum (init : T) (fs : list (Delta T)) : T :=
  fold_left (fun t d => oadd t (oscale (fst (fst d)) (snd (fst d)))) fs init.












End Vocabulary.

(* ================================================================= *)
(** * Properties *)

(** ** Arithmetic on [Qc] through [Q] *)

Lemma this_Q2Qc (q : Q) : (this (Q2Qc q) == q)%Q.
Proof. apply Qred_correct. Qed.

Lemma this_plus (x y : Qc) : (this (x + y) == this x + this y)%Q.
Proof. apply this_Q2Qc. Qed.

Lemma this_opp (x : Qc) : (this (- x) == - this x)%Q.
Proof. apply this_Q2Qc. Qed.

Lemma this_minus (x y : Qc) : (this (x - y) == this x - this y)%Q.
Proof. unfold Qcminus. rewrite this_plus, this_opp. reflexivity. Qed.

Lemma this_mult (x y : Qc) : (this (x * y) == this x * this y)%Q.
Proof. apply this_Q2Qc. Qed.

Lemma Qc_eq_this (x y : Qc) : x = y -> (this x == this y)%Q.
Proof. intros ->. reflexivity. Qed.

Lemma Qc_neq_this (x y : Qc) : x <> y -> ~ (this x == this y)%Q.
Proof. intros Hne E. apply Hne, Qc_is_canon, E. Qed.

(** Linear arithmetic over [Qc]: move to [Q] and call [lra]. *)
Ltac qc_lra :=
  unfold Qclt, Qcle in *;
  repeat match goal with
  | H : @eq Qc _ _ |- _ => apply Qc_eq_this in H
  | H : ~ @eq Qc _ _ |- _ => apply Qc_neq_this in H
  | |- @eq Qc _ _ => apply Qc_is_canon
  | |- ~ @eq Qc _ _ =>
      let E := fresh in intro E; apply Qc_eq_this in E; revert E
  end;
  unfold _EPSILON in *;
  repeat (rewrite ?this_plus, ?this_minus, ?this_opp, ?this_mult, ?this_Q2Qc in * );
  cbn [this] in *;
  lra.

Lemma Qcltb_spec (x y : Qc) : reflect (x < y) (Qcltb x y).
Proof.
  unfold Qcltb. destruct (x ?= y) eqn:E; constructor.
  - apply Qceq_alt in E. subst. apply Qcle_not_lt, Qcle_refl.
  - now apply Qclt_alt.
  - apply Qcgt_alt in E. apply Qcle_not_lt, Qclt_le_weak, E.
Qed.

Lemma Qcleb_spec (x y : Qc) : reflect (x <= y) (Qcleb x y).
Proof.
  unfold Qcleb. destruct (x ?= y) eqn:E; constructor.
  - apply Qceq_alt in E. subst. apply Qcle_refl.
  - apply Qclt_le_weak. now apply Qclt_alt.
  - apply Qcgt_alt in E. now apply Qclt_not_le.
Qed.

Lemma Qceqb_spec (x y : Qc) : reflect (x = y) (Qceqb x y).
Proof.
  unfold Qceqb. destruct (Qeq_bool x y) eqn:E; constructor.
  - apply Qc_is_canon. now apply Qeq_bool_iff.
  - intros ->. apply Qeq_bool_neq in E. apply E. reflexivity.
Qed.

Lemma Qceqb_refl (x : Qc) : Qceqb x x = true.
Proof. destruct (Qceqb_spec x x); congruence. Qed.

Lemma Qcltb_irrefl (x : Qc) : Qcltb x x = false.
Proof. destruct (Qcltb_spec x x) as [L | _]; [qc_lra | reflexivity]. Qed.

(** Case analysis on every comparison in the goal. *)
Ltac qc_case :=
  match goal with
  | |- context [Qcltb ?x ?y] => destruct (Qcltb_spec x y)
  | |- context [Qceqb ?x ?y] => destruct (Qceqb_spec x y)
  | |- context [Qcleb ?x ?y] => destruct (Qcleb_spec x y)
  end.

Lemma EPSILON_pos : 0 < _EPSILON.
Proof. reflexivity. Qed.

(* ----------------------------------------------------------------- *)
(** ** Equality tests *)

Lemma coord_eqb_spec (p q : string * Qc) : reflect (p = q) (coord_eqb p q).
Proof.
  destruct p as [a x], q as [b y]. unfold coord_eqb. simpl.
  destruct (String.eqb_spec a b), (Qceqb_spec x y); simpl; constructor; congruence.
Qed.

Lemma tuple_eqb_spec (a b : LocTuple) : reflect (a = b) (tuple_eqb a b).
Proof.
  revert b. induction a as [| p a IH]; intros [| q b]; simpl;
    try (constructor; congruence).
  destruct (coord_eqb_spec p q), (IH b); simpl; constructor; congruence.
Qed.

Lemma mem_In {A : Type} (eqb : A -> A -> bool)
  (eqb_spec : forall x y, reflect (x = y) (eqb x y)) (x : A) (l : list A) :
  mem eqb x l = true <-> In x l.
Proof.
  unfold mem. rewrite existsb_exists. split.
  - intros [y [Hy E]]. destruct (eqb_spec x y); congruence.
  - intros Hx. exists x. split; [assumption |].
    destruct (eqb_spec x x); congruence.
Qed.

(* ----------------------------------------------------------------- *)
(** ** Sorting *)

Section SortFacts.
Context {A : Type} (leb : A -> A -> bool).

Lemma insert_perm (x : A) (l : list A) : Permutation (x :: l) (insert leb x l).
Proof.
  induction l as [| y r IH]; simpl; [reflexivity |].
  destruct (leb x y); [reflexivity |].
  rewrite perm_swap. now constructor.
Qed.

Lemma sort_perm (l : list A) : Permutation l (sort leb l).
Proof.
  induction l as [| x r IH]; simpl; [reflexivity |].
  rewrite <- insert_perm. now constructor.
Qed.

Lemma sort_In (x : A) (l : list A) : In x (sort leb l) <-> In x l.
Proof.
  split; apply Permutation_in; [symmetry |]; apply sort_perm.
Qed.

(** Sorting orders the list by every relation the test decides. *)
Variable R : A -> A -> Prop.
Hypothesis R_trans : forall x y z, R x y -> R y z -> R x z.
Hypothesis leb_true : forall x y, leb x y = true -> R x y.
Hypothesis leb_false : forall x y, leb x y = false -> R y x.

Lemma insert_sorted (x : A) (l : list A) :
  StronglySorted R l -> StronglySorted R (insert leb x l).
Proof.
  induction 1 as [| y r Hs IH Hall]; simpl.
  - repeat constructor.
  - destruct (leb x y) eqn:E.
    + constructor; [now constructor |].
      constructor; [now apply leb_true |].
      eapply Forall_impl; [| exact Hall].
      intros z Hz. eapply R_trans; [apply leb_true, E | exact Hz].
    + constructor; [assumption |].
      eapply Permutation_Forall; [apply insert_perm |].
      constructor; [now apply leb_false | assumption].
Qed.

Lemma sort_sorted (l : list A) : StronglySorted R (sort leb l).
Proof.
  induction l as [| x r IH]; simpl; [constructor | now apply insert_sorted].
Qed.
End SortFacts.

Lemma StronglySorted_snoc {A : Type} (R : A -> A -> Prop) (l : list A) (x : A) :
  StronglySorted R l -> Forall (fun y => R y x) l -> StronglySorted R (l ++ [x]).
Proof.
  induction 1 as [| y r Hs IH Hy]; intros Hall; simpl.
  - repeat constructor.
  - inversion Hall; subst. constructor; [now apply IH |].
    apply Forall_app. split; [assumption | now repeat constructor].
Qed.

Lemma StronglySorted_rev {A : Type} (R : A -> A -> Prop) (l : list A) :
  StronglySorted R l -> StronglySorted (fun x y => R y x) (rev l).
Proof.
  induction 1 as [| x l Hs IH Hall]; simpl; [constructor |].
  apply StronglySorted_snoc; [assumption |].
  eapply Permutation_Forall; [apply Permutation_rev | exact Hall].
Qed.

(* ----------------------------------------------------------------- *)
(** ** The error monad *)

Lemma bind_Ok {A B : Type} (c : result A) (k : A -> result B) (b : B) :
  bind c k = Ok b -> exists a, c = Ok a /\ k a = Ok b.
Proof. destruct c as [a | e]; simpl; [eauto | discriminate]. Qed.

Ltac bind_inv H :=
  let a := fresh "a" in
  let Ha := fresh "Ha" in
  apply bind_Ok in H; destruct H as [a [Ha H]].

(* ----------------------------------------------------------------- *)
(** ** The list [getFactors] returns *)

Section FactorList.
Context {T : Type} `{MathObject T}.

Lemma nonzero_factor_spec (f : Qc) :
  nonzero_factor f = true <-> ~ (- _EPSILON < f /\ f < _EPSILON).
Proof.
  unfold nonzero_factor.
  destruct (Qcltb_spec (f - _EPSILON) 0), (Qcltb_spec 0 (f + _EPSILON));
    simpl; split; try congruence; intros; try tauto;
    try (intros [L1 L2]; qc_lra).
  exfalso. apply H0. split; qc_lra.
Qed.

Lemma factors_loop_nonzero names aLocation limits axisOnly items :
  forall axes ds axes',
    factors_loop names aLocation limits axisOnly items axes = Ok (ds, axes') ->
    Forall (fun d : Delta T => nonzero_factor (factor_of d) = true) ds.
Proof.
  induction items as [| [t [mathItem deltaName]] rest IH];
    intros axes ds axes' E; simpl in E.
  - inversion E. constructor.
  - bind_inv E. destruct a as [factor axes1]. simpl in E.
    bind_inv E. destruct a as [ds' axes2]. simpl in E.
    apply IH in Ha0.
    destruct (nonzero_factor factor) eqn:En; inversion E; subst;
      [constructor |]; assumption.
Qed.

Lemma delta_leb_true (a b : Delta T) :
  leb_of delta_compare a b = true -> factor_of a <= factor_of b.
Proof.
  unfold leb_of, delta_compare, pair_compare, factor_of.
  destruct (fst (fst a) ?= fst (fst b)) eqn:E; intros L.
  - apply Qceq_alt in E. rewrite E. apply Qcle_refl.
  - apply Qclt_le_weak. now apply Qclt_alt.
  - discriminate.
Qed.

Lemma delta_leb_false (a b : Delta T) :
  leb_of delta_compare a b = false -> factor_of b <= factor_of a.
Proof.
  unfold leb_of, delta_compare, pair_compare, factor_of.
  destruct (fst (fst a) ?= fst (fst b)) eqn:E; intros L.
  - apply Qceq_alt in E. rewrite E. apply Qcle_refl.
  - discriminate.
  - apply Qclt_le_weak. now apply Qcgt_alt.
Qed.

Lemma sorted_deltas_descending (ds : list (Delta T)) :
  StronglySorted (fun a b : Delta T => factor_of b <= factor_of a)
    (rev (sort (leb_of delta_compare) ds)).
Proof.
  apply (StronglySorted_rev (fun a b : Delta T => factor_of a <= factor_of b)).
  apply sort_sorted.
  - intros x y z. apply Qcle_trans.
  - apply delta_leb_true.
  - apply delta_leb_false.
Qed.

Lemma getFactors_nonzero_descending (m : Mutator T) (q : Location) (axisOnly : bool) :
  Forall (fun d : Delta T => ~ (- _EPSILON < factor_of d /\ factor_of d < _EPSILON))
    (factors_of (getFactors m q axisOnly)) /\
  StronglySorted (fun a b : Delta T => factor_of b <= factor_of a)
    (factors_of (getFactors m q axisOnly)).
Proof.
  unfold getFactors.
  destruct (factors_loop _ _ _ _ _ _) as [[ds axes] | e] eqn:E; simpl;
    [| split; constructor].
  split; [| apply sorted_deltas_descending].
  apply factors_loop_nonzero in E.
  eapply Permutation_Forall.
  - etransitivity; [apply sort_perm | apply Permutation_rev].
  - eapply Forall_impl; [| exact E].
    intros d. apply nonzero_factor_spec.
Qed.
End FactorList.

(* ----------------------------------------------------------------- *)
(** ** Dictionaries *)

Section DictFacts.
Context {K V : Type} (keq : K -> K -> bool).
Hypothesis keq_spec : forall x y, reflect (x = y) (keq x y).

Lemma dget_dset_eq (d : list (K * V)) (k : K) (v : V) :
  dget keq (dset keq d k v) k = Some v.
Proof.
  induction d as [| [k' v'] r IH]; simpl.
  - destruct (keq_spec k k); congruence.
  - destruct (keq_spec k k') as [E | N]; simpl.
    + destruct (keq_spec k k); congruence.
    + destruct (keq_spec k k'); congruence.
Qed.

Lemma dget_dset_neq (d : list (K * V)) (k k' : K) (v : V) :
  k <> k' -> dget keq (dset keq d k v) k' = dget keq d k'.
Proof.
  intros N. induction d as [| [k0 v0] r IH]; simpl.
  - destruct (keq_spec k' k); congruence.
  - destruct (keq_spec k k0) as [E | N0]; simpl.
    + subst. destruct (keq_spec k' k0); congruence.
    + destruct (keq_spec k' k0); congruence.
Qed.

Lemma dget_In (d : list (K * V)) (k : K) (v : V) :
  dget keq d k = Some v -> In (k, v) d.
Proof.
  induction d as [| [k' v'] r IH]; simpl; [discriminate |].
  destruct (keq_spec k k'); intros E.
  - left. congruence.
  - right. auto.
Qed.

Lemma In_dset (d : list (K * V)) (k : K) (v : V) (p : K * V) :
  In p (dset keq d k v) -> p = (k, v) \/ In p d.
Proof.
  induction d as [| [k' v'] r IH]; simpl.
  - intros [E | []]. now left.
  - destruct (keq k k'); simpl; intros [E | Hin]; auto.
    destruct (IH Hin); auto.
Qed.

Lemma In_dset_new (d : list (K * V)) (k : K) (v : V) : In (k, v) (dset keq d k v).
Proof. apply dget_In, dget_dset_eq. Qed.

Lemma dset_same (d : list (K * V)) (k : K) (v : V) :
  dget keq d k = Some v -> dset keq d k v = d.
Proof.
  induction d as [| [k' v'] r IH]; simpl; [discriminate |].
  destruct (keq_spec k k'); intros E.
  - congruence.
  - now rewrite IH.
Qed.

Lemma keys_dset (d : list (K * V)) (k : K) (v : V) :
  keys (dset keq d k v) = if has_key keq d k then keys d else keys d ++ [k].
Proof.
  unfold has_key. induction d as [| [k' v'] r IH]; simpl; [reflexivity |].
  destruct (keq_spec k k'); simpl.
  - now subst.
  - rewrite IH. now destruct (dget keq r k).
Qed.

Lemma has_key_In (d : list (K * V)) (k : K) :
  has_key keq d k = true <-> In k (keys d).
Proof.
  unfold has_key. induction d as [| [k' v'] r IH]; simpl.
  - split; [discriminate | tauto].
  - destruct (keq_spec k k').
    + split; auto.
    + rewrite IH. split; [auto | intros [E | Hin]; congruence].
Qed.

Lemma NoDup_keys_dset (d : list (K * V)) (k : K) (v : V) :
  NoDup (keys d) -> NoDup (keys (dset keq d k v)).
Proof.
  intros Hd. rewrite keys_dset.
  destruct (has_key keq d k) eqn:E; [assumption |].
  apply NoDup_app; [assumption | repeat constructor; tauto |].
  intros x Hx [<- | []].
  apply has_key_In in Hx. congruence.
Qed.
End DictFacts.

(* ----------------------------------------------------------------- *)
(** ** Locations *)

Lemma string_compare_refl (s : string) : String.compare s s = Eq.
Proof.
  pose proof (String.compare_antisym s s) as E.
  destruct (String.compare s s); simpl in E; congruence.
Qed.

Module LocFacts.
Import Loc.

Lemma has_In (l : Location) (k : string) : has l k = true <-> In k (keys l).
Proof. apply mem_In, String.eqb_spec. Qed.

Lemma has_cons (k' : string) (v' : Qc) (r : Location) (k : string) :
  has ((k', v') :: r) k = String.eqb k k' || has r k.
Proof. reflexivity. Qed.

Lemma get_replace (l : Location) (k : string) (v : Qc) (k' : string) :
  has l k = true ->
  get (replace l k v) k' = if String.eqb k' k then v else get l k'.
Proof.
  induction l as [| [k0 v0] r IH]; [discriminate |].
  rewrite has_cons. simpl.
  destruct (String.eqb_spec k k0) as [-> | N]; simpl.
  - intros _. now destruct (String.eqb_spec k' k0).
  - intros Hr. rewrite (IH Hr).
    destruct (String.eqb_spec k' k0), (String.eqb_spec k' k);
      congruence || reflexivity.
Qed.

Lemma get_add (l : Location) (k : string) (v : Qc) (k' : string) :
  has l k = false ->
  get (add l k v) k' = if String.eqb k' k then v else get l k'.
Proof.
  induction l as [| [k0 v0] r IH]; [reflexivity |].
  rewrite has_cons. intros Hh. apply orb_false_iff in Hh as [N Hr].
  apply String.eqb_neq in N. simpl.
  destruct (String.compare k k0); simpl; try rewrite (IH Hr);
    destruct (String.eqb_spec k' k0), (String.eqb_spec k' k);
    congruence || reflexivity.
Qed.

Lemma get_set (l : Location) (k : string) (v : Qc) (k' : string) :
  get (set l k v) k' = if String.eqb k' k then v else get l k'.
Proof.
  unfold set. destruct (has l k) eqn:E; [now apply get_replace | now apply get_add].
Qed.

Lemma keys_replace (l : Location) (k : string) (v : Qc) :
  keys (replace l k v) = keys l.
Proof.
  induction l as [| [k0 v0] r IH]; simpl; [reflexivity |].
  destruct (String.eqb_spec k k0); simpl; congruence.
Qed.

Lemma keys_add_perm (l : Location) (k : string) (v : Qc) :
  Permutation (k :: keys l) (keys (add l k v)).
Proof.
  induction l as [| [k0 v0] r IH]; simpl; [reflexivity |].
  destruct (String.compare k k0); simpl; try reflexivity;
    (rewrite perm_swap; now constructor).
Qed.

Lemma has_set (l : Location) (k : string) (v : Qc) (k' : string) :
  has (set l k v) k' = String.eqb k' k || has l k'.
Proof.
  unfold set. destruct (has l k) eqn:E.
  - apply eq_true_iff_eq. rewrite orb_true_iff, !has_In, keys_replace.
    rewrite String.eqb_eq. split; [tauto |].
    intros [-> | Hin]; [now apply has_In | assumption].
  - apply eq_true_iff_eq. rewrite orb_true_iff, !has_In, String.eqb_eq.
    rewrite <- (Permutation_in' eq_refl (keys_add_perm l k v)). simpl.
    split; intros [E' | Hin]; auto.
Qed.

Lemma NoDup_set (l : Location) (k : string) (v : Qc) :
  NoDup (keys l) -> NoDup (keys (set l k v)).
Proof.
  intros Hl. unfold set. destruct (has l k) eqn:E.
  - now rewrite keys_replace.
  - eapply Permutation_NoDup; [apply keys_add_perm |].
    constructor; [| assumption].
    intros Hin. apply has_In in Hin. congruence.
Qed.

Lemma filter_add_zero (l : Location) (k : string) :
  filter nonzero (add l k 0) = filter nonzero l.
Proof.
  induction l as [| [k0 v0] r IH]; simpl; [reflexivity |].
  destruct (String.compare k k0); simpl; try rewrite IH; reflexivity.
Qed.

Lemma NoDup_ofTuple (t : LocTuple) : NoDup (keys (ofTuple t)).
Proof.
  unfold ofTuple.
  assert (G : forall l : Location, NoDup (keys l) ->
              NoDup (keys (fold_left (fun l p => set l (fst p) (snd p)) t l))).
  { induction t as [| p t IH]; intros l Hl; simpl; [assumption |].
    apply IH, NoDup_set, Hl. }
  apply G. constructor.
Qed.

(** *** [expand] *)

Lemma get_expand (l : Location) (names : list string) (k : string) :
  get (expand l names) k = get l k.
Proof.
  unfold expand. revert l. induction names as [| n names IH]; intros l; simpl;
    [reflexivity |].
  rewrite IH. destruct (has l n) eqn:E; [reflexivity |].
  rewrite get_set. destruct (String.eqb_spec k n) as [-> | N]; [| reflexivity].
  clear IH. induction l as [| [k0 v0] r IHl]; [reflexivity |].
  rewrite has_cons in E. apply orb_false_iff in E as [N Hr]. simpl.
  rewrite N. auto.
Qed.

Lemma has_expand (l : Location) (names : list string) (k : string) :
  has (expand l names) k = has l k || mem String.eqb k names.
Proof.
  unfold expand. revert l. induction names as [| n names IH]; intros l; simpl.
  - now rewrite orb_false_r.
  - rewrite IH. destruct (has l n) eqn:E.
    + destruct (String.eqb_spec k n) as [-> | N]; simpl; [| reflexivity].
      now rewrite E.
    + rewrite has_set. unfold mem. simpl.
      destruct (String.eqb k n), (has l k), (existsb _ names); reflexivity.
Qed.

Lemma filter_expand (l : Location) (names : list string) :
  filter nonzero (expand l names) = filter nonzero l.
Proof.
  unfold expand. revert l. induction names as [| n names IH]; intros l; simpl;
    [reflexivity |].
  rewrite IH. destruct (has l n) eqn:E; [reflexivity |].
  unfold set. rewrite E. apply filter_add_zero.
Qed.

Lemma isOnAxis_expand (l : Location) (names : list string) :
  isOnAxis (expand l names) = isOnAxis l.
Proof. unfold isOnAxis. now rewrite filter_expand. Qed.


Lemma expand_idem (l : Location) (names : list string) :
  expand (expand l names) names = expand l names.
Proof.
  assert (G : forall (ns : list string) (l' : Location),
             (forall k, In k ns -> has l' k = true) -> expand l' ns = l').
  { unfold expand. induction ns as [| n ns IH]; intros l' Hh; simpl; [reflexivity |].
    rewrite (Hh n (or_introl eq_refl)). apply IH. intros k Hk. apply Hh. now right. }
  apply G. intros k Hk. rewrite has_expand.
  apply orb_true_iff. right. apply mem_In; [apply String.eqb_spec | assumption].
Qed.

(** *** Coordinates of a location with distinct axis names *)

Lemma get_In (l : Location) (a : string) (v : Qc) :
  NoDup (keys l) -> In (a, v) l -> get l a = v.
Proof.
  induction l as [| [k0 v0] r IH]; simpl; [tauto |].
  intros Hnd [E | Hin].
  - inversion E; subst. now rewrite String.eqb_refl.
  - inversion Hnd as [| ? ? Hnot Hr]; subst.
    destruct (String.eqb_spec a k0) as [-> | N]; [| auto].
    exfalso. apply Hnot. change k0 with (fst (k0, v)). now apply in_map.
Qed.

Lemma isOnAxis_get (l : Location) (a : string) :
  NoDup (keys l) -> isOnAxis l = OnAxis a -> get l a <> 0.
Proof.
  unfold isOnAxis. intros Hnd E.
  destruct (filter nonzero l) as [| [k v] [| q rest]] eqn:F; try discriminate.
  simpl in E. injection E as <-.
  assert (Hin : In (k, v) (filter nonzero l)) by (rewrite F; now left).
  apply filter_In in Hin as [Hin Hnz].
  rewrite (get_In l k v Hnd Hin).
  unfold nonzero in Hnz. simpl in Hnz.
  destruct (Qceqb_spec v 0); [discriminate | assumption].
Qed.

End LocFacts.

(* ----------------------------------------------------------------- *)
(** ** The on-axis factor always exists *)

Lemma filter_nil_false {A : Type} (p : A -> bool) (l : list A) :
  filter p l = [] -> forall x, In x l -> p x = false.
Proof.
  induction l as [| y r IH]; simpl; [tauto |].
  destruct (p y) eqn:E; [discriminate |].
  intros Hr x [<- | Hin]; auto.
Qed.

Lemma filter_all_true {A : Type} (p : A -> bool) (l : list A) :
  (forall x, In x l -> p x = true) -> filter p l = l.
Proof.
  induction l as [| y r IH]; simpl; [reflexivity |].
  intros Hp. rewrite (Hp y (or_introl eq_refl)). f_equal. auto.
Qed.

Lemma fold_Qcmax_In (r : list Qc) (x : Qc) : In (fold_left Qcmax r x) (x :: r).
Proof.
  revert x. induction r as [| y r IH]; intros x; simpl; [now left |].
  destruct (IH (Qcmax x y)) as [E | Hin]; [| now right; right].
  rewrite <- E. unfold Qcmax. destruct (Qcltb x y); auto.
Qed.

Lemma fold_Qcmin_In (r : list Qc) (x : Qc) : In (fold_left Qcmin r x) (x :: r).
Proof.
  revert x. induction r as [| y r IH]; intros x; simpl; [now left |].
  destruct (IH (Qcmin x y)) as [E | Hin]; [| now right; right].
  rewrite <- E. unfold Qcmin. destruct (Qcltb y x); auto.
Qed.

Lemma opt_nonempty_max_In (l : list Qc) (x : Qc) :
  opt_nonempty list_max l = Some x -> In x l.
Proof.
  destruct l as [| y r]; simpl; [discriminate |].
  intros E. injection E as <-. apply fold_Qcmax_In.
Qed.

Lemma opt_nonempty_min_In (l : list Qc) (x : Qc) :
  opt_nonempty list_min l = Some x -> In x l.
Proof.
  destruct l as [| y r]; simpl; [discriminate |].
  intros E. injection E as <-. apply fold_Qcmin_In.
Qed.

Lemma opt_nonempty_None {A : Type} (f : list A -> A) (l : list A) :
  opt_nonempty f l = None -> l = [].
Proof. destruct l; simpl; [reflexivity | discriminate]. Qed.

Lemma pydiv_Ok (a b : Qc) : b <> 0 -> pydiv a b = Ok (a / b).
Proof. unfold pydiv. intros N. destruct (Qceqb_spec b 0); congruence. Qed.

(** The coordinates collected in [iv]. *)
Lemma fold_dset_keys {X : Type} (g : X -> Qc) (l : list X) :
  forall iv : list (Qc * nat),
    NoDup (keys iv) ->
    let iv' := fold_left (fun iv x => dset Qceqb iv (g x) 1%nat) l iv in
    NoDup (keys iv') /\
    forall k, In k (keys iv') <-> In k (keys iv) \/ exists x, In x l /\ g x = k.
Proof.
  induction l as [| x l IH]; intros iv Hnd; simpl.
  - split; [assumption |]. intros k. split; [auto | intros [Hk | [x [[] _]]]; assumption].
  - destruct (IH (dset Qceqb iv (g x) 1%nat)) as [Hnd' Hin].
    { apply NoDup_keys_dset; [apply Qceqb_spec | assumption]. }
    split; [assumption |]. intros k. rewrite Hin.
    rewrite (keys_dset Qceqb Qceqb_spec).
    destruct (has_key Qceqb iv (g x)) eqn:E.
    + apply (has_key_In Qceqb Qceqb_spec) in E. split.
      * intros [Hk | [y [Hy Ey]]]; [now left | right; exists y; auto].
      * intros [Hk | [y [[-> | Hy] Ey]]]; [now left | left; congruence |].
        right. exists y. auto.
    + rewrite in_app_iff. simpl. split.
      * intros [[Hk | [Ek | []]] | [y [Hy Ey]]]; [now left | | ].
        -- right. exists x. auto.
        -- right. exists y. auto.
      * intros [Hk | [y [[-> | Hy] Ey]]]; [now left; left | now left; right; left |].
        right. exists y. auto.
Qed.

Lemma axis_values_In (a : string) (pts : list LocTuple) (x : Qc) :
  In x (axis_values a pts) <-> exists t, In t pts /\ Loc.get (Loc.ofTuple t) a = x.
Proof.
  unfold axis_values. rewrite sort_In.
  destruct (fold_dset_keys (fun t => Loc.get (Loc.ofTuple t) a) pts [] (NoDup_nil _))
    as [_ Hin].
  rewrite Hin. simpl. tauto.
Qed.

Lemma axis_values_NoDup (a : string) (pts : list LocTuple) :
  NoDup (axis_values a pts).
Proof.
  unfold axis_values. eapply Permutation_NoDup; [apply sort_perm |].
  apply (fold_dset_keys (fun t => Loc.get (Loc.ofTuple t) a) pts [] (NoDup_nil _)).
Qed.

Lemma two_elements (i : list Qc) (x y : Qc) :
  In x i -> In y i -> x <> y -> exists a b r, i = a :: b :: r.
Proof.
  destruct i as [| a [| b r]]; simpl; [tauto | | eauto].
  intros [<- | []] [<- | []] N. congruence.
Qed.

Lemma NoDup_two {A : Type} (a b : A) (r : list A) : NoDup (a :: b :: r) -> a <> b.
Proof. inversion 1; subst. simpl in *. intros ->. tauto. Qed.

Lemma _calcOnAxisFactor_total (aLocation : Location) (deltaAxis : string)
  (pts : list LocTuple) (deltaLocation : Location) (x y : Qc) :
  In x (axis_values deltaAxis pts) -> In y (axis_values deltaAxis pts) -> x <> y ->
  exists r, _calcOnAxisFactor aLocation deltaAxis pts deltaLocation = Ok r.
Proof.
  intros Hx Hy Hxy. unfold _calcOnAxisFactor.
  pose proof (axis_values_NoDup deltaAxis pts) as Hnd.
  set (i := axis_values deltaAxis pts) in *.
  set (f := if String.eqb deltaAxis "origin" then 0 else Loc.get aLocation deltaAxis).
  set (v := if String.eqb deltaAxis "origin" then 0 else Loc.get deltaLocation deltaAxis).
  set (pB := fun value => Qcltb value f).
  set (pA := fun value => negb (Qcltb value f) && Qcltb f value).
  set (pM := fun value => negb (Qcltb value f) && negb (Qcltb f value)).
  destruct (opt_nonempty list_min (filter pM i)) as [mM |] eqn:EM.
  { destruct (_ || _); eauto. }
  apply opt_nonempty_None in EM.
  pose proof (filter_nil_false _ _ EM) as HM.
  destruct (opt_nonempty list_max (filter pB i)) as [mB |] eqn:EB;
    destruct (opt_nonempty list_min (filter pA i)) as [mA |] eqn:EA.
  - apply opt_nonempty_max_In, filter_In in EB as [_ LB].
    apply opt_nonempty_min_In, filter_In in EA as [_ LA].
    unfold pB in LB. unfold pA in LA. apply andb_true_iff in LA as [_ LA].
    destruct (Qcltb_spec mB f); [| discriminate].
    destruct (Qcltb_spec f mA); [| discriminate].
    destruct (_ || _); [eauto |].
    destruct (Qceqb v mA); rewrite pydiv_Ok; eauto; qc_lra.
  - apply opt_nonempty_None in EA.
    pose proof (filter_nil_false _ _ EA) as HA.
    assert (EBi : filter pB i = i).
    { apply filter_all_true. intros z Hz.
      specialize (HM z Hz). specialize (HA z Hz). unfold pM in HM. unfold pA in HA.
      unfold pB. destruct (Qcltb z f), (Qcltb f z); simpl in *; congruence. }
    rewrite EBi.
    assert (Hr : exists a b r, rev i = a :: b :: r).
    { apply (two_elements (rev i) x y); [now apply in_rev in Hx | now apply in_rev in Hy
                                          | assumption]. }
    destruct Hr as [b1 [b2 [r Er]]]. rewrite Er. simpl.
    assert (N : b1 <> b2).
    { apply (NoDup_two b1 b2 r). rewrite <- Er. now apply NoDup_rev. }
    destruct (Qceqb v b2); [rewrite pydiv_Ok; eauto; qc_lra |].
    destruct (Qceqb v mB); [rewrite pydiv_Ok; eauto; qc_lra | eauto].
  - apply opt_nonempty_None in EB.
    pose proof (filter_nil_false _ _ EB) as HB.
    assert (EAi : filter pA i = i).
    { apply filter_all_true. intros z Hz.
      specialize (HM z Hz). specialize (HB z Hz). unfold pM in HM. unfold pB in HB.
      unfold pA. destruct (Qcltb z f), (Qcltb f z); simpl in *; congruence. }
    rewrite EAi.
    destruct (two_elements i x y Hx Hy Hxy) as [a0 [a1 [r Ei]]].
    rewrite Ei. simpl.
    assert (N : a0 <> a1) by (apply (NoDup_two a0 a1 r); now rewrite <- Ei).
    destruct (Qceqb v a1); [rewrite pydiv_Ok; eauto; qc_lra |].
    destruct (Qceqb v a0); [rewrite pydiv_Ok; eauto; qc_lra | eauto].
  - eauto.
Qed.

(* ----------------------------------------------------------------- *)
(** ** The limits bracket the query *)

Lemma bucket_add_NoDup (b : Bucket) (value : Qc) (l : Location) :
  NoDup (keys b) -> NoDup (keys (bucket_add b value l)).
Proof. apply NoDup_keys_dset, Qceqb_spec. Qed.

Lemma bucket_add_keys (b : Bucket) (value : Qc) (l : Location) (k : Qc) :
  In k (keys (bucket_add b value l)) -> k = value \/ In k (keys b).
Proof.
  unfold bucket_add. rewrite (keys_dset Qceqb Qceqb_spec).
  destruct (has_key Qceqb b value); [now right |].
  rewrite in_app_iff. simpl. intuition.
Qed.

Lemma limit_init_wf (f : Qc) : buckets_wf f (limit_init f).
Proof.
  unfold limit_init, buckets_wf.
  destruct (Qcltb_spec 0 f); [| destruct (Qcltb_spec f 0)]; simpl;
    repeat split; try constructor; simpl; try tauto; try constructor;
    intros k [<- | []]; assumption.
Qed.

Lemma get_map_keys (g : string -> Qc) (dims : list string) (k : string) :
  In k dims -> Loc.get (map (fun k => (k, g k)) dims) k = g k.
Proof.
  induction dims as [| d dims IH]; simpl; [tauto |].
  destruct (String.eqb_spec k d) as [-> | N]; [reflexivity |].
  intros [E | Hin]; [congruence | auto].
Qed.

Lemma common_Some (current l a b : Location) :
  Loc.common current l = Some (a, b) ->
  exists dims,
    dims = filter (fun k => Loc.has l k &&
                            negb (Loc.near_zero (Loc.get current k) &&
                                  Loc.near_zero (Loc.get l k)))
                  (keys current) /\
    a = map (fun k => (k, Loc.get current k)) dims /\
    b = map (fun k => (k, Loc.get l k)) dims.
Proof.
  unfold Loc.common. destruct (filter _ _) as [| d dims] eqn:F; [discriminate |].
  intros E. injection E as <- <-. exists (d :: dims). auto.
Qed.

Lemma common_get (current l a b : Location) (name : string) (value : Qc) :
  Loc.common current l = Some (a, b) -> In (name, value) b ->
  Loc.get a name = Loc.get current name.
Proof.
  intros C Hin. apply common_Some in C as [dims [_ [-> ->]]].
  apply in_map_iff in Hin as [k [Ek Hk]]. injection Ek as -> _.
  now apply (get_map_keys (Loc.get current)).
Qed.

Lemma limit_step_wf (current l a : Location) (limit : list (string * Buckets))
  (nv : string * Qc) :
  Loc.get a (fst nv) = Loc.get current (fst nv) ->
  raw_wf current limit -> raw_wf current (limit_step current l a limit nv).
Proof.
  intros Ea Hw name lims Hin. unfold limit_step in Hin.
  apply In_dset in Hin as [E | Hin]; [| now apply Hw].
  injection E as -> ->.
  set (c := Loc.get current (fst nv)).
  assert (W : buckets_wf c
                (match dget String.eqb limit (fst nv) with
                 | Some b => b
                 | None => limit_init (Loc.get a (fst nv))
                 end)).
  { destruct (dget String.eqb limit (fst nv)) as [b |] eqn:G.
    - apply (dget_In String.eqb String.eqb_spec) in G. now apply Hw.
    - rewrite Ea. apply limit_init_wf. }
  destruct W as [N1 [N2 [L1 L2]]].
  fold c. destruct (Qcltb_spec c (snd nv - _EPSILON)) as [Lt1 | _];
    [| destruct (Qcltb_spec (snd nv + _EPSILON) c) as [Lt2 | _]];
    unfold buckets_wf; simpl; repeat split;
    try assumption; try (now apply bucket_add_NoDup);
    intros k Hk; apply bucket_add_keys in Hk as [-> | Hk]; auto; qc_lra.
Qed.

Lemma getLimits_raw_wf (locations : list Location) (current : Location) :
  raw_wf current (getLimits_raw locations current).
Proof.
  unfold getLimits_raw.
  assert (G : forall limit, raw_wf current limit ->
    raw_wf current
      (fold_left
         (fun limit l =>
            match Loc.common current l with
            | None => limit
            | Some (a, b) => fold_left (limit_step current l a) b limit
            end) locations limit)).
  { induction locations as [| l locations IH]; intros limit Hw; simpl; [assumption |].
    apply IH. destruct (Loc.common current l) as [[a b] |] eqn:C; [| assumption].
    assert (Hb : forall nv, In nv b -> Loc.get a (fst nv) = Loc.get current (fst nv)).
    { intros [name value] Hnv. eapply common_get; eassumption. }
    clear C. revert limit Hw. induction b as [| nv b IHb]; intros limit Hw; simpl;
      [assumption |].
    apply IHb; [intros nv' Hnv'; apply Hb; now right |].
    apply limit_step_wf; [apply Hb; now left | assumption]. }
  apply G. intros name lims [].
Qed.

Lemma sort_Qcleb_sorted (l : list Qc) : StronglySorted Qcle (sort Qcleb l).
Proof.
  apply sort_sorted.
  - apply Qcle_trans.
  - intros x y E. destruct (Qcleb_spec x y); [assumption | discriminate].
  - intros x y E. destruct (Qcleb_spec x y); [discriminate |].
    apply Qclt_le_weak, Qcnot_le_lt. assumption.
Qed.

Lemma sorted_first_two (l : list Qc) (x y : Qc) (r : list Qc) :
  NoDup l -> sort Qcleb l = x :: y :: r -> x < y.
Proof.
  intros Hnd E. pose proof (sort_Qcleb_sorted l) as Hs. rewrite E in Hs.
  assert (N : x <> y).
  { apply (NoDup_two x y r). rewrite <- E.
    eapply Permutation_NoDup; [apply sort_perm | assumption]. }
  inversion Hs as [| ? ? _ Hall]; subst. inversion Hall; subst. qc_lra.
Qed.

Lemma sorted_last_two (l : list Qc) (x y : Qc) (r : list Qc) :
  NoDup l -> rev (sort Qcleb l) = x :: y :: r -> y < x.
Proof.
  intros Hnd E.
  pose proof (StronglySorted_rev _ _ (sort_Qcleb_sorted l)) as Hs. rewrite E in Hs.
  assert (N : x <> y).
  { apply (NoDup_two x y r). rewrite <- E. apply NoDup_rev.
    eapply Permutation_NoDup; [apply sort_perm | assumption]. }
  inversion Hs as [| ? ? _ Hall]; subst. inversion Hall; subst. qc_lra.
Qed.

Lemma sort_limit_wf (c : Qc) (lims : Buckets) (t : Triple) :
  buckets_wf c lims -> sort_limit lims = Some t -> triple_wf c t.
Proof.
  intros [N1 [N2 [L1 L2]]]. unfold sort_limit.
  set (less := sort Qcleb (keys (above_ lims))).
  set (more := sort Qcleb (keys (below_ lims))).
  assert (Hless : forall k, In k (rev less) -> k < c).
  { intros k Hk. rewrite <- in_rev in Hk. apply L2. unfold less in Hk.
    now apply sort_In in Hk. }
  assert (Hmore : forall k, In k more -> c < k).
  { intros k Hk. apply L1. unfold more in Hk. now apply sort_In in Hk. }
  assert (Hm2 : forall x y r, more = x :: y :: r -> x < y).
  { intros x y r E. eapply sorted_first_two; [exact N1 | exact E]. }
  assert (Hl2 : forall x y r, rev less = x :: y :: r -> y < x).
  { intros x y r E. eapply sorted_last_two; [exact N2 | exact E]. }
  destruct (rev less) as [| l1 rl] eqn:Er; destruct more as [| m0 rm] eqn:Em;
    destruct (keys (at_ lims)) as [| k ks];
    try (destruct rm as [| m1 rm]; [discriminate |]);
    try (destruct rl as [| l2 rl]; [discriminate |]);
    intros E; injection E as <-; simpl;
    repeat split; intros; try discriminate; auto;
    match goal with
    | H : Some _ = Some _ |- _ => injection H as H; subst
    end;
    first [ apply Hmore; simpl; tauto
          | apply Hless; simpl; tauto
          | eapply Hm2; reflexivity
          | eapply Hl2; reflexivity ].
Qed.

Lemma getLimits_In (locations : list Location) (current : Location)
  (name : string) (t : Triple) :
  In (name, t) (getLimits locations current) ->
  exists lims, In (name, lims) (getLimits_raw locations current) /\
               sort_limit lims = Some t.
Proof.
  unfold getLimits. generalize (getLimits_raw locations current) as raw.
  assert (G : forall raw (l : Limits),
    In (name, t)
       (fold_left (fun l nl => match sort_limit (snd nl) with
                               | Some t => dset String.eqb l (fst nl) t
                               | None => l
                               end) raw l) ->
    In (name, t) l \/
    exists lims, In (name, lims) raw /\ sort_limit lims = Some t).
  { induction raw as [| [n lims] raw IH]; intros l Hin; simpl in *; [now left |].
    apply IH in Hin as [Hin | [lims' [Hin E]]]; [| right; eauto].
    destruct (sort_limit lims) as [t' |] eqn:E; [| now left].
    apply In_dset in Hin as [E' | Hin]; [| now left].
    injection E' as -> ->. right. eauto. }
  intros raw Hin. apply G in Hin as [[] | Hex]. exact Hex.
Qed.

Lemma getLimits_wf (locations : list Location) (current : Location)
  (name : string) (t : Triple) :
  In (name, t) (getLimits locations current) -> triple_wf (Loc.get current name) t.
Proof.
  intros Hin. apply getLimits_In in Hin as [lims [Hin E]].
  eapply sort_limit_wf; [| exact E].
  now apply (getLimits_raw_wf locations current).
Qed.

(* ----------------------------------------------------------------- *)
(** ** The off-axis factor always exists *)

Lemma Qcmax_min_span (x y : Qc) : x < y -> Qcmax x y - Qcmin x y <> 0.
Proof.
  intros L. unfold Qcmax, Qcmin.
  destruct (Qcltb_spec x y); destruct (Qcltb_spec y x); qc_lra.
Qed.

Lemma Qcmax_min_span' (x y : Qc) : y < x -> Qcmax x y - Qcmin x y <> 0.
Proof.
  intros L. unfold Qcmax, Qcmin.
  destruct (Qcltb_spec x y); destruct (Qcltb_spec y x); qc_lra.
Qed.

Lemma offAxisDim_total (c f v : Qc) (lim : Triple) :
  triple_wf c lim -> exists r, offAxisDim f v lim = Ok r.
Proof.
  destruct lim as [[mB M] mA]. intros [HB [HA HM]]. unfold offAxisDim.
  destruct (opt_ltb_l mA v); [eauto |].
  destruct (opt_ltb_r v mB); [eauto |].
  destruct (Qcltb f (v - _EPSILON)).
  { destruct mB as [b |]; destruct mA as [a |]; eauto.
    - specialize (HB b eq_refl). specialize (HA a eq_refl).
      rewrite pydiv_Ok; [eauto | qc_lra].
    - destruct M as [[x | d] |]; eauto.
      + destruct HM as [_ [Hxa _]]. specialize (Hxa a eq_refl). simpl.
        rewrite pydiv_Ok; [| now apply Qcmax_min_span]. simpl.
        destruct (Qceqb v x); eauto.
      + destruct HM; discriminate.
    - destruct M as [[x | d] |]; eauto. }
  destruct (Qcltb (v + _EPSILON) f); [| eauto].
  destruct mB as [b |]; destruct mA as [a |]; eauto.
  - specialize (HB b eq_refl). specialize (HA a eq_refl).
    destruct M; rewrite pydiv_Ok; eauto; qc_lra.
  - destruct M as [[x | d] |]; eauto.
    + destruct HM as [_ [_ Hbx]]. specialize (Hbx b eq_refl). simpl.
      rewrite pydiv_Ok; [| now apply Qcmax_min_span']. simpl.
      destruct (Qceqb v x); eauto.
    + destruct HM; discriminate.
Qed.

Lemma offAxisRelative_total (aLocation deltaLocation : Location) (limits : Limits) :
  (forall dim t, In (dim, t) limits -> triple_wf (Loc.get aLocation dim) t) ->
  exists rs, offAxisRelative aLocation deltaLocation limits = Ok rs.
Proof.
  induction limits as [| [dim lim] rest IH]; intros Hw; simpl; [eauto |].
  destruct (offAxisDim_total (Loc.get aLocation dim) (Loc.get aLocation dim)
              (Loc.get deltaLocation dim) lim) as [r ->].
  { apply Hw. now left. }
  destruct IH as [rs ->]; [intros d t Hin; apply Hw; now right |].
  simpl. eauto.
Qed.

Lemma _calcOffAxisFactor_total (locations : list Location)
  (aLocation deltaLocation : Location) :
  exists r, _calcOffAxisFactor aLocation deltaLocation
              (getLimits locations aLocation) = Ok r.
Proof.
  unfold _calcOffAxisFactor.
  destruct (offAxisRelative_total aLocation deltaLocation
              (getLimits locations aLocation)) as [rs ->].
  { intros dim t. apply getLimits_wf. }
  simpl. eauto.
Qed.

(* ----------------------------------------------------------------- *)
(** ** The axis index covers the stored on-axis deltas *)

Section AxisIndex.
Context {T : Type} `{MathObject T}.

Lemma covered_dset (axes : Axes) (t : LocTuple) (a b : string)
  (pts pts' : list LocTuple) :
  dget String.eqb axes b = Some pts \/ (dget String.eqb axes b = None /\ pts = []) ->
  (forall x, In x pts -> In x pts') ->
  covered axes t a -> covered (dset String.eqb axes b pts') t a.
Proof.
  intros Hb Hsub [p [G Hin]]. unfold covered.
  destruct (String.eqb_spec b a) as [-> | N].
  - rewrite (dget_dset_eq String.eqb String.eqb_spec). exists pts'. split; [reflexivity |].
    apply Hsub. destruct Hb as [Hb | [Hb _]]; congruence.
  - rewrite (dget_dset_neq String.eqb String.eqb_spec) by assumption. eauto.
Qed.

Lemma collect_point_mono (axes : Axes) (l t : LocTuple) (a : string) :
  covered axes t a -> covered (collect_point axes l) t a.
Proof.
  intros C. unfold collect_point.
  destruct (Loc.isOnAxis (Loc.ofTuple l)) as [| name |]; try assumption.
  destruct (dget String.eqb axes name) as [pts |] eqn:G.
  - eapply covered_dset; [left; exact G | | assumption].
    intros x Hx. destruct (mem tuple_eqb l pts); [assumption |].
    apply in_app_iff. now left.
  - eapply covered_dset; [right; split; [exact G | reflexivity] | | assumption].
    intros x [].
Qed.

Lemma collect_point_covers (axes : Axes) (l : LocTuple) (a : string) :
  Loc.isOnAxis (Loc.ofTuple l) = OnAxis a -> covered (collect_point axes l) l a.
Proof.
  intros E. unfold collect_point. rewrite E. unfold covered.
  rewrite (dget_dset_eq String.eqb String.eqb_spec).
  eexists. split; [reflexivity |].
  destruct (mem tuple_eqb l _) eqn:M.
  - now apply (mem_In tuple_eqb tuple_eqb_spec) in M.
  - apply in_app_iff. right. now left.
Qed.

Lemma fold_collect_mono (ks : list LocTuple) (axes : Axes) (t : LocTuple) (a : string) :
  covered axes t a -> covered (fold_left collect_point ks axes) t a.
Proof.
  revert axes. induction ks as [| l ks IH]; intros axes C; simpl; [assumption |].
  apply IH, collect_point_mono, C.
Qed.

Lemma fold_collect_cover (ks : list LocTuple) (axes : Axes) :
  axes_cover ks (fold_left collect_point ks axes).
Proof.
  revert axes. induction ks as [| l ks IH]; intros axes t a Hin E; simpl in *;
    [tauto |].
  destruct Hin as [-> | Hin].
  - apply fold_collect_mono, collect_point_covers, E.
  - now apply IH.
Qed.

Lemma _collectAxisPoints_cover (m : Mutator T) :
  axes_cover (keys (store m)) (_axes (_collectAxisPoints m)).
Proof. apply fold_collect_cover. Qed.

Lemma _collectAxisPoints_store (m : Mutator T) :
  store (_collectAxisPoints m) = store m.
Proof. reflexivity. Qed.
End AxisIndex.

(* ----------------------------------------------------------------- *)
(** ** [getFactors] returns once the axis index is collected *)

Section Totality.
Context {T : Type} `{MathObject T}.

(** The sentinel [((axis, 0),)] has the coordinate 0. *)
Lemma sentinel_get (a : string) : Loc.get (Loc.ofTuple [(a, 0)]) a = 0.
Proof.
  change (Loc.ofTuple [(a, 0)]) with (Loc.set [] a 0).
  rewrite LocFacts.get_set. now rewrite String.eqb_refl.
Qed.

Lemma with_sentinel_incl (a : string) (pts : list LocTuple) (x : LocTuple) :
  In x pts -> In x (with_sentinel a pts).
Proof.
  unfold with_sentinel. destruct (mem _ _ _); [auto |].
  intros Hx. apply in_app_iff. now left.
Qed.

Lemma with_sentinel_In (a : string) (pts : list LocTuple) :
  In [(a, 0)] (with_sentinel a pts).
Proof.
  unfold with_sentinel. destruct (mem _ _ _) eqn:M.
  - now apply (mem_In tuple_eqb tuple_eqb_spec) in M.
  - apply in_app_iff. right. now left.
Qed.

Lemma _accumulateFactors_total (axes : Axes) (aLocation deltaLocation : Location)
  (locations : list Location) (axisOnly : bool) (t : LocTuple) :
  (forall a, Loc.isOnAxis deltaLocation = OnAxis a ->
             covered axes t a /\ Loc.get (Loc.ofTuple t) a <> 0) ->
  exists factor axes',
    _accumulateFactors axes aLocation deltaLocation
      (getLimits locations aLocation) axisOnly = Ok (factor, axes') /\
    forall t' a', covered axes t' a' -> covered axes' t' a'.
Proof.
  intros Hcov. unfold _accumulateFactors.
  assert (Hoff : exists relative,
             offAxisBranch aLocation deltaLocation
               (getLimits locations aLocation) axisOnly = Ok relative).
  { unfold offAxisBranch. destruct axisOnly; [eauto |].
    destruct (_calcOffAxisFactor_total locations aLocation deltaLocation) as [r ->].
    simpl. eauto. }
  destruct (Loc.isOnAxis deltaLocation) as [| a |] eqn:E.
  - simpl. eauto.
  - destruct (truthy a).
    + destruct (Hcov a eq_refl) as [[pts [G Hin]] Hnz]. rewrite G.
      fold (with_sentinel a pts).
      assert (Hmono : forall t' a', covered axes t' a' ->
                covered (dset String.eqb axes a (with_sentinel a pts)) t' a').
      { intros t' a'. apply (covered_dset axes t' a' a pts); [now left |].
        apply with_sentinel_incl. }
      destruct (List.length (with_sentinel a pts) =? 1)%nat; [simpl; eauto |].
      destruct (_calcOnAxisFactor_total aLocation a (with_sentinel a pts) deltaLocation
                  0 (Loc.get (Loc.ofTuple t) a)) as [r ->].
      * apply axis_values_In. exists [(a, 0)]. split;
          [apply with_sentinel_In | apply sentinel_get].
      * apply axis_values_In. exists t. split;
          [now apply with_sentinel_incl | reflexivity].
      * congruence.
      * simpl. eauto.
    + destruct Hoff as [relative ->]. simpl. eauto.
  - destruct Hoff as [relative ->]. simpl. eauto.
Qed.

Lemma factors_loop_total (names : list string) (aLocation : Location)
  (locations : list Location) (axisOnly : bool) (ks : list LocTuple)
  (items : Store T) :
  forall axes,
    (forall t o, In (t, o) items -> In t ks) ->
    axes_cover ks axes ->
    exists ds axes',
      factors_loop names aLocation (getLimits locations aLocation) axisOnly
        items axes = Ok (ds, axes').
Proof.
  induction items as [| [t [mathItem deltaName]] rest IH]; intros axes Hks Hc; simpl;
    [eauto |].
  destruct (_accumulateFactors_total axes aLocation
              (Loc.expand (Loc.ofTuple t) names) locations axisOnly t)
    as [factor [axes1 [-> Hmono]]].
  { intros a E. rewrite LocFacts.isOnAxis_expand in E. split.
    - apply Hc; [| assumption]. eapply Hks. now left.
    - apply LocFacts.isOnAxis_get; [apply LocFacts.NoDup_ofTuple | assumption]. }
  simpl.
  destruct (IH axes1) as [ds [axes2 ->]].
  - intros t' o Hin. eapply Hks. right. exact Hin.
  - intros t' a' Hin E. apply Hmono. now apply Hc.
  - simpl. eauto.
Qed.

Lemma store_keys_In (s : Store T) (t : LocTuple) (o : T * option string) :
  In (t, o) s -> In t (keys s).
Proof. intros Hin. change t with (fst (t, o)). now apply in_map. Qed.

Lemma getFactors_total (m : Mutator T) (q : Location) (axisOnly : bool) :
  exists fs m',
    getFactors (_collectAxisPoints m) q axisOnly
    = Ok (fs, Loc.expand q (getAxisNames m), m').
Proof.
  unfold getFactors.
  destruct (factors_loop_total (getAxisNames (_collectAxisPoints m))
              (Loc.expand q (getAxisNames (_collectAxisPoints m)))
              (_allLocations (_collectAxisPoints m)) axisOnly
              (keys (store m))
              (sort (leb_of item_compare) (store (_collectAxisPoints m)))
              (_axes (_collectAxisPoints m))) as [ds [axes' E]].
  - intros t o Hin. apply sort_In in Hin. now apply store_keys_In in Hin.
  - apply _collectAxisPoints_cover.
  - rewrite E. simpl. eauto.
Qed.

(** [getInstance] returns on every mutator whose neutral is set. *)
Lemma getInstance_factors_total (m : Mutator T) (q : Location) (axisOnly : bool)
  (n : T) :
  _neutral m = Some n ->
  exists total fs m',
    getInstance_factors m q axisOnly
    = Ok (total, fs, Loc.expand q (getAxisNames m), m') /\
    _neutral m' = Some n /\ store m' = store m /\ _bias m' = _bias m.
Proof.
  intros Hn. unfold getInstance_factors.
  destruct (getFactors_total m q axisOnly) as [fs [m' E]]. rewrite E. simpl.
  assert (Hm' : _neutral m' = Some n /\ store m' = store m /\ _bias m' = _bias m).
  { unfold getFactors in E. destruct (factors_loop _ _ _ _ _ _) as [[ds ax] |];
      [| discriminate].
    simpl in E. injection E as _ <-. simpl. auto. }
  destruct (weighted_sum fs) as [total |]; [eauto 6 |].
  destruct Hm' as [Hn' Hs]. rewrite Hn'. eauto 6.
Qed.
End Totality.

(* ----------------------------------------------------------------- *)
(** ** The factor of one delta, and what the call does to the axis index *)

Section DeltaFactor.
Context {T : Type} `{MathObject T}.

Lemma _accumulateFactors_eq (axes : Axes) (aLocation deltaLocation : Location)
  (limits : Limits) (axisOnly : bool) :
  _accumulateFactors axes aLocation deltaLocation limits axisOnly
  = (factor <- delta_factor axes aLocation deltaLocation limits axisOnly ;;
     Ok (factor, axes_after axes deltaLocation)).
Proof.
  unfold _accumulateFactors, delta_factor, axes_after, off_factor.
  destruct (Loc.isOnAxis deltaLocation) as [| a |]; simpl; [reflexivity | |].
  - destruct (truthy a).
    + destruct (dget String.eqb axes a) as [pts |]; [| reflexivity].
      fold (with_sentinel a pts).
      destruct (List.length (with_sentinel a pts) =? 1)%nat; [reflexivity |].
      destruct (_calcOnAxisFactor _ _ _ _); reflexivity.
    + destruct (offAxisBranch _ _ _ _); reflexivity.
  - destruct (offAxisBranch _ _ _ _); reflexivity.
Qed.

Lemma with_sentinel_idem (a : string) (pts : list LocTuple) :
  with_sentinel a (with_sentinel a pts) = with_sentinel a pts.
Proof.
  unfold with_sentinel at 1.
  destruct (mem tuple_eqb [(a, 0)] (with_sentinel a pts)) eqn:M; [reflexivity |].
  pose proof (with_sentinel_In a pts) as Hin.
  apply (mem_In tuple_eqb tuple_eqb_spec) in Hin. congruence.
Qed.

Lemma ws_eq_refl (axes : Axes) : ws_eq axes axes.
Proof. intros a. reflexivity. Qed.

Lemma ws_eq_trans (a b c : Axes) : ws_eq a b -> ws_eq b c -> ws_eq a c.
Proof. intros E1 E2 x. now rewrite E1. Qed.

Lemma ws_eq_sym (a b : Axes) : ws_eq a b -> ws_eq b a.
Proof. intros E x. now rewrite E. Qed.

Lemma axes_after_ws (axes : Axes) (deltaLocation : Location) :
  ws_eq axes (axes_after axes deltaLocation).
Proof.
  intros b. unfold axes_after.
  destruct (Loc.isOnAxis deltaLocation) as [| a |]; try reflexivity.
  destruct (truthy a); [| reflexivity].
  destruct (dget String.eqb axes a) as [pts |] eqn:G; [| reflexivity].
  unfold ws. destruct (String.eqb_spec a b) as [<- | N].
  - rewrite (dget_dset_eq String.eqb String.eqb_spec), G. simpl.
    now rewrite with_sentinel_idem.
  - now rewrite (dget_dset_neq String.eqb String.eqb_spec).
Qed.

Lemma delta_factor_ws (axes axes' : Axes) (aLocation deltaLocation : Location)
  (limits : Limits) (axisOnly : bool) :
  ws_eq axes axes' ->
  delta_factor axes aLocation deltaLocation limits axisOnly
  = delta_factor axes' aLocation deltaLocation limits axisOnly.
Proof.
  intros E. unfold delta_factor.
  destruct (Loc.isOnAxis deltaLocation) as [| a |]; try reflexivity.
  destruct (truthy a); [| reflexivity].
  specialize (E a). unfold ws in E.
  destruct (dget String.eqb axes a), (dget String.eqb axes' a);
    simpl in E; try discriminate; [| reflexivity].
  injection E as ->. reflexivity.
Qed.

Lemma axes_loop_ws (names : list string) (items : Store T) (axes : Axes) :
  ws_eq axes (axes_loop names items axes).
Proof.
  unfold axes_loop. revert axes. induction items as [| item rest IH]; intros axes; simpl.
  - apply ws_eq_refl.
  - eapply ws_eq_trans; [apply axes_after_ws | apply IH].
Qed.

Lemma factors_loop_eq (names : list string) (aLocation : Location)
  (limits : Limits) (axisOnly : bool) (items : Store T) :
  forall axes0 axes,
    ws_eq axes0 axes ->
    factors_loop names aLocation limits axisOnly items axes
    = (deltas <- pure_factors axes0 names aLocation limits axisOnly items ;;
       Ok (deltas, axes_loop names items axes)).
Proof.
  induction items as [| [t [mathItem deltaName]] rest IH]; intros axes0 axes E; simpl;
    [reflexivity |].
  rewrite _accumulateFactors_eq.
  rewrite (delta_factor_ws axes0 axes) by assumption.
  destruct (delta_factor axes _ _ _ _) as [factor | e]; simpl; [| reflexivity].
  rewrite (IH axes0).
  - destruct (pure_factors axes0 _ _ _ _ rest); reflexivity.
  - eapply ws_eq_trans; [exact E | apply axes_after_ws].
Qed.

(** [getFactors], with the loop spelled out. *)
Lemma getFactors_eq (m : Mutator T) (aLocation : Location) (axisOnly : bool) :
  getFactors m aLocation axisOnly
  = (let names := getAxisNames m in
     let q := Loc.expand aLocation names in
     deltas <- pure_factors (_axes m) names q (getLimits (_allLocations m) q)
                 axisOnly (sort (leb_of item_compare) (store m)) ;;
     Ok (rev (sort (leb_of delta_compare) deltas), q,
         set_axes m (axes_loop names (sort (leb_of item_compare) (store m))
                       (_axes m)))).
Proof.
  unfold getFactors. rewrite (factors_loop_eq _ _ _ _ _ (_axes m)) by apply ws_eq_refl.
  simpl. destruct (pure_factors _ _ _ _ _ _); reflexivity.
Qed.
End DeltaFactor.


(* ----------------------------------------------------------------- *)
(** ** Which deltas are in the list of [getFactors] *)

Section FactorMembership.
Context {T : Type} `{MathObject T}.

Lemma pure_factors_In (axes : Axes) (names : list string) (aLocation : Location)
  (limits : Limits) (axisOnly : bool) (items : Store T) (ds : list (Delta T)) :
  pure_factors axes names aLocation limits axisOnly items = Ok ds ->
  forall t o n, In (t, (o, n)) items ->
    exists f, delta_factor axes aLocation (Loc.expand (Loc.ofTuple t) names)
                limits axisOnly = Ok f /\
              (nonzero_factor f = true -> In (f, o, n) ds).
Proof.
  revert ds. induction items as [| [t' [o' n']] rest IH]; intros ds E t o n Hin;
    simpl in *; [tauto |].
  bind_inv E. bind_inv E. injection E as <-.
  destruct Hin as [Eq | Hin].
  - injection Eq as -> -> ->. exists a. split; [assumption |].
    intros ->. now left.
  - destruct (IH a0 Ha0 t o n Hin) as [f [Ef Hf]]. exists f. split; [assumption |].
    intros Hn. specialize (Hf Hn). destruct (nonzero_factor a); [now right | assumption].
Qed.

Lemma pure_factors_inv (axes : Axes) (names : list string) (aLocation : Location)
  (limits : Limits) (axisOnly : bool) (items : Store T) (ds : list (Delta T)) :
  pure_factors axes names aLocation limits axisOnly items = Ok ds ->
  forall f o n, In (f, o, n) ds ->
    exists t, In (t, (o, n)) items /\
              delta_factor axes aLocation (Loc.expand (Loc.ofTuple t) names)
                limits axisOnly = Ok f /\
              nonzero_factor f = true.
Proof.
  revert ds. induction items as [| [t' [o' n']] rest IH]; intros ds E f o n Hin;
    simpl in *.
  - injection E as <-. destruct Hin.
  - bind_inv E. bind_inv E. injection E as <-.
    destruct (nonzero_factor a) eqn:En.
    + destruct Hin as [Eq | Hin].
      * injection Eq as -> -> ->. exists t'. auto.
      * destruct (IH a0 Ha0 f o n Hin) as [t [Ht Hf]]. exists t. auto.
    + destruct (IH a0 Ha0 f o n Hin) as [t [Ht Hf]]. exists t. auto.
Qed.

Lemma sorted_deltas_In (ds : list (Delta T)) (d : Delta T) :
  In d (rev (sort (leb_of delta_compare) ds)) <-> In d ds.
Proof. rewrite <- in_rev. apply sort_In. Qed.

Lemma delta_factor_origin (axes : Axes) (aLocation deltaLocation : Location)
  (limits : Limits) (axisOnly : bool) :
  Loc.isOnAxis deltaLocation = AtOrigin ->
  delta_factor axes aLocation deltaLocation limits axisOnly = Ok 1.
Proof. unfold delta_factor. now intros ->. Qed.

Lemma nonzero_factor_1 : nonzero_factor 1 = true.
Proof. reflexivity. Qed.

End FactorMembership.


(* ================================================================= *)
(** * The factor list *)

Section FactorListOutput.
Context {T : Type} `{MathObject T}.

(** C5.  The list [getFactors] returns has no entry whose factor lies
    within epsilon of zero (strictly between -epsilon and epsilon, the test
    of the source), and its entries are in descending order of their
    factors; the call returns whenever the axis index has been collected,
    as [getInstance] does before calling it. *)
Theorem getFactors_nonzero_sorted (m : Mutator T) (q : Location) (axisOnly : bool) :
  (exists fs m',
      getFactors (_collectAxisPoints m) q axisOnly
      = Ok (fs, Loc.expand q (getAxisNames m), m')) /\
  Forall (fun d : Delta T => ~ (- _EPSILON < factor_of d /\ factor_of d < _EPSILON))
    (factors_of (getFactors m q axisOnly)) /\
  StronglySorted (fun a b : Delta T => factor_of b <= factor_of a)
    (factors_of (getFactors m q axisOnly)).
Proof.
  split; [apply getFactors_total | apply getFactors_nonzero_descending].
Qed.

(** C6.  On a mutator whose neutral [n] is set, [getInstance] returns at
    every location, and when no delta survives the factor computation the
    instance is [0 * n]. *)
Theorem getInstance_empty_sum (m : Mutator T) (q : Location) (axisOnly : bool) (n : T) :
  _neutral m = Some n ->
  exists total fs q' m',
    getInstance_factors m q axisOnly = Ok (total, fs, q', m') /\
    getInstance m q axisOnly = Ok (total, q', m') /\
    (fs = [] -> total = oscale 0 n).
Proof.
  intros Hn.
  destruct (getInstance_factors_total m q axisOnly n Hn)
    as [total [fs [m' [E [Hn' _]]]]].
  exists total, fs, (Loc.expand q (getAxisNames m)), m'.
  split; [exact E |]. split.
  - unfold getInstance. now rewrite E.
  - intros ->. unfold getInstance_factors in E.
    bind_inv E. destruct a as [[fs' q'] m'']. simpl in E.
    destruct (weighted_sum fs') eqn:W.
    + inversion E; subst. discriminate.
    + destruct (_neutral m'') eqn:N; [| discriminate].
      inversion E; subst. congruence.
Qed.

(** C4, amended.  For every query and both values of [axisOnly], a delta
    stored at the origin receives the factor 1 and is an entry of the list
    [getFactors] returns. *)
Theorem origin_delta_in_factors (m : Mutator T) (q : Location) (axisOnly : bool)
  (t : LocTuple) (obj : T) (name : option string) :
  In (t, (obj, name)) (store m) ->
  Loc.isOnAxis (Loc.ofTuple t) = AtOrigin ->
  (forall axes aLocation limits,
      _accumulateFactors axes aLocation
        (Loc.expand (Loc.ofTuple t) (getAxisNames m)) limits axisOnly
      = Ok (1, axes)) /\
  exists fs q' m',
    getFactors (_collectAxisPoints m) q axisOnly = Ok (fs, q', m') /\
    In (1, obj, name) fs.
Proof.
  intros Hin Eo.
  assert (Eo' : forall names,
             Loc.isOnAxis (Loc.expand (Loc.ofTuple t) names) = AtOrigin).
  { intros names. now rewrite LocFacts.isOnAxis_expand. }
  split.
  - intros axes aLocation limits. rewrite _accumulateFactors_eq.
    rewrite delta_factor_origin by apply Eo'. simpl.
    unfold axes_after. now rewrite Eo'.
  - destruct (getFactors_total m q axisOnly) as [fs [m' E]].
    exists fs, (Loc.expand q (getAxisNames m)), m'. split; [exact E |].
    rewrite getFactors_eq in E. simpl in E. bind_inv E.
    injection E as <- _.
    apply sorted_deltas_In.
    destruct (pure_factors_In _ _ _ _ _ _ _ Ha t obj name) as [f [Ef Hf]].
    { apply sort_In. exact Hin. }
    rewrite delta_factor_origin in Ef by apply Eo'. injection Ef as <-.
    apply Hf, nonzero_factor_1.
Qed.

End FactorListOutput.

(** C6 at the system [Mutator(5)] with the single delta [pop=1 -> 100],
    queried at [pop=0]. *)
Lemma getInstance_empty_sum_witness :
  exists total fs q' m',
    getInstance_factors (built noOrigin) [("pop", 0)] false = Ok (total, fs, q', m') /\
    getInstance (built noOrigin) [("pop", 0)] false = Ok (total, q', m') /\
    (fs = [] -> total = oscale 0 (qz 5)).
Proof.
  apply (getInstance_empty_sum (built noOrigin) [("pop", 0)] false (qz 5)).
  reflexivity.
Defined.

(** At that query no delta survives, and the instance is 0. *)
Example noOrigin_empty_sum :
  match getInstance_factors (built noOrigin) [("pop", 0)] false with
  | Ok (total, fs, _, _) => fs = [] /\ this total = 0%Q
  | Raise _ => False
  end.
Proof. vm_compute. split; reflexivity. Qed.

(** C4 as stated fails: with [axisOnly=False] the delta at the origin is in
    the list [getFactors] returns, here on the single-axis system of the
    doctests queried at [pop=1]. *)
Lemma origin_delta_listed :
  match getFactors (_collectAxisPoints (built (singleAxis "pop" 0 (qz 100))))
          [("pop", 1)] false with
  | Ok (fs, _, _) => map shown fs = [(1%Q, 100%Q, Some "test"); (1%Q, 0%Q, Some "origin")]
  | Raise _ => False
  end.
Proof. vm_compute. reflexivity. Qed.

Lemma origin_delta_in_factors_witness :
  (forall axes aLocation limits,
      _accumulateFactors axes aLocation
        (Loc.expand (Loc.ofTuple [])
           (getAxisNames (built (singleAxis "pop" 0 (qz 100))))) limits false
      = Ok (1, axes)) /\
  exists fs q' m',
    getFactors (_collectAxisPoints (built (singleAxis "pop" 0 (qz 100))))
      [("pop", 1)] false = Ok (fs, q', m') /\
    In (1, 0 - 0, Some "origin") fs.
Proof.
  apply (origin_delta_in_factors (built (singleAxis "pop" 0 (qz 100)))
           [("pop", 1)] false [] (0 - 0) (Some "origin")).
  - vm_compute. left. reflexivity.
  - reflexivity.
Defined.

(* ----------------------------------------------------------------- *)
(** ** The location argument *)

Lemma get_absent (l : Location) (k : string) : Loc.has l k = false -> Loc.get l k = 0.
Proof.
  induction l as [| [k' v] r IH]; [reflexivity |].
  rewrite LocFacts.has_cons. intros E. apply orb_false_iff in E as [N Hr].
  simpl. rewrite N. auto.
Qed.

Lemma two_distinct_length {A : Type} (l : list A) (x y : A) :
  In x l -> In y l -> x <> y -> (2 <= List.length l)%nat.
Proof.
  destruct l as [| a [| b r]]; simpl; [tauto | | lia].
  intros [<- | []] [<- | []] N. congruence.
Qed.

Section QueryState.
Context {T : Type} `{MathObject T}.

Lemma getFactors_location (m : Mutator T) (q : Location) (axisOnly : bool) :
  match getFactors m q axisOnly with
  | Ok (_, q1, _) => q1 = Loc.expand q (getAxisNames m)
  | Raise _ => True
  end.
Proof.
  rewrite getFactors_eq. simpl. destruct (pure_factors _ _ _ _ _ _); simpl; trivial.
Qed.

Lemma getInstance_location (m : Mutator T) (q : Location) (axisOnly : bool) :
  match getInstance m q axisOnly with
  | Ok (_, q1, _) => q1 = Loc.expand q (getAxisNames m)
  | Raise _ => True
  end.
Proof.
  unfold getInstance, getInstance_factors.
  pose proof (getFactors_location (_collectAxisPoints m) q axisOnly) as L.
  destruct (getFactors (_collectAxisPoints m) q axisOnly) as [[[fs q1] m1] | e];
    simpl; [| trivial].
  destruct (weighted_sum fs); simpl; [exact L |].
  destruct (_neutral m1); simpl; [exact L | trivial].
Qed.

(** C9, amended.  [getFactors] and [getInstance] expand their location
    argument in place: after the call it has every axis name of the
    mutator, the coordinates it had, and 0 on each axis that was missing.
    [makeInstance] hands [getInstance] the new location
    [aLocation - self._bias] and leaves its own argument as it was. *)
Theorem location_argument_after_call (m : Mutator T) (q : Location) (axisOnly : bool) :
  let q' := Loc.expand q (getAxisNames m) in
  Forall (fun k => Loc.has q' k = true) (getAxisNames m) /\
  Forall (fun k => Loc.has q k = true \/ Loc.get q' k = 0) (getAxisNames m) /\
  (forall k, Loc.has q' k = Loc.has q k || mem String.eqb k (getAxisNames m)) /\
  (forall k, Loc.get q' k = Loc.get q k) /\
  (exists fs m', getFactors (_collectAxisPoints m) q axisOnly = Ok (fs, q', m')) /\
  match getFactors m q axisOnly with
  | Ok (_, q1, _) => q1 = q'
  | Raise _ => True
  end /\
  match getInstance m q axisOnly with
  | Ok (_, q1, _) => q1 = q'
  | Raise _ => True
  end /\
  match makeInstance m q with
  | Ok (_, q1, _) => q1 = q
  | Raise _ => True
  end.
Proof.
  intros q'. repeat split.
  - apply Forall_forall. intros k Hk. unfold q'. rewrite LocFacts.has_expand.
    apply orb_true_iff. right. now apply (mem_In String.eqb String.eqb_spec).
  - apply Forall_forall. intros k Hk. destruct (Loc.has q k) eqn:E; [now left | right].
    unfold q'. rewrite LocFacts.get_expand. now apply get_absent.
  - intros k. apply LocFacts.has_expand.
  - intros k. apply LocFacts.get_expand.
  - apply getFactors_total.
  - apply getFactors_location.
  - apply getInstance_location.
  - unfold makeInstance.
    destruct (getInstance m (Loc.sub q (_bias m)) false) as [[[r q1] m1] | e];
      simpl; [| trivial].
    destruct (_neutral m1); simpl; trivial.
Qed.

Lemma covered_axes_after (axes : Axes) (dl : Location) (t : LocTuple) (a : string) :
  covered axes t a -> covered (axes_after axes dl) t a.
Proof.
  intros C. unfold axes_after.
  destruct (Loc.isOnAxis dl) as [| b |]; try assumption.
  destruct (truthy b); [| assumption].
  destruct (dget String.eqb axes b) as [pts |] eqn:G; [| assumption].
  eapply covered_dset; [left; exact G | apply with_sentinel_incl | assumption].
Qed.

Lemma covered_axes_loop (names : list string) (items : Store T) (axes : Axes)
  (t : LocTuple) (a : string) :
  covered axes t a -> covered (axes_loop names items axes) t a.
Proof.
  unfold axes_loop. revert axes. induction items as [| item rest IH]; intros axes C;
    simpl; [assumption |].
  apply IH, covered_axes_after, C.
Qed.

Lemma on_axis_not_sentinel (t : LocTuple) (a : string) :
  Loc.isOnAxis (Loc.ofTuple t) = OnAxis a -> t <> [(a, 0)].
Proof.
  intros E ->. apply LocFacts.isOnAxis_get in E; [| apply LocFacts.NoDup_ofTuple].
  apply E, sentinel_get.
Qed.

(** C10.  Inside [getInstance], when the loop of [getFactors] reaches
    [_accumulateFactors] for a stored delta on an axis [a], the list
    [self._axes[a]] holds the delta's own location, and with the sentinel
    [((a, 0),)] it has at least two entries: the call takes the branch of
    [_calcOnAxisFactor], not the single-entry one. *)
Theorem single_entry_branch_unreachable (m : Mutator T) (q : Location)
  (axisOnly : bool) (pre post : Store T) (t : LocTuple) (o : T * option string)
  (a : string) :
  let mc := _collectAxisPoints m in
  let names := getAxisNames mc in
  let q' := Loc.expand q names in
  let limits := getLimits (_allLocations mc) q' in
  let deltaLocation := Loc.expand (Loc.ofTuple t) names in
  sort (leb_of item_compare) (store mc) = pre ++ (t, o) :: post ->
  Loc.isOnAxis deltaLocation = OnAxis a ->
  truthy a = true ->
  exists ds axes pts,
    factors_loop names q' limits axisOnly pre (_axes mc) = Ok (ds, axes) /\
    dget String.eqb axes a = Some pts /\
    In t pts /\
    In [(a, 0)] (with_sentinel a pts) /\
    (2 <= List.length (with_sentinel a pts))%nat /\
    _accumulateFactors axes q' deltaLocation limits axisOnly
    = (factor <- _calcOnAxisFactor q' a (with_sentinel a pts) deltaLocation ;;
       Ok (factor, dset String.eqb axes a (with_sentinel a pts))).
Proof.
  intros mc names q' limits deltaLocation Hs Ea Ht.
  assert (Ea' : Loc.isOnAxis (Loc.ofTuple t) = OnAxis a).
  { unfold deltaLocation in Ea. now rewrite LocFacts.isOnAxis_expand in Ea. }
  assert (Hin : In (t, o) (store m)).
  { apply (sort_In (leb_of item_compare)). change (store m) with (store mc).
    rewrite Hs. apply in_app_iff. right. now left. }
  destruct (factors_loop_total names q' (_allLocations mc) axisOnly (keys (store m))
              pre (_axes mc)) as [ds [axes E]].
  { intros t' o' Hin'. apply (store_keys_In (store m) t' o').
    apply (sort_In (leb_of item_compare)). change (store m) with (store mc).
    rewrite Hs. apply in_app_iff. now left. }
  { apply _collectAxisPoints_cover. }
  fold limits in E.
  assert (Eax : axes = axes_loop names pre (_axes mc)).
  { rewrite (factors_loop_eq _ _ _ _ _ (_axes mc)) in E by apply ws_eq_refl.
    bind_inv E. now injection E as _ <-. }
  assert (C : covered axes t a).
  { rewrite Eax. apply covered_axes_loop.
    apply (_collectAxisPoints_cover m); [| exact Ea'].
    now apply (store_keys_In (store m) t o). }
  destruct C as [pts [G Hpts]].
  exists ds, axes, pts.
  assert (L2 : (2 <= List.length (with_sentinel a pts))%nat).
  { apply (two_distinct_length _ t [(a, 0)]).
    - now apply with_sentinel_incl.
    - apply with_sentinel_In.
    - now apply on_axis_not_sentinel. }
  repeat split; try assumption; [apply with_sentinel_In |].
  rewrite _accumulateFactors_eq. unfold delta_factor, axes_after.
  rewrite Ea, Ht, G.
  destruct (List.length (with_sentinel a pts) =? 1)%nat eqn:L1; [| reflexivity].
  apply Nat.eqb_eq in L1. lia.
Qed.

End QueryState.

(** C9 as stated fails for [makeInstance]: on the two-axis system the
    caller's location [pop=1] comes back without the axis [snap]. *)
Lemma makeInstance_keeps_location :
  match makeInstance (built twoAxesOffAxis) [("pop", 1)] with
  | Ok (_, q1, _) =>
      q1 = [("pop", 1)] /\ Loc.has q1 "snap" = false /\
      In "snap" (getAxisNames (built twoAxesOffAxis))
  | Raise _ => False
  end.
Proof. vm_compute. repeat split. right. now left. Qed.

(** The argument of [getInstance] on the same system does get the axis. *)
Example getInstance_expands_location :
  match getInstance (built twoAxesOffAxis) [("pop", 1)] false with
  | Ok (_, q1, _) => q1 = [("pop", 1); ("snap", 0)]
  | Raise _ => False
  end.
Proof. vm_compute. reflexivity. Qed.

(** C10 at the single-axis system of the doctests: the delta [pop=1] is
    reached after the delta at the origin. *)
Lemma single_entry_branch_unreachable_witness :
  let m := built (singleAxis "pop" 0 (qz 100)) in
  let mc := _collectAxisPoints m in
  let names := getAxisNames mc in
  let q' := Loc.expand [("pop", qz 2)] names in
  let limits := getLimits (_allLocations mc) q' in
  let deltaLocation := Loc.expand (Loc.ofTuple [("pop", 1)]) names in
  exists ds axes pts,
    factors_loop names q' limits false [([], (0 - 0, Some "origin"))] (_axes mc)
    = Ok (ds, axes) /\
    dget String.eqb axes "pop" = Some pts /\
    In [("pop", 1)] pts /\
    In [("pop", 0)] (with_sentinel "pop" pts) /\
    (2 <= List.length (with_sentinel "pop" pts))%nat /\
    _accumulateFactors axes q' deltaLocation limits false
    = (factor <- _calcOnAxisFactor q' "pop" (with_sentinel "pop" pts) deltaLocation ;;
       Ok (factor, dset String.eqb axes "pop" (with_sentinel "pop" pts))).
Proof.
  apply (single_entry_branch_unreachable (built (singleAxis "pop" 0 (qz 100)))
           [("pop", qz 2)] false [([], (0 - 0, Some "origin"))] []
           [("pop", 1)] (qz 100 - 0, Some "test") "pop").
  - vm_compute. reflexivity.
  - vm_compute. reflexivity.
  - reflexivity.
Defined.

(* ----------------------------------------------------------------- *)
(** ** Numbers as objects *)

Lemma Qccompare_trans (c : comparison) (x y z : Qc) :
  (x ?= y) = c -> (y ?= z) = c -> (x ?= z) = c.
Proof.
  destruct c; intros E1 E2.
  - apply Qceq_alt in E1, E2. apply Qceq_alt. congruence.
  - apply Qclt_alt in E1, E2. apply Qclt_alt. eapply Qclt_trans; eassumption.
  - apply Qcgt_alt in E1, E2. apply Qcgt_alt.
    change (z < x). change (y < x) in E1. change (z < y) in E2.
    eapply Qclt_trans; eassumption.
Qed.

#[export] Instance Qc_MathObjectLaws : MathObjectLaws Qc.
Proof.
  constructor; simpl; intros.
  - apply Qcplus_comm.
  - apply Qcplus_assoc.
  - ring.
  - ring.
  - ring.
  - ring.
  - ring.
  - ring.
  - now apply Qceq_alt.
  - unfold Qccompare. symmetry. apply Qcompare_antisym.
  - eapply Qccompare_trans; eassumption.
Qed.

(* ----------------------------------------------------------------- *)
(** ** One master on one axis *)

Ltac eval_bool c :=
  let v := eval vm_compute in c in
  match v with
  | true => change c with true
  | false => change c with false
  end.

(** Evaluate the comparisons between closed numbers. *)
Ltac qc_eval :=
  repeat match goal with
  | |- context [Qcltb ?a ?b] => eval_bool (Qcltb a b)
  | |- context [Qceqb ?a ?b] => eval_bool (Qceqb a b)
  | |- context [Qcleb ?a ?b] => eval_bool (Qcleb a b)
  end.

Ltac qc_simpl :=
  repeat (progress
            (cbn -[Qcplus Qcminus Qcmult Qcdiv Qcopp Qcltb Qceqb Qcleb pydiv];
             qc_eval)).

Lemma axis_values_two (k : string) : axis_values k [[(k, 1)]; [(k, 0)]] = [0; 1].
Proof.
  unfold axis_values. cbn [fold_left].
  change (Loc.ofTuple [(k, 1)]) with (Loc.set [] k 1).
  change (Loc.ofTuple [(k, 0)]) with (Loc.set [] k 0).
  rewrite !LocFacts.get_set, !String.eqb_refl.
  reflexivity.
Qed.

Lemma div_unit (t : Qc) : (t - 0) / (1 - 0) = t.
Proof. field. qc_lra. Qed.

(** Between the sentinel at 0 and the master at 1 the factor is the
    coordinate of the query, on either side and in between. *)
Lemma _calcOnAxisFactor_two_points (k : string) (t : Qc) :
  k <> "origin" ->
  _calcOnAxisFactor [(k, t)] k [[(k, 1)]; [(k, 0)]] [(k, 1)] = Ok t.
Proof.
  intros Hk. unfold _calcOnAxisFactor.
  apply String.eqb_neq in Hk. rewrite Hk.
  rewrite axis_values_two.
  cbn [Loc.get]. rewrite !String.eqb_refl.
  cbn [filter].
  destruct (Qcltb_spec 0 t) as [L0 | L0]; destruct (Qcltb_spec t 0) as [G0 | G0];
    try (exfalso; qc_lra);
    destruct (Qcltb_spec 1 t) as [L1 | L1]; destruct (Qcltb_spec t 1) as [G1 | G1];
    try (exfalso; qc_lra).
  all: try (assert (t = 0) by qc_lra; subst t; reflexivity).
  all: try (assert (t = 1) by qc_lra; subst t; reflexivity).
  all: qc_simpl.
  all: rewrite pydiv_Ok by qc_lra; f_equal; apply div_unit.
Qed.

Section SingleAxis.
Context {T : Type} `{MathObject T}.

Lemma sort_two (a b : Delta T) :
  rev (sort (leb_of delta_compare) [a; b])
  = if leb_of delta_compare a b then [b; a] else [a; b].
Proof. simpl. destruct (leb_of delta_compare a b); reflexivity. Qed.

Lemma singleAxis_factors (k : string) (N V : T) (t : Qc) (limits : Limits) :
  k <> "" -> k <> "origin" ->
  pure_factors [(k, [[(k, 1)]])] [k] [(k, t)] limits false
    [([], (osub N N, Some "origin")); ([(k, 1)], (osub V N, Some "test"))]
  = Ok ((1, osub N N, Some "origin")
          :: if nonzero_factor t then [(t, osub V N, Some "test")] else []).
Proof.
  intros Hk Ho. cbn [pure_factors].
  rewrite delta_factor_origin
    by (rewrite LocFacts.isOnAxis_expand; reflexivity).
  assert (Ek : Loc.expand (Loc.ofTuple [(k, 1)]) [k] = [(k, 1)]).
  { unfold Loc.expand. cbn. now rewrite String.eqb_refl. }
  rewrite Ek. unfold delta_factor.
  change (Loc.isOnAxis [(k, 1)]) with (OnAxis k).
  unfold truthy. apply String.eqb_neq in Hk. rewrite Hk.
  cbn [negb dget]. rewrite String.eqb_refl.
  assert (Es : with_sentinel k [[(k, 1)]] = [[(k, 1)]; [(k, 0)]]).
  { unfold with_sentinel, mem. cbn.
    destruct (coord_eqb_spec (k, 0) (k, 1)) as [E | _]; [discriminate E | reflexivity]. }
  rewrite Es. cbn [List.length Nat.eqb].
  rewrite _calcOnAxisFactor_two_points by assumption.
  cbn [bind]. change (nonzero_factor 1) with true. cbv iota.
  destruct (nonzero_factor t); reflexivity.
Qed.

End SingleAxis.

Section SingleAxisLinear.
Context {T : Type} `{MathObject T} `{!MathObjectLaws T}.

Lemma getFactors_singleAxis (k : string) (N V : T) (t : Qc) :
  k <> "" -> k <> "origin" ->
  exists m',
    getFactors (_collectAxisPoints (built (singleAxis k N V))) [(k, t)] false
    = Ok (rev (sort (leb_of delta_compare)
                 ((1, osub N N, Some "origin")
                    :: if nonzero_factor t then [(t, osub V N, Some "test")] else [])),
          [(k, t)], m') /\
    _neutral m' = Some N.
Proof.
  intros Hk Ho. rewrite getFactors_eq.
  change (getAxisNames (_collectAxisPoints (built (singleAxis k N V)))) with [k].
  assert (Eq : Loc.expand [(k, t)] [k] = [(k, t)]).
  { unfold Loc.expand. cbn. now rewrite String.eqb_refl. }
  cbv zeta. rewrite Eq.
  change (_axes (_collectAxisPoints (built (singleAxis k N V))))
    with [(k, [[(k, 1)]])].
  change (sort (leb_of item_compare)
            (store (_collectAxisPoints (built (singleAxis k N V)))))
    with [([], (osub N N, Some "origin")); ([(k, 1)], (osub V N, Some "test"))].
  rewrite singleAxis_factors by assumption.
  cbn [bind]. eexists. split; reflexivity.
Qed.

(** C1, amended.  On the system with neutral [N] and the single master
    [V] at [k=1] (the axis name [k] any non-empty string but "origin"),
    [makeInstance(Location(k=t))] is [N + t * (V - N)] for [t = 0] and for
    every [t] that is not strictly between -epsilon and epsilon, in exact
    arithmetic; for the other [t] it is [N]. *)
Theorem single_axis_linear (k : string) (N V : T) (t : Qc) :
  k <> "" -> k <> "origin" ->
  exists r m',
    makeInstance (built (singleAxis k N V)) [(k, t)] = Ok (r, [(k, t)], m') /\
    (t = 0 \/ ~ (- _EPSILON < t /\ t < _EPSILON) ->
     r = oadd N (oscale t (osub V N))) /\
    (- _EPSILON < t /\ t < _EPSILON -> r = N).
Proof.
  intros Hk Ho.
  destruct (getFactors_singleAxis k N V t Hk Ho) as [m' [E Hn]].
  unfold makeInstance, getInstance, getInstance_factors.
  change (Loc.sub [(k, t)] (_bias (built (singleAxis k N V)))) with [(k, t)].
  rewrite E. cbn [bind].
  assert (Z1 : oscale 1 (osub N N) = osub N N) by apply oscale_1.
  assert (Z0 : oadd N (oscale 0 (osub V N)) = N).
  { rewrite oscale_0, oadd_comm. apply oadd_zero_l. }
  destruct (nonzero_factor t) eqn:En.
  - rewrite (sort_two (1, osub N N, Some "origin") (t, osub V N, Some "test")).
    assert (R : oadd N (oscale t (osub V N))
                = oadd (oadd (oscale 1 (osub N N)) (oscale t (osub V N))) N).
    { rewrite Z1, oadd_zero_l. apply oadd_comm. }
    assert (R' : oadd N (oscale t (osub V N))
                 = oadd (oadd (oscale t (osub V N)) (oscale 1 (osub N N))) N).
    { rewrite R. f_equal. apply oadd_comm. }
    apply nonzero_factor_spec in En.
    destruct (leb_of delta_compare _ _); cbn; rewrite Hn; eexists; eexists;
      (split; [reflexivity |]); split; intros; try tauto; congruence.
  - assert (Hin : - _EPSILON < t /\ t < _EPSILON).
    { destruct (Qcltb_spec (- _EPSILON) t); destruct (Qcltb_spec t _EPSILON);
        try (split; assumption);
        exfalso; assert (Ht : nonzero_factor t = true)
          by (apply nonzero_factor_spec; tauto); congruence. }
    cbn. rewrite Hn. eexists. eexists. split; [reflexivity |].
    assert (RN : oadd (oscale 1 (osub N N)) N = N).
    { rewrite Z1. apply oadd_zero_l. }
    split.
    + intros [-> | Hout]; [| tauto]. now rewrite RN, Z0.
    + intros _. exact RN.
Qed.

End SingleAxisLinear.

(** C1 as stated fails: with [N = 0], [V = 2^60] and [t = 2^-53] the factor
    of the master is dropped and the instance is 0, while
    [N + t * (V - N)] is 128. *)
Lemma single_axis_small_coordinate :
  match makeInstance (built (singleAxis "pop" 0 (qz (2 ^ 60))))
          [("pop", Q2Qc (1 # 2 ^ 53))] with
  | Ok (r, _, _) =>
      this r = 0%Q /\
      this (0 + Q2Qc (1 # 2 ^ 53) * (qz (2 ^ 60) - 0)) = 128%Q
  | Raise _ => False
  end.
Proof. vm_compute. split; reflexivity. Qed.

(** C1 on the system of the doctests, [N = 0] and [V = 100], at the queries
    1/2, 1, -1 and 2. *)
Lemma single_axis_linear_witness :
  (exists r m',
      makeInstance (built (singleAxis "pop" 0 (qz 100))) [("pop", Q2Qc (1 # 2))]
      = Ok (r, [("pop", Q2Qc (1 # 2))], m') /\ r = qz 50) /\
  (exists r m',
      makeInstance (built (singleAxis "pop" 0 (qz 100))) [("pop", 1)]
      = Ok (r, [("pop", 1)], m') /\ r = qz 100) /\
  (exists r m',
      makeInstance (built (singleAxis "pop" 0 (qz 100))) [("pop", qz (-1))]
      = Ok (r, [("pop", qz (-1))], m') /\ r = qz (-100)) /\
  (exists r m',
      makeInstance (built (singleAxis "pop" 0 (qz 100))) [("pop", qz 2)]
      = Ok (r, [("pop", qz 2)], m') /\ r = qz 200).
Proof.
  repeat split.
  - destruct (single_axis_linear "pop" 0 (qz 100) (Q2Qc (1 # 2)))
      as [r [m' [E [Hr _]]]]; try discriminate.
    exists r, m'. split; [exact E |]. rewrite Hr.
    + apply Qc_is_canon. reflexivity.
    + right. intros [_ L]. vm_compute in L. discriminate.
  - destruct (single_axis_linear "pop" 0 (qz 100) 1)
      as [r [m' [E [Hr _]]]]; try discriminate.
    exists r, m'. split; [exact E |]. rewrite Hr.
    + apply Qc_is_canon. reflexivity.
    + right. intros [_ L]. vm_compute in L. discriminate.
  - destruct (single_axis_linear "pop" 0 (qz 100) (qz (-1)))
      as [r [m' [E [Hr _]]]]; try discriminate.
    exists r, m'. split; [exact E |]. rewrite Hr.
    + apply Qc_is_canon. reflexivity.
    + right. intros [L _]. vm_compute in L. discriminate.
  - destruct (single_axis_linear "pop" 0 (qz 100) (qz 2))
      as [r [m' [E [Hr _]]]]; try discriminate.
    exists r, m'. split; [exact E |]. rewrite Hr.
    + apply Qc_is_canon. reflexivity.
    + right. intros [_ L]. vm_compute in L. discriminate.
Defined.

(* ----------------------------------------------------------------- *)
(** ** [buildMutator] *)

Section Builder.
Context {T : Type} `{MathObject T}.
Variable biasFromLocations : list Location -> bool -> Location.

Lemma addDelta_total (m : Mutator T) (location : Location) (obj : T)
  (name : option string) (punch axisOnly : bool) (n : T) :
  _neutral m = Some n ->
  exists location' m',
    addDelta m location obj name punch axisOnly = Ok (location', m') /\
    _neutral m' = Some n /\ _bias m' = _bias m.
Proof.
  intros Hn. unfold addDelta. destruct punch.
  - unfold getInstance.
    destruct (getInstance_factors_total m location axisOnly n Hn)
      as [total [fs [m' [E [Hn' [_ Hb]]]]]].
    rewrite E. simpl. eauto.
  - simpl. eauto.
Qed.

Lemma addDeltas_total (punch : bool) (ds : list (Location * T)) :
  forall (m : Mutator T) (n : T),
    _neutral m = Some n ->
    exists m', addDeltas m punch ds = Ok m' /\
               _neutral m' = Some n /\ _bias m' = _bias m.
Proof.
  induction ds as [| [loc obj] rest IH]; intros m n Hn; simpl; [eauto |].
  destruct (addDelta_total m loc obj None punch true n Hn) as [l' [m1 [E [Hn1 Hb1]]]].
  rewrite E. simpl.
  destruct (IH m1 n Hn1) as [m2 [E2 [Hn2 Hb2]]].
  exists m2. repeat split; congruence.
Qed.

Lemma find_neutral_spec (m : Mutator T) (bias : Location) (items : list (Location * T)) :
  _neutral m = None ->
  if existsb (fun it => Loc.isOrigin (Loc.sub (fst it) bias)) items
  then exists m' n, find_neutral m bias items = Ok m' /\ _neutral m' = Some n
  else find_neutral m bias items = Ok m.
Proof.
  intros Hn. induction items as [| [loc obj] rest IH]; simpl; [reflexivity |].
  destruct (Loc.isOrigin (Loc.sub loc bias)); simpl; [| exact IH].
  unfold setNeutral. simpl. eexists. eexists. split; reflexivity.
Qed.

(** C7, amended.  [buildMutator] raises its one error, the [MutatorError]
    "Did not find a neutral for this system", exactly when no item [loc] has
    [(loc - bias).isOrigin()], the empty sequence included; otherwise it
    returns [(bias, mutator)]. *)
Theorem buildMutator_neutral (items : list (Location * T)) :
  let bias :=
    biasFromLocations (map fst (sort (leb_of build_item_compare) items)) true in
  if existsb (fun it => Loc.isOrigin (Loc.sub (fst it) bias)) items
  then exists m, buildMutator biasFromLocations items = Ok (bias, m)
  else buildMutator biasFromLocations items
       = Raise (MutatorError "Did not find a neutral for this system").
Proof.
  intros bias. unfold buildMutator. fold bias.
  set (sorted := sort (leb_of build_item_compare) items).
  set (p := fun it : Location * T => Loc.isOrigin (Loc.sub (fst it) bias)).
  assert (Ex : existsb p items = existsb p sorted).
  { apply eq_true_iff_eq. rewrite !existsb_exists.
    split; intros [x [Hx Px]]; exists x; (split; [| exact Px]);
      [now apply sort_In | now apply sort_In in Hx]. }
  rewrite Ex.
  pose proof (find_neutral_spec (setBias (newMutator None) bias) bias sorted eq_refl)
    as F. fold p in F.
  destruct (existsb p sorted).
  - destruct F as [m1 [n [-> Hn]]]. simpl. unfold getNeutral. rewrite Hn.
    destruct (split_items bias n sorted) as [onx ofx].
    destruct (addDeltas_total false onx m1 n Hn) as [m2 [-> [Hn2 _]]]. simpl.
    destruct (addDeltas_total true ofx m2 n Hn2) as [m3 [-> _]]. simpl.
    eauto.
  - rewrite F. reflexivity.
Qed.

End Builder.

(** C7 as stated fails on the empty sequence: there is no separate error for
    it, [buildMutator] raises the error of a missing neutral, the same as
    on a sequence with no item at the bias. *)
Lemma buildMutator_empty_input :
  buildMutator (T := Qc) (fun _ _ => []) []
  = Raise (MutatorError "Did not find a neutral for this system") /\
  buildMutator (T := Qc) (fun _ _ => []) [([("pop", 1)], qz 1)]
  = Raise (MutatorError "Did not find a neutral for this system").
Proof. split; reflexivity. Qed.

(* ----------------------------------------------------------------- *)
(** ** The orders used by [list.sort] *)

Lemma cmp_refl {A : Type} (cmp : A -> A -> comparison) (O : Order cmp) (x : A) :
  cmp x x = Eq.
Proof.
  pose proof (cmp_antisym cmp O x x) as E.
  destruct (cmp x x); simpl in E; congruence.
Qed.

Lemma ascii_compare_trans (c : comparison) (x y z : Ascii.ascii) :
  Ascii.compare x y = c -> Ascii.compare y z = c -> Ascii.compare x z = c.
Proof.
  unfold Ascii.compare. destruct c; intros E1 E2.
  - apply N.compare_eq_iff in E1, E2. apply N.compare_eq_iff. congruence.
  - apply N.compare_lt_iff in E1, E2. apply N.compare_lt_iff.
    eapply N.lt_trans; eassumption.
  - apply N.compare_gt_iff in E1, E2. apply N.compare_gt_iff.
    eapply N.lt_trans; eassumption.
Qed.

Lemma string_compare_trans (c : comparison) (x y z : string) :
  String.compare x y = c -> String.compare y z = c -> String.compare x z = c.
Proof.
  revert y z. induction x as [| a x IH]; intros [| b y] [| d z]; simpl;
    try congruence.
  destruct (Ascii.compare a b) eqn:Eab; destruct (Ascii.compare b d) eqn:Ebd;
    intros E1 E2.
  - rewrite (ascii_compare_trans Eq a b d Eab Ebd). now apply (IH y z).
  - apply Ascii.compare_eq_iff in Eab. subst. rewrite Ebd. congruence.
  - apply Ascii.compare_eq_iff in Eab. subst. rewrite Ebd. congruence.
  - apply Ascii.compare_eq_iff in Ebd. subst. rewrite Eab. congruence.
  - now rewrite (ascii_compare_trans Lt a b d Eab Ebd).
  - congruence.
  - apply Ascii.compare_eq_iff in Ebd. subst. rewrite Eab. congruence.
  - congruence.
  - now rewrite (ascii_compare_trans Gt a b d Eab Ebd).
Qed.

Lemma string_Order : Order String.compare.
Proof.
  constructor.
  - apply String.compare_eq_iff.
  - intros x y. apply String.compare_antisym.
  - apply string_compare_trans.
Qed.

Lemma Qc_Order : Order Qccompare.
Proof.
  constructor.
  - intros x y. apply Qceq_alt.
  - intros x y. unfold Qccompare. symmetry. apply Qcompare_antisym.
  - apply Qccompare_trans.
Qed.

Lemma pair_Order {A B : Type} (ca : A -> A -> comparison) (cb : B -> B -> comparison) :
  Order ca -> Order cb -> Order (pair_compare ca cb).
Proof.
  intros Oa Ob. constructor; unfold pair_compare.
  - intros [a b] [a' b']; simpl. destruct (ca a a') eqn:E; try discriminate.
    intros E'. apply (cmp_eq ca Oa) in E. apply (cmp_eq cb Ob) in E'. congruence.
  - intros [a b] [a' b']; simpl. rewrite (cmp_antisym ca Oa a a').
    destruct (ca a a'); simpl; [apply (cmp_antisym cb Ob) | reflexivity | reflexivity].
  - intros c [a b] [a' b'] [a'' b'']; simpl.
    destruct (ca a a') eqn:E1; destruct (ca a' a'') eqn:E2; intros H1 H2.
    + rewrite (cmp_trans ca Oa Eq a a' a'' E1 E2).
      eapply (cmp_trans cb Ob); eassumption.
    + apply (cmp_eq ca Oa) in E1. subst. rewrite E2. congruence.
    + apply (cmp_eq ca Oa) in E1. subst. rewrite E2. congruence.
    + apply (cmp_eq ca Oa) in E2. subst. rewrite E1. congruence.
    + now rewrite (cmp_trans ca Oa Lt a a' a'' E1 E2).
    + congruence.
    + apply (cmp_eq ca Oa) in E2. subst. rewrite E1. congruence.
    + congruence.
    + now rewrite (cmp_trans ca Oa Gt a a' a'' E1 E2).
Qed.

Lemma list_Order {A : Type} (cmp : A -> A -> comparison) :
  Order cmp -> Order (list_compare cmp).
Proof.
  intros O. constructor.
  - induction x as [| a x IH]; intros [| b y]; simpl; try discriminate; [reflexivity |].
    destruct (cmp a b) eqn:E; try discriminate.
    intros E'. apply (cmp_eq cmp O) in E. apply IH in E'. congruence.
  - induction x as [| a x IH]; intros [| b y]; simpl; try reflexivity.
    rewrite (cmp_antisym cmp O a b).
    destruct (cmp a b); simpl; [apply IH | reflexivity | reflexivity].
  - intros c x. induction x as [| a x IH]; intros [| b y] [| d z]; simpl;
      try congruence.
    destruct (cmp a b) eqn:E1; destruct (cmp b d) eqn:E2; intros H1 H2.
    + rewrite (cmp_trans cmp O Eq a b d E1 E2). now apply (IH y z).
    + apply (cmp_eq cmp O) in E1. subst. rewrite E2. congruence.
    + apply (cmp_eq cmp O) in E1. subst. rewrite E2. congruence.
    + apply (cmp_eq cmp O) in E2. subst. rewrite E1. congruence.
    + now rewrite (cmp_trans cmp O Lt a b d E1 E2).
    + congruence.
    + apply (cmp_eq cmp O) in E2. subst. rewrite E1. congruence.
    + congruence.
    + now rewrite (cmp_trans cmp O Gt a b d E1 E2).
Qed.

Lemma tuple_Order : Order tuple_compare.
Proof. apply list_Order, pair_Order; [apply string_Order | apply Qc_Order]. Qed.

(** *** Sorting a permutation gives the same list *)

Section SortUnique.
Context {A : Type} (cmp : A -> A -> comparison) (O : Order cmp).

Local Abbreviation le := (le_of cmp).

Lemma le_trans (x y z : A) : le x y -> le y z -> le x z.
Proof.
  unfold le, leb_of. destruct (cmp x y) eqn:E1; destruct (cmp y z) eqn:E2;
    try discriminate; intros _ _.
  - now rewrite (cmp_trans cmp O Eq x y z E1 E2).
  - apply (cmp_eq cmp O) in E1. subst. now rewrite E2.
  - apply (cmp_eq cmp O) in E2. subst. now rewrite E1.
  - now rewrite (cmp_trans cmp O Lt x y z E1 E2).
Qed.

Lemma le_total (x y : A) : leb_of cmp x y = false -> le y x.
Proof.
  unfold le, leb_of. rewrite (cmp_antisym cmp O x y).
  destruct (cmp x y); simpl; congruence.
Qed.

Lemma le_antisym (x y : A) : le x y -> le y x -> x = y.
Proof.
  unfold le, leb_of. rewrite (cmp_antisym cmp O x y).
  destruct (cmp x y) eqn:E; simpl; try discriminate.
  intros _ _. now apply (cmp_eq cmp O).
Qed.

Lemma sorted_perm_eq (l l' : list A) :
  StronglySorted le l -> StronglySorted le l' -> Permutation l l' -> l = l'.
Proof.
  revert l'. induction l as [| x r IH]; intros l' S S' P.
  - apply Permutation_nil in P. now subst.
  - destruct l' as [| y r']; [apply Permutation_sym, Permutation_nil in P; discriminate |].
    inversion S as [| ? ? Sr Hx]; subst. inversion S' as [| ? ? Sr' Hy]; subst.
    assert (E : x = y).
    { assert (Hxin : In x (y :: r')) by (eapply Permutation_in; [exact P | now left]).
      assert (Hyin : In y (x :: r))
        by (eapply Permutation_in; [symmetry; exact P | now left]).
      destruct Hxin as [-> | Hxin]; [reflexivity |].
      destruct Hyin as [-> | Hyin]; [reflexivity |].
      apply le_antisym.
      - rewrite Forall_forall in Hx. now apply Hx.
      - rewrite Forall_forall in Hy. now apply Hy. }
    subst. f_equal. apply IH; try assumption.
    eapply Permutation_cons_inv. exact P.
Qed.

Lemma sort_permutation (l l' : list A) :
  Permutation l l' -> sort (leb_of cmp) l = sort (leb_of cmp) l'.
Proof.
  intros P. apply sorted_perm_eq.
  - apply sort_sorted; [apply le_trans | auto | apply le_total].
  - apply sort_sorted; [apply le_trans | auto | apply le_total].
  - rewrite <- (sort_perm (leb_of cmp) l), <- (sort_perm (leb_of cmp) l'). exact P.
Qed.

End SortUnique.

(* ----------------------------------------------------------------- *)
(** ** A second query finds the mutator as the first one left it *)

Section Repeat.
Context {T : Type} `{MathObject T}.

Lemma collect_point_fixed (axes : Axes) (l : LocTuple) :
  (forall a, Loc.isOnAxis (Loc.ofTuple l) = OnAxis a -> covered axes l a) ->
  collect_point axes l = axes.
Proof.
  intros C. unfold collect_point.
  destruct (Loc.isOnAxis (Loc.ofTuple l)) as [| a |]; try reflexivity.
  destruct (C a eq_refl) as [pts [G Hin]]. rewrite G.
  apply (mem_In tuple_eqb tuple_eqb_spec) in Hin. rewrite Hin.
  now apply (dset_same String.eqb String.eqb_spec).
Qed.

Lemma fold_collect_fixed (ks : list LocTuple) (axes : Axes) :
  axes_cover ks axes -> fold_left collect_point ks axes = axes.
Proof.
  induction ks as [| l ks IH]; intros C; simpl; [reflexivity |].
  rewrite collect_point_fixed.
  - apply IH. intros t a Hin. apply C. now right.
  - intros a. apply C. now left.
Qed.

Lemma axes_after_fixed (axes : Axes) (dl : Location) :
  (forall a, Loc.isOnAxis dl = OnAxis a -> truthy a = true ->
             covered axes [(a, 0)] a) ->
  axes_after axes dl = axes.
Proof.
  intros C. unfold axes_after.
  destruct (Loc.isOnAxis dl) as [| a |]; try reflexivity.
  destruct (truthy a) eqn:Ht; [| reflexivity].
  destruct (C a eq_refl Ht) as [pts [G Hin]]. rewrite G.
  apply (dset_same String.eqb String.eqb_spec). rewrite G. f_equal.
  unfold with_sentinel.
  apply (mem_In tuple_eqb tuple_eqb_spec) in Hin. now rewrite Hin.
Qed.

Lemma axes_loop_fixed (names : list string) (items : Store T) (axes : Axes) :
  sentinels_in names items axes -> axes_loop names items axes = axes.
Proof.
  unfold axes_loop. induction items as [| item rest IH]; intros S; simpl;
    [reflexivity |].
  rewrite axes_after_fixed.
  - apply IH. intros it a Hin. apply S. now right.
  - intros a. apply S. now left.
Qed.

Lemma axes_after_sentinel (axes : Axes) (dl : Location) (t : LocTuple) (a : string) :
  Loc.isOnAxis dl = OnAxis a -> truthy a = true -> covered axes t a ->
  covered (axes_after axes dl) [(a, 0)] a.
Proof.
  intros E Ht [pts [G _]]. unfold axes_after. rewrite E, Ht, G.
  exists (with_sentinel a pts). split.
  - apply (dget_dset_eq String.eqb String.eqb_spec).
  - apply with_sentinel_In.
Qed.

Lemma axes_loop_sentinels (names : list string) (ks : list LocTuple)
  (items : Store T) :
  forall axes,
    (forall item, In item items -> In (fst item) ks) ->
    axes_cover ks axes ->
    sentinels_in names items (axes_loop names items axes) /\
    axes_cover ks (axes_loop names items axes).
Proof.
  unfold axes_loop. induction items as [| item rest IH]; intros axes Hks C; simpl.
  - split; [intros it a [] | assumption].
  - set (dl := Loc.expand (Loc.ofTuple (fst item)) names).
    assert (C1 : axes_cover ks (axes_after axes dl)).
    { intros t a Hin E. apply covered_axes_after. now apply C. }
    destruct (IH (axes_after axes dl)) as [S1 C2];
      [intros it Hin; apply Hks; now right | assumption |].
    split; [| assumption].
    intros it a [<- | Hin] E Ht; [| now apply (S1 it a)].
    apply (covered_axes_loop names rest). fold dl in E.
    apply (axes_after_sentinel axes dl (fst item) a E Ht).
    apply C; [apply Hks; now left |].
    unfold dl in E. now rewrite LocFacts.isOnAxis_expand in E.
Qed.

Lemma pure_factors_ws (axes axes' : Axes) (names : list string) (q : Location)
  (limits : Limits) (axisOnly : bool) (items : Store T) :
  ws_eq axes axes' ->
  pure_factors axes names q limits axisOnly items
  = pure_factors axes' names q limits axisOnly items.
Proof.
  intros E. induction items as [| [t [o n]] rest IH]; simpl; [reflexivity |].
  now rewrite (delta_factor_ws axes axes' _ _ _ _ E), IH.
Qed.

Lemma getFactors_again (m : Mutator T) (q : Location) (axisOnly : bool)
  (fs : list (Delta T)) (q1 : Location) (m1 : Mutator T) :
  getFactors (_collectAxisPoints m) q axisOnly = Ok (fs, q1, m1) ->
  _collectAxisPoints m1 = m1 /\
  getFactors m1 q axisOnly = Ok (fs, q1, m1) /\
  getFactors m1 q1 axisOnly = Ok (fs, q1, m1).
Proof.
  intros E. rewrite getFactors_eq in E. cbv zeta in E. bind_inv E.
  injection E as <- <- <-.
  set (mc := _collectAxisPoints m) in *.
  set (names := getAxisNames mc) in *.
  set (items := sort (leb_of item_compare) (store mc)) in *.
  set (axes_f := axes_loop names items (_axes mc)).
  destruct (axes_loop_sentinels names (keys (store m)) items (_axes mc))
    as [S C].
  { intros [t o] Hin. apply sort_In in Hin. now apply (store_keys_In (store m) t o). }
  { apply _collectAxisPoints_cover. }
  fold axes_f in S, C.
  assert (Ec : _collectAxisPoints (set_axes mc axes_f) = set_axes mc axes_f).
  { unfold _collectAxisPoints. simpl. unfold set_axes. simpl. f_equal.
    now apply fold_collect_fixed. }
  assert (G : forall q0, Loc.expand q0 names = Loc.expand q names ->
              getFactors (set_axes mc axes_f) q0 axisOnly
              = Ok (rev (sort (leb_of delta_compare) a), Loc.expand q names,
                    set_axes mc axes_f)).
  { intros q0 Eq0. rewrite getFactors_eq. cbv zeta.
    change (getAxisNames (set_axes mc axes_f)) with names.
    change (store (set_axes mc axes_f)) with (store mc). fold items.
    change (_axes (set_axes mc axes_f)) with axes_f.
    change (_allLocations (set_axes mc axes_f)) with (_allLocations mc).
    rewrite Eq0.
    rewrite (pure_factors_ws axes_f (_axes mc)) by (apply ws_eq_sym, axes_loop_ws).
    rewrite Ha. simpl. rewrite axes_loop_fixed by exact S. reflexivity. }
  split; [exact Ec |]. split; apply G; [reflexivity | apply LocFacts.expand_idem].
Qed.

Lemma getInstance_again (m : Mutator T) (q : Location) (axisOnly : bool)
  (r : T) (q1 : Location) (m1 : Mutator T) :
  getInstance m q axisOnly = Ok (r, q1, m1) ->
  getInstance m1 q axisOnly = Ok (r, q1, m1) /\
  getInstance m1 q1 axisOnly = Ok (r, q1, m1).
Proof.
  unfold getInstance, getInstance_factors. intros E.
  bind_inv E. destruct a as [[[total fs] q'] m']. simpl in E.
  injection E as <- <- <-.
  bind_inv Ha. destruct a as [[fs' q''] m'']. simpl in Ha.
  destruct (getFactors_again m q axisOnly fs' q'' m'' Ha0) as [Ec [E1 E2]].
  destruct (weighted_sum fs') as [w |] eqn:W.
  - inversion Ha; subst. rewrite Ec, E1, E2. simpl. rewrite W. auto.
  - destruct (_neutral m'') as [n |] eqn:N; [| discriminate].
    inversion Ha; subst. rewrite Ec, E1, E2. simpl. rewrite W, N. auto.
Qed.

End Repeat.

Section Determinism.
Context {T : Type} `{MathObject T} `{!MathObjectLaws T}.
Variable biasFromLocations : list Location -> bool -> Location.

Lemma object_Order : Order ocompare.
Proof.
  constructor; [apply ocompare_eq | apply ocompare_antisym | apply ocompare_trans].
Qed.

Lemma build_item_Order : Order build_item_compare.
Proof. apply pair_Order; [apply tuple_Order | apply object_Order]. Qed.

Lemma getInstance_state (m : Mutator T) (q : Location) (axisOnly : bool)
  (r : T) (q1 : Location) (m1 : Mutator T) :
  getInstance m q axisOnly = Ok (r, q1, m1) ->
  store m1 = store m /\ _neutral m1 = _neutral m /\ _bias m1 = _bias m.
Proof.
  unfold getInstance, getInstance_factors. intros E.
  bind_inv E. destruct a as [[[total fs] q'] m']. simpl in E.
  injection E as <- <- <-.
  bind_inv Ha. destruct a as [[fs' q''] m'']. simpl in Ha.
  rewrite getFactors_eq in Ha0. cbv zeta in Ha0. bind_inv Ha0.
  injection Ha0 as <- <- <-.
  destruct (weighted_sum _); [| destruct (_neutral _) eqn:N; [| discriminate]];
    inversion Ha; subst; simpl in *; auto.
Qed.

(** C8.  [buildMutator] gives the same result on every reordering of its
    items, so the two mutators agree at every query; and a query repeated on
    one mutator returns what it returned the first time and leaves the
    mutator as the first query left it. *)
Theorem buildMutator_deterministic (items items' : list (Location * T)) :
  Permutation items items' ->
  buildMutator biasFromLocations items' = buildMutator biasFromLocations items /\
  (forall q, built_instance (buildMutator biasFromLocations items') q
             = built_instance (buildMutator biasFromLocations items) q) /\
  (forall m q axisOnly r q1 m1,
      getInstance m q axisOnly = Ok (r, q1, m1) ->
      getInstance m1 q axisOnly = Ok (r, q1, m1)) /\
  (forall m q r q1 m1,
      makeInstance m q = Ok (r, q1, m1) ->
      makeInstance m1 q = Ok (r, q1, m1)).
Proof.
  intros P.
  assert (E : buildMutator biasFromLocations items'
              = buildMutator biasFromLocations items).
  { unfold buildMutator.
    now rewrite (sort_permutation build_item_compare build_item_Order items items' P). }
  split; [exact E |]. split; [intros q; now rewrite E |]. split.
  - intros m q axisOnly r q1 m1 G. now apply (getInstance_again m q axisOnly r q1 m1).
  - intros m q r q1 m1. unfold makeInstance. intros G.
    bind_inv G. destruct a as [[io q'] m']. simpl in G.
    destruct (_neutral m') as [n |] eqn:N; [| discriminate].
    injection G as <- <- <-.
    destruct (getInstance_state _ _ _ _ _ _ Ha) as [_ [_ Hb]].
    destruct (getInstance_again _ _ _ _ _ _ Ha) as [G1 _].
    rewrite Hb, G1. simpl. now rewrite N.
Qed.

End Determinism.

(** C8 on the items of [test_builder] and the same items in reverse. *)
Lemma buildMutator_deterministic_witness :
  buildMutator test_builder_bias (rev test_builder_items)
  = buildMutator test_builder_bias test_builder_items /\
  (forall q, built_instance (buildMutator test_builder_bias (rev test_builder_items)) q
             = built_instance (buildMutator test_builder_bias test_builder_items) q) /\
  (forall (m : Mutator Qc) q axisOnly r q1 m1,
      getInstance m q axisOnly = Ok (r, q1, m1) ->
      getInstance m1 q axisOnly = Ok (r, q1, m1)) /\
  (forall (m : Mutator Qc) q r q1 m1,
      makeInstance m q = Ok (r, q1, m1) ->
      makeInstance m1 q = Ok (r, q1, m1)).
Proof.
  apply (buildMutator_deterministic test_builder_bias
           test_builder_items (rev test_builder_items)).
  apply Permutation_rev.
Defined.

(** The instances of [test_builder]: 1, 4, 6 and 4.5. *)
Example test_builder_instances :
  map (fun q => match built_instance
                        (buildMutator test_builder_bias test_builder_items) q with
                | Ok r => Some (this r)
                | Raise _ => None
                end)
      [ [("pop", qz 1); ("snap", qz 1)]; [("pop", qz 1); ("snap", qz 2)];
        [("pop", qz 3); ("snap", qz 2)]; [("pop", qz 3); ("snap", Q2Qc (3 # 2))] ]
  = [Some 1%Q; Some 4%Q; Some 6%Q; Some (9 # 2)%Q].
Proof. vm_compute. reflexivity. Qed.

(* ----------------------------------------------------------------- *)
(** ** The limits of a query at the origin *)

Lemma isOrigin_get (q : Location) (k : string) : Loc.isOrigin q = true -> Loc.get q k = 0.
Proof.
  unfold Loc.isOrigin. induction q as [| [k' v] r IH]; simpl; [reflexivity |].
  intros E. apply andb_true_iff in E as [Ev Er].
  destruct (String.eqb k k'); [| auto].
  destruct (Qceqb_spec v 0); [assumption | discriminate].
Qed.

Lemma keys_limit_step (current l a : Location) (limit : list (string * Buckets))
  (nv : string * Qc) (k : string) :
  In k (keys (limit_step current l a limit nv)) <-> k = fst nv \/ In k (keys limit).
Proof.
  unfold limit_step. rewrite (keys_dset String.eqb String.eqb_spec).
  destruct (has_key String.eqb limit (fst nv)) eqn:E.
  - apply (has_key_In String.eqb String.eqb_spec) in E.
    split; [auto | intros [-> | Hin]; assumption].
  - rewrite in_app_iff. simpl. intuition.
Qed.

Lemma keys_fold_limit_step (current l a : Location) (b : Location) :
  forall (limit : list (string * Buckets)) (k : string),
    In k (keys (fold_left (limit_step current l a) b limit))
    <-> In k (keys b) \/ In k (keys limit).
Proof.
  induction b as [| nv b IH]; intros limit k; simpl; [tauto |].
  rewrite IH, keys_limit_step. intuition.
Qed.

Lemma getLimits_raw_key (locations : list Location) (current l a b : Location)
  (k : string) :
  In l locations -> Loc.common current l = Some (a, b) -> In k (keys b) ->
  In k (keys (getLimits_raw locations current)).
Proof.
  intros Hl C Hk. unfold getLimits_raw.
  set (step := fun limit l => match Loc.common current l with
                              | None => limit
                              | Some (a, b) => fold_left (limit_step current l a) b limit
                              end).
  assert (Mono : forall ls limit, In k (keys limit) ->
                                  In k (keys (fold_left step ls limit))).
  { induction ls as [| l' ls IH]; intros limit Hin; simpl; [assumption |].
    apply IH. unfold step. destruct (Loc.common current l') as [[a' b'] |];
      [| assumption].
    apply keys_fold_limit_step. now right. }
  generalize (@nil (string * Buckets)) as limit.
  induction locations as [| l' ls IH]; intros limit; simpl; [destruct Hl |].
  destruct Hl as [-> | Hl]; [| now apply IH].
  apply Mono. unfold step. rewrite C. apply keys_fold_limit_step. now left.
Qed.

Lemma bucket_add_nonempty (b : Bucket) (value : Qc) (l : Location) :
  bucket_add b value l <> [].
Proof.
  unfold bucket_add. intros E.
  pose proof (In_dset_new Qceqb Qceqb_spec b value
                (match dget Qceqb b value with Some ls => ls | None => [] end ++ [l]))
    as Hin.
  rewrite E in Hin. destruct Hin.
Qed.

Lemma limit_step_at (current l a : Location) (limit : list (string * Buckets))
  (nv : string * Qc) :
  Loc.get a (fst nv) = 0 ->
  at_nonempty limit -> at_nonempty (limit_step current l a limit nv).
Proof.
  intros Ea Hw name lims Hin. unfold limit_step in Hin.
  apply In_dset in Hin as [E | Hin]; [| now apply (Hw name)].
  injection E as -> ->.
  assert (W : at_ (match dget String.eqb limit (fst nv) with
                   | Some b => b
                   | None => limit_init (Loc.get a (fst nv))
                   end) <> []).
  { destruct (dget String.eqb limit (fst nv)) as [b |] eqn:G.
    - apply (dget_In String.eqb String.eqb_spec) in G. now apply (Hw (fst nv)).
    - rewrite Ea. discriminate. }
  destruct (Qcltb _ _); [exact W |].
  destruct (Qcltb _ _); [exact W |]. simpl. apply bucket_add_nonempty.
Qed.

Lemma getLimits_raw_at (locations : list Location) (current : Location) :
  (forall k, Loc.get current k = 0) ->
  at_nonempty (getLimits_raw locations current).
Proof.
  intros Hz. unfold getLimits_raw.
  assert (G : forall limit, at_nonempty limit ->
    at_nonempty
      (fold_left
         (fun limit l =>
            match Loc.common current l with
            | None => limit
            | Some (a, b) => fold_left (limit_step current l a) b limit
            end) locations limit)).
  { induction locations as [| l locations IH]; intros limit Hw; simpl; [assumption |].
    apply IH. destruct (Loc.common current l) as [[a b] |] eqn:C; [| assumption].
    assert (Hb : forall nv, In nv b -> Loc.get a (fst nv) = 0).
    { intros [name value] Hnv. simpl. rewrite <- (Hz name).
      eapply common_get; eassumption. }
    clear C. revert limit Hw. induction b as [| nv b IHb]; intros limit Hw; simpl;
      [assumption |].
    apply IHb; [intros nv' Hnv'; apply Hb; now right |].
    apply limit_step_at; [apply Hb; now left | assumption]. }
  apply G. intros name lims [].
Qed.

Lemma sort_limit_at (lims : Buckets) :
  at_ lims <> [] -> exists M, sort_limit lims = Some (None, Some M, None).
Proof.
  intros Hne. unfold sort_limit.
  destruct (at_ lims) as [| [k ls] rest] eqn:E; [congruence |]. simpl.
  destruct (rev (sort Qcleb (keys (above_ lims))));
    destruct (sort Qcleb (keys (below_ lims))); eauto.
Qed.

Lemma getLimits_key (raw : list (string * Buckets)) (k : string) :
  (forall name lims, In (name, lims) raw -> exists t, sort_limit lims = Some t) ->
  In k (keys raw) ->
  forall l : Limits,
    In k (keys (fold_left (fun l nl => match sort_limit (snd nl) with
                                       | Some t => dset String.eqb l (fst nl) t
                                       | None => l
                                       end) raw l)).
Proof.
  intros Hs Hk.
  assert (Mono : forall raw' (l : Limits),
             (forall name lims, In (name, lims) raw' ->
                                exists t, sort_limit lims = Some t) ->
             In k (keys l) ->
             In k (keys (fold_left (fun l nl => match sort_limit (snd nl) with
                                                | Some t => dset String.eqb l (fst nl) t
                                                | None => l
                                                end) raw' l))).
  { induction raw' as [| [n lims] raw' IH]; intros l Hs' Hin; simpl; [assumption |].
    apply IH; [intros name lims' Hin'; apply (Hs' name); now right |].
    destruct (sort_limit lims); [| assumption].
    rewrite (keys_dset String.eqb String.eqb_spec).
    destruct (has_key String.eqb l n); [assumption |].
    apply in_app_iff. now left. }
  induction raw as [| [n lims] raw IH]; intros l; simpl; [destruct Hk |].
  destruct Hk as [E | Hk].
  - simpl in E. subst n.
    destruct (Hs k lims (or_introl eq_refl)) as [t ->].
    apply Mono; [intros name lims' Hin'; apply (Hs name); now right |].
    rewrite (keys_dset String.eqb String.eqb_spec).
    destruct (has_key String.eqb l k) eqn:E.
    + now apply (has_key_In String.eqb String.eqb_spec) in E.
    + apply in_app_iff. right. now left.
  - apply IH; [intros name lims' Hin'; apply (Hs name); now right | assumption].
Qed.

(** At a query with 0 on every axis, every axis on which some location has a
    coordinate away from 0 has the limits [(None, M, None)]. *)
Lemma getLimits_at_origin (locations : list Location) (current l : Location)
  (k : string) :
  (forall k, Loc.get current k = 0) ->
  In l locations -> Loc.has current k = true -> Loc.has l k = true ->
  Loc.near_zero (Loc.get l k) = false ->
  (exists M, In (k, (None, Some M, None)) (getLimits locations current)) /\
  (forall name t, In (name, t) (getLimits locations current) ->
                  exists M, t = (None, Some M, None)).
Proof.
  intros Hz Hl Hc Hlk Hnz.
  pose proof (getLimits_raw_at locations current Hz) as Hat.
  assert (Shape : forall name t, In (name, t) (getLimits locations current) ->
                                 exists M, t = (None, Some M, None)).
  { intros name t Hin. apply getLimits_In in Hin as [lims [Hin E]].
    destruct (sort_limit_at lims (Hat name lims Hin)) as [M EM].
    exists M. congruence. }
  split; [| exact Shape].
  assert (Hk : In k (keys (getLimits locations current))).
  { unfold getLimits. apply getLimits_key.
    - intros name lims Hin. destruct (sort_limit_at lims (Hat name lims Hin)) as [M EM].
      eauto.
    - destruct (Loc.common current l) as [[a b] |] eqn:C.
      + apply (getLimits_raw_key locations current l a b k Hl C).
        apply common_Some in C as [dims [Ed [_ ->]]].
        unfold keys at 1. rewrite map_map. simpl. rewrite map_id. rewrite Ed.
        apply filter_In. split; [now apply LocFacts.has_In |].
        rewrite Hlk, Hnz. now rewrite andb_false_r.
      + exfalso. unfold Loc.common in C.
        destruct (filter _ (keys current)) as [| d dims] eqn:F; [| discriminate].
        assert (Hin : In k (filter
                  (fun k => Loc.has l k &&
                            negb (Loc.near_zero (Loc.get current k) &&
                                  Loc.near_zero (Loc.get l k))) (keys current))).
        { apply filter_In. split; [now apply LocFacts.has_In |].
          rewrite Hlk, Hnz. now rewrite andb_false_r. }
        rewrite F in Hin. destruct Hin. }
  apply in_map_iff in Hk as [[k' t] [Ek Hin]]. simpl in Ek. subst k'.
  destruct (Shape k t Hin) as [M ->]. eauto.
Qed.

(* ----------------------------------------------------------------- *)
(** ** The factors of a query at the origin *)

Lemma has_ofTuple (t : LocTuple) (k : string) :
  Loc.has (Loc.ofTuple t) k = true -> In k (keys t).
Proof.
  unfold Loc.ofTuple.
  assert (G : forall l : Location,
             Loc.has (fold_left (fun l p => Loc.set l (fst p) (snd p)) t l) k = true ->
             Loc.has l k = true \/ In k (keys t)).
  { induction t as [| p t IH]; intros l Hh; simpl in *; [now left |].
    apply IH in Hh as [Hh | Hin]; [| now right; right].
    rewrite LocFacts.has_set in Hh. apply orb_true_iff in Hh as [E | Hh]; [| now left].
    apply String.eqb_eq in E. right. left. congruence. }
  intros Hh. apply G in Hh as [Hh | Hin]; [discriminate | assumption].
Qed.

Lemma names_fold_In (ks : list string) (k : string) :
  forall s : list string,
    In k (fold_left (fun s k => if mem String.eqb k s then s else s ++ [k]) ks s)
    <-> In k s \/ In k ks.
Proof.
  induction ks as [| x ks IH]; intros s; simpl; [tauto |].
  rewrite IH. destruct (mem String.eqb x s) eqn:E.
  - apply (mem_In String.eqb String.eqb_spec) in E.
    split; [intros [Hs | Hk]; auto | intros [Hs | [-> | Hk]]; auto].
  - rewrite in_app_iff. simpl. intuition.
Qed.

Section OriginQuery.
Context {T : Type} `{MathObject T}.

Lemma names_outer_In (ts : list LocTuple) (t : LocTuple) (k : string) :
  forall s : list string,
    In k s \/ (In t ts /\ In k (keys t)) ->
    In k (fold_left
            (fun s l => fold_left (fun s k => if mem String.eqb k s then s else s ++ [k])
                                  (keys l) s) ts s).
Proof.
  induction ts as [| t' ts IH]; intros s Hin; simpl.
  - destruct Hin as [Hs | [[] _]]. exact Hs.
  - apply IH. destruct Hin as [Hs | [[-> | Ht] Hk]].
    + left. apply names_fold_In. now left.
    + left. apply names_fold_In. now right.
    + right. auto.
Qed.

Lemma getAxisNames_In (m : Mutator T) (t : LocTuple) (k : string) :
  In t (keys (store m)) -> In k (keys t) -> In k (getAxisNames m).
Proof.
  intros Ht Hk. unfold getAxisNames. apply (names_outer_In _ t). right. auto.
Qed.

Lemma _calcOnAxisFactor_at_zero (q : Location) (a : string) (pts : list LocTuple)
  (dl : Location) :
  a <> "origin" -> Loc.get q a = 0 -> In [(a, 0)] pts ->
  spaced (Loc.get dl a) = true -> Loc.get dl a <> 0 ->
  _calcOnAxisFactor q a pts dl = Ok 0.
Proof.
  intros Ha Hq Hs Hsp Hv. unfold _calcOnAxisFactor.
  apply String.eqb_neq in Ha. rewrite Ha, Hq.
  set (i := axis_values a pts).
  assert (Hi : In 0 i).
  { apply axis_values_In. exists [(a, 0)]. split; [assumption | apply sentinel_get]. }
  destruct (opt_nonempty list_min
              (filter (fun value => negb (Qcltb value 0) && negb (Qcltb 0 value)) i))
    as [mM |] eqn:EM.
  - unfold spaced in Hsp.
    destruct (Qceqb_spec (Loc.get dl a) 0) as [E | _]; [congruence |].
    destruct (Qceqb_spec 0 (Loc.get dl a)) as [E | _]; [congruence |].
    destruct (Qcltb_spec (0 - _EPSILON) (Loc.get dl a));
      destruct (Qcltb_spec (Loc.get dl a) (0 + _EPSILON)); simpl; try reflexivity.
    exfalso. simpl in Hsp.
    destruct (Qcltb_spec _EPSILON (Loc.get dl a));
      destruct (Qcltb_spec (Loc.get dl a) (- _EPSILON)); try discriminate; qc_lra.
  - apply opt_nonempty_None in EM.
    pose proof (filter_nil_false _ _ EM 0 Hi) as F. vm_compute in F. discriminate.
Qed.

Lemma offAxisRelative_In (q dl : Location) (limits : Limits) (rs : list Qc)
  (k : string) (t : Triple) :
  offAxisRelative q dl limits = Ok rs -> In (k, t) limits ->
  exists r, offAxisDim (Loc.get q k) (Loc.get dl k) t = Ok r /\ In r rs.
Proof.
  revert rs. induction limits as [| [dim lim] rest IH]; intros rs E Hin; simpl in *;
    [destruct Hin |].
  bind_inv E. bind_inv E. injection E as <-.
  destruct Hin as [Eq | Hin].
  - injection Eq as -> ->. exists a. split; [assumption | now left].
  - destruct (IH a0 Ha0 Hin) as [r [Er Hr]]. exists r. split; [assumption | now right].
Qed.

Lemma fold_mult_zero (rs : list Qc) :
  forall x, x = 0 \/ In 0 rs -> fold_left Qcmult rs x = 0.
Proof.
  induction rs as [| r rs IH]; intros x [-> | Hin]; simpl; try reflexivity.
  - destruct Hin.
  - apply IH. left. ring.
  - destruct Hin as [E | Hin]; apply IH; [left; subst r; ring | now right].
Qed.

Lemma offAxisDim_away (v : Qc) (M : AtEntry) :
  spaced v = true -> v <> 0 -> offAxisDim 0 v (None, Some M, None) = Ok 0.
Proof.
  intros Hsp Hv. unfold offAxisDim, spaced in *. simpl.
  destruct (Qceqb_spec v 0) as [E | _]; [congruence |]. simpl in Hsp.
  destruct (Qcltb_spec 0 (v - _EPSILON)); [reflexivity |].
  destruct (Qcltb_spec (v + _EPSILON) 0); [reflexivity |].
  exfalso.
  destruct (Qcltb_spec _EPSILON v); destruct (Qcltb_spec v (- _EPSILON));
    try discriminate; qc_lra.
Qed.

Lemma near_zero_spaced (v : Qc) :
  spaced v = true -> v <> 0 -> Loc.near_zero v = false.
Proof.
  intros Hsp Hv. unfold Loc.near_zero, spaced in *.
  destruct (Qceqb_spec v 0) as [E | _]; [congruence |]. simpl in Hsp.
  destruct (Qcltb_spec (- _EPSILON) v); destruct (Qcltb_spec v _EPSILON);
    try reflexivity.
  exfalso.
  destruct (Qcltb_spec _EPSILON v); destruct (Qcltb_spec v (- _EPSILON));
    try discriminate; qc_lra.
Qed.

(** The off-axis branch gives 0 at the origin for a delta with a coordinate
    away from 0. *)
Lemma off_factor_at_origin (m : Mutator T) (q : Location) (axisOnly : bool)
  (t : LocTuple) (k : string) (v : Qc) :
  let names := getAxisNames m in
  let q' := Loc.expand q names in
  Loc.isOrigin q = true ->
  In t (keys (store m)) -> In (k, v) (Loc.ofTuple t) ->
  spaced v = true -> v <> 0 ->
  off_factor q' (Loc.expand (Loc.ofTuple t) names)
    (getLimits (_allLocations m) q') axisOnly = Ok 0.
Proof.
  intros names q' Hq Ht Hkv Hsp Hv. unfold off_factor, offAxisBranch.
  destruct axisOnly; [reflexivity |].
  assert (Hz : forall k, Loc.get q' k = 0).
  { intros k'. unfold q'. rewrite LocFacts.get_expand. now apply isOrigin_get. }
  assert (Hg : Loc.get (Loc.ofTuple t) k = v).
  { apply LocFacts.get_In; [apply LocFacts.NoDup_ofTuple | assumption]. }
  assert (Hh : Loc.has (Loc.ofTuple t) k = true).
  { apply LocFacts.has_In. change k with (fst (k, v)). now apply in_map. }
  destruct (getLimits_at_origin (_allLocations m) q' (Loc.ofTuple t) k)
    as [[M HM] Shape]; try assumption.
  - unfold _allLocations. now apply in_map.
  - unfold q'. rewrite LocFacts.has_expand. apply orb_true_iff. right.
    apply (mem_In String.eqb String.eqb_spec).
    apply (getAxisNames_In m t k Ht). now apply has_ofTuple.
  - rewrite Hg. now apply near_zero_spaced.
  - unfold _calcOffAxisFactor.
    destruct (offAxisRelative_total q' (Loc.expand (Loc.ofTuple t) names)
                (getLimits (_allLocations m) q')) as [rs E].
    { intros dim tr. apply getLimits_wf. }
    rewrite E. simpl.
    destruct (offAxisRelative_In _ _ _ _ k _ E HM) as [r [Er Hr]].
    rewrite Hz, LocFacts.get_expand, Hg in Er.
    rewrite offAxisDim_away in Er by assumption. injection Er as <-.
    do 2 f_equal. apply fold_mult_zero. now right.
Qed.

End OriginQuery.

Lemma isOnAxis_coordinate (l : Location) :
  Loc.isOnAxis l <> AtOrigin ->
  exists k v, In (k, v) l /\ v <> 0 /\
              (forall a, Loc.isOnAxis l = OnAxis a -> k = a).
Proof.
  unfold Loc.isOnAxis. destruct (filter Loc.nonzero l) as [| [k v] rest] eqn:F;
    [congruence |].
  intros _. exists k, v.
  assert (Hin : In (k, v) (filter Loc.nonzero l)) by (rewrite F; now left).
  apply filter_In in Hin as [Hin Hnz]. unfold Loc.nonzero in Hnz. simpl in Hnz.
  split; [assumption |]. split.
  - destruct (Qceqb_spec v 0); [discriminate | assumption].
  - intros a. destruct rest; [| discriminate]. simpl. congruence.
Qed.

Section OriginInstance.
Context {T : Type} `{MathObject T} `{!MathObjectLaws T}.

Lemma weighted_sum_zeros (N : T) (fs : list (Delta T)) :
  Forall (fun d : Delta T => fst (fst d) = 1 /\ snd (fst d) = osub N N) fs ->
  weighted_sum fs = None \/ weighted_sum fs = Some (osub N N).
Proof.
  unfold weighted_sum.
  assert (G : forall acc : option T,
             acc = None \/ acc = Some (osub N N) ->
             Forall (fun d : Delta T => fst (fst d) = 1 /\ snd (fst d) = osub N N) fs ->
             let r := fold_left
                        (fun total d =>
                           let '(f, item, _) := d in
                           match total with
                           | None => Some (oscale f item)
                           | Some t => Some (oadd t (oscale f item))
                           end) fs acc in
             r = None \/ r = Some (osub N N)).
  { induction fs as [| [[f o] n] fs IH]; intros acc Hacc Hall; simpl; [assumption |].
    inversion Hall as [| ? ? [Ef Eo] Hrest]; subst. simpl in Ef, Eo. subst.
    apply IH; [| assumption]. right.
    destruct Hacc as [-> | ->]; rewrite oscale_1; [reflexivity |].
    now rewrite oadd_zero_l. }
  intros Hall. apply G; [now left | assumption].
Qed.

(** C3, amended.  On a mutator with neutral [N] whose deltas at the origin
    hold [N - N], whose stored coordinates are 0 or farther than epsilon
    from 0, and which has no axis named "origin", [getInstance] at a
    location with all coordinates 0 returns [0 * N], with or without the
    off-axis deltas. *)
Theorem origin_query_is_zero (m : Mutator T) (q : Location) (axisOnly : bool) (N : T) :
  _neutral m = Some N ->
  Forall (fun item : LocTuple * (T * option string) =>
            Loc.isOnAxis (Loc.ofTuple (fst item)) = AtOrigin ->
            fst (snd item) = osub N N) (store m) ->
  well_spaced (store m) = true ->
  no_origin_axis (store m) = true ->
  Loc.isOrigin q = true ->
  exists r q' m',
    getInstance m q axisOnly = Ok (r, q', m') /\ r = oscale 0 N.
Proof.
  intros Hn Hzero Hsp Hno Hq.
  destruct (getInstance_factors_total m q axisOnly N Hn)
    as [total [fs [m' [E [Hn' _]]]]].
  exists total, (Loc.expand q (getAxisNames m)), m'.
  unfold getInstance. rewrite E. simpl. split; [reflexivity |].
  unfold getInstance_factors in E. bind_inv E.
  destruct a as [[fs' q''] m'']. simpl in E.
  assert (Hfs : Forall (fun d : Delta T => fst (fst d) = 1 /\ snd (fst d) = osub N N) fs').
  { rewrite getFactors_eq in Ha. cbv zeta in Ha. bind_inv Ha.
    injection Ha as <- _ _. rename a into ds.
    apply Forall_forall. intros [[f o] n] Hin. simpl.
    apply (proj1 (sorted_deltas_In _ _)) in Hin.
    destruct (pure_factors_inv _ _ _ _ _ _ _ Ha0 f o n Hin) as [t [Ht [Ef Hnz]]].
    apply sort_In in Ht.
    change (store (_collectAxisPoints m)) with (store m) in Ht.
    change (getAxisNames (_collectAxisPoints m)) with (getAxisNames m) in Ef.
    change (_allLocations (_collectAxisPoints m)) with (_allLocations m) in Ef.
    assert (Hk : In t (keys (store m))) by now apply (store_keys_In (store m) t (o, n)).
    assert (Hz : forall k, Loc.get (Loc.expand q (getAxisNames m)) k = 0).
    { intros k. rewrite LocFacts.get_expand. now apply isOrigin_get. }
    destruct (Loc.isOnAxis (Loc.ofTuple t)) as [| a |] eqn:Eax.
    - rewrite delta_factor_origin in Ef
        by (now rewrite LocFacts.isOnAxis_expand).
      injection Ef as <-. split; [reflexivity |].
      rewrite Forall_forall in Hzero. apply (Hzero (t, (o, n)) Ht Eax).
    - exfalso.
      destruct (isOnAxis_coordinate (Loc.ofTuple t)) as [k [v [Hkv [Hv Hka]]]];
        [congruence |].
      specialize (Hka a Eax). subst k.
      assert (Hspv : spaced v = true).
      { unfold well_spaced in Hsp. rewrite forallb_forall in Hsp.
        specialize (Hsp (t, (o, n)) Ht). simpl in Hsp.
        rewrite forallb_forall in Hsp. apply (Hsp (a, v) Hkv). }
      assert (Hg : Loc.get (Loc.expand (Loc.ofTuple t) (getAxisNames m)) a = v).
      { rewrite LocFacts.get_expand.
        apply LocFacts.get_In; [apply LocFacts.NoDup_ofTuple | assumption]. }
      assert (F0 : Ok f = Ok 0 :> result Qc).
      { rewrite <- Ef. unfold delta_factor.
        rewrite LocFacts.isOnAxis_expand, Eax.
        destruct (truthy a) eqn:Ht'.
        - destruct (_collectAxisPoints_cover m t a Hk Eax) as [pts [G Hpts]].
          rewrite G.
          destruct (List.length (with_sentinel a pts) =? 1)%nat.
          + rewrite Hz. f_equal. ring.
          + apply _calcOnAxisFactor_at_zero.
            * unfold no_origin_axis in Hno. rewrite forallb_forall in Hno.
              specialize (Hno (t, (o, n)) Ht). simpl in Hno. rewrite Eax in Hno.
              apply negb_true_iff, String.eqb_neq in Hno. exact Hno.
            * apply Hz.
            * apply with_sentinel_In.
            * now rewrite Hg.
            * now rewrite Hg.
        - now apply (off_factor_at_origin m q axisOnly t a v). }
      injection F0 as ->. vm_compute in Hnz. discriminate.
    - exfalso.
      destruct (isOnAxis_coordinate (Loc.ofTuple t)) as [k [v [Hkv [Hv _]]]];
        [congruence |].
      assert (Hspv : spaced v = true).
      { unfold well_spaced in Hsp. rewrite forallb_forall in Hsp.
        specialize (Hsp (t, (o, n)) Ht). simpl in Hsp.
        rewrite forallb_forall in Hsp. apply (Hsp (k, v) Hkv). }
      assert (F0 : Ok f = Ok 0 :> result Qc).
      { rewrite <- Ef. unfold delta_factor.
        rewrite LocFacts.isOnAxis_expand, Eax.
        now apply (off_factor_at_origin m q axisOnly t k v). }
      injection F0 as ->. vm_compute in Hnz. discriminate. }
  destruct (weighted_sum_zeros N fs' Hfs) as [W | W]; rewrite W in E.
  - destruct (_neutral m'') as [n |] eqn:N'; [| discriminate].
    inversion E; subst. congruence.
  - inversion E; subst. now rewrite oscale_0.
Qed.

End OriginInstance.

(** C3 as stated fails: an on-axis master closer than epsilon to the origin
    is taken for the origin.  With neutral 0 and the master [pop = 2^-53]
    holding 100, [getInstance] at [pop = 0] returns 100. *)
Lemma origin_query_tiny_axis :
  match
    (m <- setNeutral (newMutator None) 0 (Some "origin") ;;
     ' (_, m) <- addDelta m [("pop", Q2Qc (1 # 2 ^ 53))] (qz 100) None false true ;;
     getInstance m (Loc.sub (_bias m) (_bias m)) false)
  with
  | Ok (r, _, _) => this r = 100%Q /\ this (oscale 0 0) = 0%Q
  | Raise _ => False
  end.
Proof. vm_compute. split; reflexivity. Qed.

(** C3 on the two-axis system with the punched off-axis master, at
    [pop=0, snap=0]. *)
Lemma origin_query_is_zero_witness :
  exists r q' m',
    getInstance (built twoAxesOffAxis) [("pop", 0); ("snap", 0)] false
    = Ok (r, q', m') /\ r = oscale 0 0.
Proof.
  apply (origin_query_is_zero (built twoAxesOffAxis) [("pop", 0); ("snap", 0)] false 0).
  - reflexivity.
  - vm_compute. repeat constructor; intros; try discriminate.
  - vm_compute. reflexivity.
  - vm_compute. reflexivity.
  - reflexivity.
Defined.

(* ----------------------------------------------------------------- *)
(** ** Locations with distinct axis names *)








Lemma names_In_inv (ks : list string) (k : string) (s : list string) :
  In k (fold_left (fun s k => if mem String.eqb k s then s else s ++ [k]) ks s) ->
  In k s \/ In k ks.
Proof. apply names_fold_In. Qed.

Lemma names_outer_inv (ts : list LocTuple) (k : string) :
  forall s : list string,
    In k (fold_left
            (fun s l => fold_left (fun s k => if mem String.eqb k s then s else s ++ [k])
                                  (keys l) s) ts s) ->
    In k s \/ exists t, In t ts /\ In k (keys t).
Proof.
  induction ts as [| t ts IH]; intros s Hin; simpl in *; [now left |].
  apply IH in Hin as [Hin | [t' [Ht' Hk]]].
  - apply names_In_inv in Hin as [Hs | Hk]; [now left |].
    right. exists t. auto.
  - right. exists t'. auto.
Qed.


(* ----------------------------------------------------------------- *)
(** ** Sums of weighted deltas *)

Section Sums.
Context {T : Type} `{MathObject T} `{!MathObjectLaws T}.

Lemma oadd_zero_r (a b : T) : oadd b (osub a a) = b.
Proof. rewrite oadd_comm. apply oadd_zero_l. Qed.

Lemma weighted_sum_wsum (N : T) (fs : list (Delta T)) :
  weighted_sum fs = match fs with
                    | [] => None
                    | _ :: _ => Some (wsum (osub N N) fs)
                    end.
Proof.
  destruct fs as [| [[f o] n] rest]; [reflexivity |].
  unfold weighted_sum, wsum. simpl. rewrite oadd_zero_l.
  generalize (oscale f o) as acc. induction rest as [| [[f' o'] n'] rest IH];
    intros acc; simpl; [reflexivity | apply IH].
Qed.

Lemma wsum_perm (fs fs' : list (Delta T)) :
  Permutation fs fs' -> forall init, wsum init fs = wsum init fs'.
Proof.
  unfold wsum. induction 1 as [| d l l' P IH | d d' l | l l' l'' P1 IH1 P2 IH2];
    intros init; simpl.
  - reflexivity.
  - apply IH.
  - f_equal. rewrite <- !oadd_assoc. f_equal. apply oadd_comm.
  - now rewrite IH1.
Qed.

Lemma wsum_out (N : T) (fs : list (Delta T)) :
  forall init, wsum init fs = oadd init (wsum (osub N N) fs).
Proof.
  unfold wsum. induction fs as [| d fs IH]; intros init; simpl.
  - now rewrite oadd_zero_r.
  - rewrite IH. rewrite (IH (oadd (osub N N) _)). rewrite oadd_zero_l.
    now rewrite <- oadd_assoc.
Qed.


End Sums.

(* ----------------------------------------------------------------- *)
(** ** The factor list over a permuted store *)

Section FactorsPermuted.
Context {T : Type} `{MathObject T}.





Lemma fold_mult_ones (rs : list Qc) :
  Forall (fun r => r = 1) rs -> fold_left Qcmult rs 1 = 1.
Proof.
  induction 1 as [| r rs -> _ IH]; simpl; [reflexivity |].
  now rewrite Qcmult_1_l.
Qed.

Lemma offAxisDim_same (c : Qc) (t : Triple) :
  triple_wf c t -> offAxisDim c c t = Ok 1.
Proof.
  destruct t as [[mB M] mA]. intros [HB [HA _]]. unfold offAxisDim.
  assert (E1 : opt_ltb_l mA c = false).
  { destruct mA as [a |]; [| reflexivity]. simpl.
    specialize (HA a eq_refl). destruct (Qcltb_spec a c); [qc_lra | reflexivity]. }
  assert (E2 : opt_ltb_r c mB = false).
  { destruct mB as [b |]; [| reflexivity]. simpl.
    specialize (HB b eq_refl). destruct (Qcltb_spec c b); [qc_lra | reflexivity]. }
  rewrite E1, E2.
  destruct (Qcltb_spec c (c - _EPSILON)); [qc_lra |].
  destruct (Qcltb_spec (c + _EPSILON) c); [qc_lra | reflexivity].
Qed.


End FactorsPermuted.

(* ----------------------------------------------------------------- *)
(** ** Punching a delta in *)

Section Punch.
Context {T : Type} `{MathObject T} `{!MathObjectLaws T}.

(** [getInstance] on a mutator with neutral [N], spelled out. *)
Lemma getInstance_explicit (m : Mutator T) (q : Location) (axisOnly : bool) (N : T) :
  _neutral m = Some N ->
  let mc := _collectAxisPoints m in
  let names := getAxisNames m in
  let q1 := Loc.expand q names in
  let items := sort (leb_of item_compare) (store m) in
  exists ds,
    pure_factors (_axes mc) names q1 (getLimits (_allLocations m) q1) axisOnly items
    = Ok ds /\
    getInstance m q axisOnly
    = Ok (wsum (osub N N) (rev (sort (leb_of delta_compare) ds)), q1,
          set_axes mc (axes_loop names items (_axes mc))).
Proof.
  intros Hn. cbv zeta.
  destruct (getFactors_total m q axisOnly) as [fs [m' E]].
  rewrite getFactors_eq in E. cbv zeta in E. bind_inv E. injection E as <- <-.
  exists a. split; [exact Ha |].
  unfold getInstance, getInstance_factors. rewrite getFactors_eq. cbv zeta.
  rewrite Ha. cbn [bind].
  rewrite (weighted_sum_wsum N).
  destruct (rev (sort (leb_of delta_compare) a)) as [| d fs'] eqn:Efs.
  - cbn. rewrite Hn. cbn. now rewrite oscale_0.
  - reflexivity.
Qed.



End Punch.



(* ================================================================= *)
(** * The factor of a delta on an axis *)

Lemma fold_Qcmax_ge (r : list Qc) :
  forall x y, In y (x :: r) -> y <= fold_left Qcmax r x.
Proof.
  induction r as [| z r IH]; intros x y Hin; simpl.
  - destruct Hin as [<- | []]. apply Qcle_refl.
  - assert (Hx : x <= Qcmax x z /\ z <= Qcmax x z).
    { unfold Qcmax. destruct (Qcltb_spec x z); split; qc_lra. }
    destruct Hx as [Hx Hz].
    destruct Hin as [E | [E | Hin]].
    + subst y. apply Qcle_trans with (Qcmax x z); [assumption | apply IH; now left].
    + subst y. apply Qcle_trans with (Qcmax x z); [assumption | apply IH; now left].
    + apply IH. now right.
Qed.

Lemma fold_Qcmin_le (r : list Qc) :
  forall x y, In y (x :: r) -> fold_left Qcmin r x <= y.
Proof.
  induction r as [| z r IH]; intros x y Hin; simpl.
  - destruct Hin as [<- | []]. apply Qcle_refl.
  - assert (Hx : Qcmin x z <= x /\ Qcmin x z <= z).
    { unfold Qcmin. destruct (Qcltb_spec z x); split; qc_lra. }
    destruct Hx as [Hx Hz].
    destruct Hin as [E | [E | Hin]].
    + subst y. apply Qcle_trans with (Qcmin x z); [apply IH; now left | assumption].
    + subst y. apply Qcle_trans with (Qcmin x z); [apply IH; now left | assumption].
    + apply IH. now right.
Qed.

Lemma opt_nonempty_max_eq (l : list Qc) (m : Qc) :
  In m l -> (forall x, In x l -> x <= m) -> opt_nonempty list_max l = Some m.
Proof.
  intros Hin Hle. destruct l as [| y r]; [destruct Hin |]. simpl. f_equal.
  pose proof (fold_Qcmax_In r y) as H1.
  pose proof (fold_Qcmax_ge r y m Hin) as H2.
  specialize (Hle _ H1). qc_lra.
Qed.

Lemma opt_nonempty_min_eq (l : list Qc) (m : Qc) :
  In m l -> (forall x, In x l -> m <= x) -> opt_nonempty list_min l = Some m.
Proof.
  intros Hin Hle. destruct l as [| y r]; [destruct Hin |]. simpl. f_equal.
  pose proof (fold_Qcmin_In r y) as H1.
  pose proof (fold_Qcmin_le r y m Hin) as H2.
  specialize (Hle _ H1). qc_lra.
Qed.

Lemma filter_false_nil {A : Type} (p : A -> bool) (l : list A) :
  (forall x, In x l -> p x = false) -> filter p l = [].
Proof.
  induction l as [| y r IH]; simpl; [reflexivity |].
  intros Hp. rewrite (Hp y (or_introl eq_refl)). apply IH. auto.
Qed.

(** The three lists [B], [M], [A] of [_calcOnAxisFactor]. *)
Lemma _calcOnAxisFactor_between (q : Location) (a : string) (pts : list LocTuple)
  (dl : Location) (lo hi : Qc) :
  a <> "origin" ->
  In lo (axis_values a pts) -> In hi (axis_values a pts) ->
  lo < Loc.get q a -> Loc.get q a < hi ->
  (forall x, In x (axis_values a pts) -> x <= lo \/ hi <= x) ->
  _calcOnAxisFactor q a pts dl
  = (if Qcltb (Loc.get dl a) lo || Qcltb hi (Loc.get dl a) then Ok 0
     else if Qceqb (Loc.get dl a) hi
          then Ok ((Loc.get q a - lo) / (hi - lo))
          else Ok ((Loc.get q a - hi) / (lo - hi))).
Proof.
  intros Ha Hlo Hhi L1 L2 Gap. unfold _calcOnAxisFactor.
  apply String.eqb_neq in Ha. rewrite Ha.
  set (i := axis_values a pts) in *.
  set (f := Loc.get q a) in *. set (v := Loc.get dl a).
  assert (EM : filter (fun value => negb (Qcltb value f) && negb (Qcltb f value)) i = []).
  { apply filter_false_nil. intros x Hx.
    destruct (Gap x Hx); destruct (Qcltb_spec x f); destruct (Qcltb_spec f x);
      try reflexivity; qc_lra. }
  assert (EB : opt_nonempty list_max (filter (fun value => Qcltb value f) i) = Some lo).
  { apply opt_nonempty_max_eq.
    - apply filter_In. split; [assumption |].
      destruct (Qcltb_spec lo f); [reflexivity | contradiction].
    - intros x Hx. apply filter_In in Hx as [Hx Lx].
      destruct (Qcltb_spec x f); [| discriminate].
      destruct (Gap x Hx); [assumption | qc_lra]. }
  assert (EA : opt_nonempty list_min
                 (filter (fun value => negb (Qcltb value f) && Qcltb f value) i)
               = Some hi).
  { apply opt_nonempty_min_eq.
    - apply filter_In. split; [assumption |].
      destruct (Qcltb_spec hi f); destruct (Qcltb_spec f hi); try reflexivity; qc_lra.
    - intros x Hx. apply filter_In in Hx as [Hx Lx].
      apply andb_true_iff in Lx as [_ Lx].
      destruct (Qcltb_spec f x); [| discriminate].
      destruct (Gap x Hx); [qc_lra | assumption]. }
  rewrite EM, EB, EA. simpl.
  destruct (Qcltb v lo || Qcltb hi v); [reflexivity |].
  destruct (Qceqb v hi); apply pydiv_Ok; qc_lra.
Qed.

(** X1.  Between two neighbouring values [lo < f < hi] of an axis,
    [_calcOnAxisFactor] interpolates linearly: the delta at [hi] has the
    factor [(f - lo) / (hi - lo)], the delta at [lo] the factor
    [(f - hi) / (lo - hi)], a delta outside the two has 0.  The two factors
    add up to 1 and weigh the two values to [f]. *)
Theorem onAxis_between_neighbours (q : Location) (a : string) (pts : list LocTuple)
  (dl : Location) (lo hi : Qc) :
  a <> "origin" ->
  In lo (axis_values a pts) -> In hi (axis_values a pts) ->
  lo < Loc.get q a -> Loc.get q a < hi ->
  (forall x, In x (axis_values a pts) -> x <= lo \/ hi <= x) ->
  let f := Loc.get q a in
  let v := Loc.get dl a in
  let w_hi := (f - lo) / (hi - lo) in
  let w_lo := (f - hi) / (lo - hi) in
  (v = hi -> _calcOnAxisFactor q a pts dl = Ok w_hi) /\
  (v = lo -> _calcOnAxisFactor q a pts dl = Ok w_lo) /\
  (v < lo \/ hi < v -> _calcOnAxisFactor q a pts dl = Ok 0) /\
  w_lo + w_hi = 1 /\
  w_lo * lo + w_hi * hi = f.
Proof.
  intros Ha Hlo Hhi L1 L2 Gap f v w_hi w_lo.
  pose proof (_calcOnAxisFactor_between q a pts dl lo hi Ha Hlo Hhi L1 L2 Gap) as E.
  fold f v in E. fold w_hi w_lo in E.
  repeat split.
  - intros Ev. rewrite E, Ev.
    destruct (Qcltb_spec hi lo); [qc_lra |].
    rewrite Qcltb_irrefl, Qceqb_refl. reflexivity.
  - intros Ev. rewrite E, Ev. rewrite Qcltb_irrefl.
    destruct (Qcltb_spec hi lo); [qc_lra |].
    destruct (Qceqb_spec lo hi); [qc_lra | reflexivity].
  - intros Hv. rewrite E.
    destruct (Qcltb_spec v lo); destruct (Qcltb_spec hi v); try reflexivity.
    destruct Hv; contradiction.
  - unfold w_lo, w_hi. field. split; qc_lra.
  - unfold w_lo, w_hi. field. split; qc_lra.
Qed.

(** A list sorted by [R] whose two extreme values are known begins with
    them. *)
Lemma sorted_head_two (R : Qc -> Qc -> Prop) (l : list Qc) (h1 h2 : Qc) :
  (forall x y, R x y -> R y x -> x = y) ->
  StronglySorted R l -> NoDup l ->
  In h1 l -> In h2 l -> h1 <> h2 -> R h1 h2 ->
  (forall x, In x l -> x = h1 \/ R h2 x) ->
  exists r, l = h1 :: h2 :: r.
Proof.
  intros Anti Hs Hnd H1 H2 Hne R12 Hall.
  destruct l as [| x l]; [destruct H1 |].
  inversion Hs as [| ? ? Hs' Hx]; subst. rewrite Forall_forall in Hx.
  inversion Hnd as [| ? ? Hnx Hnd']; subst.
  assert (Ex : x = h1).
  { destruct H1 as [E | H1]; [assumption |].
    destruct (Hall x (or_introl eq_refl)) as [E | Rx]; [assumption |].
    destruct H2 as [E | H2].
    - subst x. apply Anti; [apply Hx, H1 | assumption].
    - exfalso. apply Hne. apply Anti; [assumption |].
      assert (E : x = h2) by (apply Anti; [apply Hx, H2 | assumption]).
      subst x. now apply Hx. }
  subst x.
  destruct H2 as [E | H2]; [congruence |].
  destruct l as [| y l]; [destruct H2 |].
  inversion Hs' as [| ? ? _ Hy]; subst. rewrite Forall_forall in Hy.
  assert (Ey : y = h2).
  { destruct H2 as [E | H2]; [assumption |].
    destruct (Hall y (or_intror (or_introl eq_refl))) as [E | Ry].
    - exfalso. apply Hnx. left. congruence.
    - apply Anti; [apply Hy, H2 | assumption]. }
  subst y. eauto.
Qed.

Lemma Qcle_antisym' (x y : Qc) : x <= y -> y <= x -> x = y.
Proof. intros; qc_lra. Qed.

Lemma filter_M_nil (i : list Qc) (f : Qc) :
  ~ In f i ->
  filter (fun value => negb (Qcltb value f) && negb (Qcltb f value)) i = [].
Proof.
  intros Hn. apply filter_false_nil. intros x Hx.
  destruct (Qcltb_spec x f); destruct (Qcltb_spec f x); try reflexivity.
  exfalso. apply Hn. assert (E : x = f) by qc_lra. now subst.
Qed.

(** Above every value of the axis. *)
Lemma _calcOnAxisFactor_above (q : Location) (a : string) (pts : list LocTuple)
  (dl : Location) (b1 b2 : Qc) :
  a <> "origin" ->
  In b1 (axis_values a pts) -> In b2 (axis_values a pts) ->
  b2 < b1 -> b1 < Loc.get q a ->
  (forall x, In x (axis_values a pts) -> x = b1 \/ x <= b2) ->
  _calcOnAxisFactor q a pts dl
  = (if Qceqb (Loc.get dl a) b2 then Ok ((Loc.get q a - b1) / (b2 - b1))
     else if Qceqb (Loc.get dl a) b1 then Ok ((Loc.get q a - b2) / (b1 - b2))
          else Ok 0).
Proof.
  intros Ha H1 H2 L12 L1 Hall. unfold _calcOnAxisFactor.
  apply String.eqb_neq in Ha. rewrite Ha.
  pose proof (axis_values_NoDup a pts) as Hnd.
  pose proof (sort_Qcleb_sorted
                (keys (fold_left
                         (fun iv value =>
                            dset Qceqb iv (Loc.get (Loc.ofTuple value) a) 1%nat)
                         pts []))) as Hs.
  fold (axis_values a pts) in Hs.
  set (i := axis_values a pts) in *.
  set (f := Loc.get q a) in *. set (v := Loc.get dl a).
  assert (Hlt : forall x, In x i -> x < f).
  { intros x Hx. destruct (Hall x Hx) as [-> | Lx]; [assumption | qc_lra]. }
  assert (EM : filter (fun value => negb (Qcltb value f) && negb (Qcltb f value)) i = []).
  { apply filter_M_nil. intros Hf. specialize (Hlt f Hf). qc_lra. }
  assert (EA : filter (fun value => negb (Qcltb value f) && Qcltb f value) i = []).
  { apply filter_false_nil. intros x Hx. specialize (Hlt x Hx).
    destruct (Qcltb_spec x f); [reflexivity | contradiction]. }
  assert (EB : filter (fun value => Qcltb value f) i = i).
  { apply filter_all_true. intros x Hx. specialize (Hlt x Hx).
    destruct (Qcltb_spec x f); [reflexivity | contradiction]. }
  assert (Emax : opt_nonempty list_max i = Some b1).
  { apply opt_nonempty_max_eq; [assumption |].
    intros x Hx. destruct (Hall x Hx) as [-> | Lx]; qc_lra. }
  destruct (sorted_head_two (fun x y => y <= x) (rev i) b1 b2) as [r Er].
  - intros x y Hxy Hyx. now apply Qcle_antisym'.
  - now apply StronglySorted_rev.
  - now apply NoDup_rev.
  - now rewrite <- in_rev.
  - now rewrite <- in_rev.
  - intros E. qc_lra.
  - qc_lra.
  - intros x Hx. rewrite <- in_rev in Hx. apply Hall, Hx.
  - rewrite EM, EA, EB, Emax, Er. simpl.
    destruct (Qceqb v b2); [apply pydiv_Ok; qc_lra |].
    destruct (Qceqb v b1); [apply pydiv_Ok; qc_lra | reflexivity].
Qed.

(** Below every value of the axis. *)
Lemma _calcOnAxisFactor_below (q : Location) (a : string) (pts : list LocTuple)
  (dl : Location) (a0 a1 : Qc) :
  a <> "origin" ->
  In a0 (axis_values a pts) -> In a1 (axis_values a pts) ->
  a0 < a1 -> Loc.get q a < a0 ->
  (forall x, In x (axis_values a pts) -> x = a0 \/ a1 <= x) ->
  _calcOnAxisFactor q a pts dl
  = (if Qceqb (Loc.get dl a) a1 then Ok ((Loc.get q a - a0) / (a1 - a0))
     else if Qceqb (Loc.get dl a) a0 then Ok ((Loc.get q a - a1) / (a0 - a1))
          else Ok 0).
Proof.
  intros Ha H0 H1 L01 L0 Hall. unfold _calcOnAxisFactor.
  apply String.eqb_neq in Ha. rewrite Ha.
  pose proof (axis_values_NoDup a pts) as Hnd.
  pose proof (sort_Qcleb_sorted
                (keys (fold_left
                         (fun iv value =>
                            dset Qceqb iv (Loc.get (Loc.ofTuple value) a) 1%nat)
                         pts []))) as Hs.
  fold (axis_values a pts) in Hs.
  set (i := axis_values a pts) in *.
  set (f := Loc.get q a) in *. set (v := Loc.get dl a).
  assert (Hgt : forall x, In x i -> f < x).
  { intros x Hx. destruct (Hall x Hx) as [-> | Lx]; [assumption | qc_lra]. }
  assert (EM : filter (fun value => negb (Qcltb value f) && negb (Qcltb f value)) i = []).
  { apply filter_M_nil. intros Hf. specialize (Hgt f Hf). qc_lra. }
  assert (EB : filter (fun value => Qcltb value f) i = []).
  { apply filter_false_nil. intros x Hx. specialize (Hgt x Hx).
    destruct (Qcltb_spec x f); [qc_lra | reflexivity]. }
  assert (EA : filter (fun value => negb (Qcltb value f) && Qcltb f value) i = i).
  { apply filter_all_true. intros x Hx. specialize (Hgt x Hx).
    destruct (Qcltb_spec x f); destruct (Qcltb_spec f x); try reflexivity; qc_lra. }
  assert (Emin : opt_nonempty list_min i = Some a0).
  { apply opt_nonempty_min_eq; [assumption |].
    intros x Hx. destruct (Hall x Hx) as [-> | Lx]; qc_lra. }
  destruct (sorted_head_two Qcle i a0 a1) as [r Er]; try assumption.
  - intros x y Hxy Hyx. now apply Qcle_antisym'.
  - intros E. qc_lra.
  - qc_lra.
  - rewrite EM, EB, EA, Emin, Er. simpl.
    destruct (Qceqb v a1); [apply pydiv_Ok; qc_lra |].
    destruct (Qceqb v a0); [apply pydiv_Ok; qc_lra | reflexivity].
Qed.

(** X2.  Beyond the end of an axis, above the largest value or below the
    smallest one, [_calcOnAxisFactor] extrapolates from the two values
    nearest to the query: with [e1] the nearest and [e2] the next, the
    delta at [e1] has the factor [(f - e2) / (e1 - e2)], the delta at [e2]
    the factor [(f - e1) / (e2 - e1)], which is negative, and every other
    delta has 0.  The two factors add up to 1 and weigh the two values to
    [f]. *)
Theorem onAxis_extrapolation (q : Location) (a : string) (pts : list LocTuple)
  (dl : Location) (e1 e2 : Qc) :
  a <> "origin" ->
  In e1 (axis_values a pts) -> In e2 (axis_values a pts) ->
  (e2 < e1 /\ e1 < Loc.get q a /\
   (forall x, In x (axis_values a pts) -> x = e1 \/ x <= e2)) \/
  (e1 < e2 /\ Loc.get q a < e1 /\
   (forall x, In x (axis_values a pts) -> x = e1 \/ e2 <= x)) ->
  let f := Loc.get q a in
  let v := Loc.get dl a in
  let w1 := (f - e2) / (e1 - e2) in
  let w2 := (f - e1) / (e2 - e1) in
  (v = e1 -> _calcOnAxisFactor q a pts dl = Ok w1) /\
  (v = e2 -> _calcOnAxisFactor q a pts dl = Ok w2) /\
  (v <> e1 -> v <> e2 -> _calcOnAxisFactor q a pts dl = Ok 0) /\
  w1 + w2 = 1 /\
  w1 * e1 + w2 * e2 = f.
Proof.
  intros Ha H1 H2 Hside f v w1 w2.
  assert (Hne : e1 <> e2).
  { destruct Hside as [[L _] | [L _]]; intros E; qc_lra. }
  assert (E : _calcOnAxisFactor q a pts dl
              = (if Qceqb v e2 then Ok w2
                 else if Qceqb v e1 then Ok w1 else Ok 0)).
  { destruct Hside as [[L12 [L1 Hall]] | [L12 [L1 Hall]]].
    - apply _calcOnAxisFactor_above; assumption.
    - apply _calcOnAxisFactor_below; assumption. }
  repeat split.
  - intros Ev. rewrite E, Ev, Qceqb_refl.
    destruct (Qceqb_spec e1 e2); [contradiction | reflexivity].
  - intros Ev. rewrite E, Ev, Qceqb_refl. reflexivity.
  - intros N1 N2. rewrite E.
    destruct (Qceqb_spec v e2); [contradiction |].
    destruct (Qceqb_spec v e1); [contradiction | reflexivity].
  - unfold w1, w2. field. split; intros E0; apply Hne; qc_lra.
  - unfold w1, w2. field. split; intros E0; apply Hne; qc_lra.
Qed.

Lemma _calcOnAxisFactor_at_value (q : Location) (a : string) (pts : list LocTuple)
  (dl : Location) :
  a <> "origin" ->
  In (Loc.get q a) (axis_values a pts) ->
  _calcOnAxisFactor q a pts dl
  = Ok (if (Qcltb (Loc.get q a - _EPSILON) (Loc.get dl a)
            && Qcltb (Loc.get dl a) (Loc.get q a + _EPSILON))
           || Qceqb (Loc.get q a) (Loc.get dl a)
        then 1 else 0).
Proof.
  intros Ha Hin. unfold _calcOnAxisFactor.
  apply String.eqb_neq in Ha. rewrite Ha.
  set (i := axis_values a pts) in *.
  set (f := Loc.get q a) in *. set (v := Loc.get dl a).
  destruct (opt_nonempty list_min
              (filter (fun value => negb (Qcltb value f) && negb (Qcltb f value)) i))
    as [mM |] eqn:EM.
  - destruct (_ || _); reflexivity.
  - apply opt_nonempty_None in EM.
    pose proof (filter_nil_false _ _ EM f Hin) as F. cbv beta in F.
    rewrite Qcltb_irrefl in F. discriminate.
Qed.


(** X4.  On an axis named "origin" [_calcOnAxisFactor] ignores the
    coordinates: once the list holds the point [(("origin", 0),)], every
    delta has the factor 1 at every query. *)
Theorem onAxis_named_origin (q : Location) (pts : list LocTuple) (dl : Location) :
  In [("origin", 0)] pts ->
  _calcOnAxisFactor q "origin" pts dl = Ok 1.
Proof.
  intros Hs. unfold _calcOnAxisFactor. simpl String.eqb. cbv iota.
  set (i := axis_values "origin" pts).
  assert (Hi : In 0 i).
  { apply axis_values_In. exists [("origin", 0)]. split; [assumption | reflexivity]. }
  destruct (opt_nonempty list_min
              (filter (fun value => negb (Qcltb value 0) && negb (Qcltb 0 value)) i))
    as [mM |] eqn:EM.
  - reflexivity.
  - apply opt_nonempty_None in EM.
    pose proof (filter_nil_false _ _ EM 0 Hi) as F. vm_compute in F. discriminate.
Qed.

Lemma NoDup_constant (l : list Qc) (c : Qc) :
  NoDup l -> (forall x, In x l -> x = c) -> l <> [] -> l = [c].
Proof.
  intros Hnd Hc Hne. destruct l as [| x l]; [congruence |].
  rewrite (Hc x (or_introl eq_refl)) in *.
  destruct l as [| y l]; [reflexivity |].
  exfalso. inversion Hnd as [| ? ? Hn _]; subst. apply Hn. left.
  apply Hc. right. now left.
Qed.

(** X5.  [_calcOnAxisFactor] needs two values on the axis: when all the
    points of the list have one coordinate and the query has another one,
    the index [A[1]] or [B[-2]] is out of range and the call raises
    [IndexError]. *)
Theorem onAxis_one_value_IndexError (q : Location) (a : string)
  (pts : list LocTuple) (dl : Location) (c : Qc) :
  a <> "origin" ->
  pts <> [] ->
  (forall t, In t pts -> Loc.get (Loc.ofTuple t) a = c) ->
  Loc.get q a <> c ->
  _calcOnAxisFactor q a pts dl = Raise IndexError.
Proof.
  intros Ha Hne Hc Hq.
  assert (Ei : axis_values a pts = [c]).
  { apply NoDup_constant.
    - apply axis_values_NoDup.
    - intros x Hx. apply axis_values_In in Hx as [t [Ht <-]]. now apply Hc.
    - destruct pts as [| t pts]; [congruence |].
      intros E. assert (Hin : In c (axis_values a (t :: pts))).
      { apply axis_values_In. exists t. split; [now left | apply Hc; now left]. }
      rewrite E in Hin. destruct Hin. }
  unfold _calcOnAxisFactor. apply String.eqb_neq in Ha. rewrite Ha, Ei.
  set (f := Loc.get q a) in *. simpl.
  destruct (Qcltb_spec c f); destruct (Qcltb_spec f c); simpl; try reflexivity.
  exfalso. apply Hq. qc_lra.
Qed.

(* ================================================================= *)
(** * The limits and the factor of an off-axis delta *)

Lemma limit_init_from (locations : list Location) (name : string) (f : Qc) :
  buckets_from locations name (limit_init f).
Proof.
  unfold limit_init, buckets_from.
  destruct (Qcltb 0 f); [| destruct (Qcltb f 0)]; simpl;
    repeat split; intros k Hk; try destruct Hk as [<- | []]; try destruct Hk;
    now left.
Qed.

Lemma common_value (current l a b : Location) (name : string) (value : Qc) :
  Loc.common current l = Some (a, b) -> In (name, value) b ->
  Loc.get l name = value.
Proof.
  intros C Hin. apply common_Some in C as [dims [_ [_ ->]]].
  apply in_map_iff in Hin as [k [Ek Hk]]. now injection Ek as -> ->.
Qed.

Lemma limit_step_from (locations : list Location) (current l a : Location)
  (limit : list (string * Buckets)) (nv : string * Qc) :
  from_locations locations (fst nv) (snd nv) ->
  raw_from locations limit ->
  raw_from locations (limit_step current l a limit nv).
Proof.
  intros Hv Hw name lims Hin. unfold limit_step in Hin.
  apply In_dset in Hin as [E | Hin]; [| now apply Hw].
  injection E as -> ->.
  assert (W : buckets_from locations (fst nv)
                (match dget String.eqb limit (fst nv) with
                 | Some b => b
                 | None => limit_init (Loc.get a (fst nv))
                 end)).
  { destruct (dget String.eqb limit (fst nv)) as [b |] eqn:G.
    - apply (dget_In String.eqb String.eqb_spec) in G. now apply Hw.
    - apply limit_init_from. }
  destruct W as [W1 [W2 W3]].
  destruct (Qcltb _ _); [| destruct (Qcltb _ _)];
    unfold buckets_from; simpl; repeat split; try assumption;
    intros k Hk; apply bucket_add_keys in Hk as [-> | Hk]; auto.
Qed.

Lemma getLimits_raw_from (locations : list Location) (current : Location) :
  raw_from locations (getLimits_raw locations current).
Proof.
  unfold getLimits_raw.
  assert (G : forall ls limit,
             (forall l, In l ls -> In l locations) ->
             raw_from locations limit ->
             raw_from locations
               (fold_left
                  (fun limit l =>
                     match Loc.common current l with
                     | None => limit
                     | Some (a, b) => fold_left (limit_step current l a) b limit
                     end) ls limit)).
  { induction ls as [| l ls IH]; intros limit Hsub Hw; simpl; [assumption |].
    apply IH; [intros l' Hl'; apply Hsub; now right |].
    destruct (Loc.common current l) as [[a b] |] eqn:C; [| assumption].
    assert (Hb : forall nv, In nv b -> from_locations locations (fst nv) (snd nv)).
    { intros [name value] Hnv. right. exists l. split; [apply Hsub; now left |].
      eapply common_value; eassumption. }
    clear C. revert limit Hw. induction b as [| nv b IHb]; intros limit Hw; simpl;
      [assumption |].
    apply IHb; [intros nv' Hnv'; apply Hb; now right |].
    apply limit_step_from; [apply Hb; now left | assumption]. }
  apply G; [auto | intros name lims []].
Qed.

Lemma sort_limit_from (locations : list Location) (name : string) (lims : Buckets)
  (mB : option Qc) (M : option AtEntry) (mA : option Qc) :
  buckets_from locations name lims ->
  sort_limit lims = Some (mB, M, mA) ->
  (forall b, mB = Some b -> from_locations locations name b) /\
  (forall a, mA = Some a -> from_locations locations name a) /\
  (forall x, M = Some (AtValue x) -> from_locations locations name x).
Proof.
  intros [W1 [W2 W3]]. unfold sort_limit.
  set (less := sort Qcleb (keys (above_ lims))).
  set (more := sort Qcleb (keys (below_ lims))).
  assert (Hless : forall k, In k (rev less) -> from_locations locations name k).
  { intros k Hk. rewrite <- in_rev in Hk. apply W3. unfold less in Hk.
    now apply sort_In in Hk. }
  assert (Hmore : forall k, In k more -> from_locations locations name k).
  { intros k Hk. apply W1. unfold more in Hk. now apply sort_In in Hk. }
  destruct (rev less) as [| l1 rl] eqn:Er; destruct more as [| m0 rm] eqn:Em;
    destruct (keys (at_ lims)) as [| k ks] eqn:Ek;
    try (destruct rm as [| m1 rm]; [discriminate |]);
    try (destruct rl as [| l2 rl]; [discriminate |]);
    intros E; injection E as <- <- <-;
    repeat split; intros z Ez; try discriminate; injection Ez as <-;
    first [ apply Hmore; simpl; tauto
          | apply Hless; simpl; tauto
          | apply W2; simpl; tauto ].
Qed.

(** X6.  Every triple [(lim_min, M, lim_max)] of [getLimits] brackets the
    coordinate [c] of the query on its axis: [lim_min < c < lim_max]; each
    number in it is 0 or the coordinate of one of the locations; a middle
    value comes with at most one bound, lies on the far side of it, and the
    dictionary of the "end of a limit" case comes with no bound at all. *)
Theorem getLimits_brackets (locations : list Location) (current : Location)
  (name : string) (mB : option Qc) (M : option AtEntry) (mA : option Qc) :
  In (name, (mB, M, mA)) (getLimits locations current) ->
  let c := Loc.get current name in
  (forall b, mB = Some b -> b < c /\ from_locations locations name b) /\
  (forall a, mA = Some a -> c < a /\ from_locations locations name a) /\
  (forall x, M = Some (AtValue x) ->
     from_locations locations name x /\
     (mB = None \/ mA = None) /\
     (forall b, mB = Some b -> b < x) /\
     (forall a, mA = Some a -> x < a)) /\
  (forall d, M = Some (AtDict d) -> mB = None /\ mA = None).
Proof.
  intros Hin c.
  pose proof (getLimits_wf locations current name (mB, M, mA) Hin) as [HB [HA HM]].
  apply getLimits_In in Hin as [lims [Hraw E]].
  destruct (sort_limit_from locations name lims mB M mA
              (getLimits_raw_from locations current name lims Hraw) E)
    as [FB [FA FM]].
  split; [intros b Eb; split; [now apply HB | now apply FB] |].
  split; [intros a Ea; split; [now apply HA | now apply FA] |].
  split.
  - intros x Ex. subst M. destruct HM as [H1 [H2 H3]].
    split; [now apply FM |]. split; [exact H1 |]. split; assumption.
  - intros d Ed. subst M. exact HM.
Qed.

Lemma offAxisRelative_ones (q dl : Location) (limits : Limits) :
  (forall dim t, In (dim, t) limits ->
     triple_wf (Loc.get q dim) t /\ Loc.get dl dim = Loc.get q dim) ->
  exists rs, offAxisRelative q dl limits = Ok rs /\ Forall (fun r => r = 1) rs.
Proof.
  induction limits as [| [dim lim] rest IH]; intros Hw; simpl.
  - exists []. split; [reflexivity | constructor].
  - destruct (Hw dim lim (or_introl eq_refl)) as [W E].
    rewrite E, (offAxisDim_same _ _ W). simpl.
    destruct IH as [rs [-> Hrs]]; [intros d t Hin; apply Hw; now right |].
    simpl. exists (1 :: rs). split; [reflexivity | now constructor].
Qed.

Lemma offAxisDim_outside (f v : Qc) (mB : option Qc) (M : option AtEntry)
  (mA : option Qc) :
  (exists a, mA = Some a /\ a < v) \/ (exists b, mB = Some b /\ v < b) ->
  offAxisDim f v (mB, M, mA) = Ok 0.
Proof.
  unfold offAxisDim. intros [[a [-> L]] | [b [-> L]]]; simpl.
  - destruct (Qcltb_spec a v); [reflexivity | contradiction].
  - destruct (opt_ltb_l mA v); [reflexivity |].
    destruct (Qcltb_spec v b); [reflexivity | contradiction].
Qed.

(** X7.  With the limits [getLimits] computed for the query,
    [_calcOffAxisFactor] always returns: no division by zero, and the
    dictionary [getLimits] may leave in a triple is never subtracted.  The
    factor is 1 for a delta that agrees with the query on every axis of the
    limits, and 0 for a delta that lies beyond a bound on some axis. *)
Theorem offAxis_factor (locations : list Location) (q dl : Location) :
  let limits := getLimits locations q in
  (exists r, _calcOffAxisFactor q dl limits = Ok r) /\
  ((forall dim t, In (dim, t) limits -> Loc.get dl dim = Loc.get q dim) ->
   _calcOffAxisFactor q dl limits = Ok 1) /\
  (forall dim mB M mA,
     In (dim, (mB, M, mA)) limits ->
     (exists a, mA = Some a /\ a < Loc.get dl dim) \/
     (exists b, mB = Some b /\ Loc.get dl dim < b) ->
     _calcOffAxisFactor q dl limits = Ok 0).
Proof.
  intros limits. split; [apply _calcOffAxisFactor_total |]. split.
  - intros Hsame. unfold _calcOffAxisFactor.
    destruct (offAxisRelative_ones q dl limits) as [rs [-> Hrs]].
    + intros dim t Hin. split; [now apply (getLimits_wf locations) | eauto].
    + simpl. now rewrite fold_mult_ones.
  - intros dim mB M mA Hin Hout. unfold _calcOffAxisFactor.
    destruct (offAxisRelative_total q dl limits) as [rs E].
    { intros d t. apply getLimits_wf. }
    rewrite E. simpl.
    destruct (offAxisRelative_In _ _ _ _ dim _ E Hin) as [r [Er Hr]].
    rewrite offAxisDim_outside in Er by assumption. injection Er as <-.
    f_equal. apply fold_mult_zero. now right.
Qed.

(* ================================================================= *)
(** * The state of a mutator *)

Lemma names_fold_NoDup (ks : list string) :
  forall s : list string,
    NoDup s ->
    NoDup (fold_left (fun s k => if mem String.eqb k s then s else s ++ [k]) ks s).
Proof.
  induction ks as [| k ks IH]; intros s Hnd; simpl; [assumption |].
  apply IH. destruct (mem String.eqb k s) eqn:E; [assumption |].
  apply NoDup_app; [assumption | repeat constructor; intros [] |].
  intros x Hx [<- | []].
  apply (mem_In String.eqb String.eqb_spec) in Hx. congruence.
Qed.

Lemma names_outer_NoDup (ts : list LocTuple) :
  forall s : list string,
    NoDup s ->
    NoDup (fold_left
             (fun s l => fold_left (fun s k => if mem String.eqb k s then s else s ++ [k])
                                   (keys l) s) ts s).
Proof.
  induction ts as [| t ts IH]; intros s Hnd; simpl; [assumption |].
  apply IH. now apply names_fold_NoDup.
Qed.

Section MutatorFacts.
Context {T : Type} `{MathObject T}.

(** X8.  [getAxisNames] returns every axis name that occurs in the
    location of some delta, and each name once. *)
Theorem getAxisNames_spec (m : Mutator T) :
  NoDup (getAxisNames m) /\
  forall k, In k (getAxisNames m)
            <-> exists t, In t (keys (store m)) /\ In k (keys t).
Proof.
  split.
  - unfold getAxisNames. apply names_outer_NoDup. constructor.
  - intros k. split.
    + intros Hin. unfold getAxisNames in Hin.
      apply names_outer_inv in Hin as [[] | Hex]. exact Hex.
    + intros [t [Ht Hk]]. now apply (getAxisNames_In m t k).
Qed.

Lemma collect_point_inv (axes : Axes) (l t : LocTuple) (a : string) :
  covered (collect_point axes l) t a ->
  covered axes t a \/ (t = l /\ Loc.isOnAxis (Loc.ofTuple l) = OnAxis a).
Proof.
  unfold collect_point.
  destruct (Loc.isOnAxis (Loc.ofTuple l)) as [| name |] eqn:E; auto.
  intros [pts [G Hin]].
  destruct (String.eqb_spec name a) as [-> | N].
  - rewrite (dget_dset_eq String.eqb String.eqb_spec) in G. injection G as <-.
    destruct (dget String.eqb axes a) as [old |] eqn:G.
    + destruct (mem tuple_eqb l old).
      * left. exists old. auto.
      * apply in_app_iff in Hin as [Hin | [<- | []]]; [left; exists old; auto | auto].
    + simpl in Hin. destruct Hin as [<- | []]. auto.
  - rewrite (dget_dset_neq String.eqb String.eqb_spec) in G by assumption.
    left. exists pts. auto.
Qed.

Lemma fold_collect_inv (ks : list LocTuple) (t : LocTuple) (a : string) :
  forall axes,
    covered (fold_left collect_point ks axes) t a ->
    covered axes t a \/ (In t ks /\ Loc.isOnAxis (Loc.ofTuple t) = OnAxis a).
Proof.
  induction ks as [| l ks IH]; intros axes C; simpl in *; [now left |].
  apply IH in C as [C | [Hin E]]; [| now right; auto].
  apply collect_point_inv in C as [C | [-> E]]; auto.
Qed.

(** X9.  [_collectAxisPoints] only adds to the index [self._axes]: what
    was listed stays listed, each stored key that [isOnAxis] puts on an
    axis is listed under that axis, and nothing else is added.  The deltas,
    the neutral and the bias are untouched, and a second call changes
    nothing. *)
Theorem _collectAxisPoints_index (m : Mutator T) :
  let m' := _collectAxisPoints m in
  (forall t a, covered (_axes m') t a
               <-> covered (_axes m) t a \/
                   (In t (keys (store m)) /\
                    Loc.isOnAxis (Loc.ofTuple t) = OnAxis a)) /\
  store m' = store m /\ _neutral m' = _neutral m /\ _bias m' = _bias m /\
  _collectAxisPoints m' = m'.
Proof.
  intros m'. split; [| repeat split].
  - intros t a. split.
    + apply fold_collect_inv.
    + intros [C | [Hin E]].
      * now apply fold_collect_mono.
      * now apply (_collectAxisPoints_cover m).
  - unfold m', _collectAxisPoints, set_axes. simpl. f_equal.
    apply fold_collect_fixed. apply fold_collect_cover.
Qed.

(** X10.  [_collectOffAxisPoints] returns the stored keys for which
    [isOnAxis] gives no axis name: the off-axis ones and, [None] being
    among the answers it accepts, the key of the origin as well.  Every
    stored key is in this list or in the index of [_collectAxisPoints]. *)
Theorem _collectOffAxisPoints_spec (m : Mutator T) (t : LocTuple) :
  (In t (_collectOffAxisPoints m)
   <-> In t (keys (store m)) /\ forall a, Loc.isOnAxis (Loc.ofTuple t) <> OnAxis a) /\
  (In t (keys (store m)) ->
   In t (_collectOffAxisPoints m) \/
   exists a, covered (_axes (_collectAxisPoints m)) t a) /\
  (In [] (keys (store m)) -> In [] (_collectOffAxisPoints m)).
Proof.
  assert (Iff : forall t, In t (_collectOffAxisPoints m)
            <-> In t (keys (store m)) /\
                forall a, Loc.isOnAxis (Loc.ofTuple t) <> OnAxis a).
  { intros t'. unfold _collectOffAxisPoints. rewrite filter_In.
    destruct (Loc.isOnAxis (Loc.ofTuple t')) as [| a |]; split; intros [Hin Hp];
      split; try assumption; try reflexivity; try discriminate.
    exfalso. now apply (Hp a). }
  split; [apply Iff |]. split.
  - intros Hin. destruct (Loc.isOnAxis (Loc.ofTuple t)) as [| a |] eqn:E.
    + left. apply Iff. split; [assumption | congruence].
    + right. exists a. now apply (_collectAxisPoints_cover m).
    + left. apply Iff. split; [assumption | congruence].
  - intros Hin. apply Iff. split; [assumption | discriminate].
Qed.

(** X11.  A query changes nothing but the axis index: after
    [getInstance] the deltas, the neutral and the bias are as before; the
    index has kept its entries, lists every stored on-axis key under its
    axis and, for an axis with a name that is true, the point
    [((axis, 0),)]. *)
Theorem getInstance_frame (m : Mutator T) (q : Location) (axisOnly : bool)
  (r : T) (q1 : Location) (m1 : Mutator T) :
  getInstance m q axisOnly = Ok (r, q1, m1) ->
  store m1 = store m /\ _neutral m1 = _neutral m /\ _bias m1 = _bias m /\
  (forall t a, covered (_axes m) t a -> covered (_axes m1) t a) /\
  (forall t a, In t (keys (store m)) ->
               Loc.isOnAxis (Loc.ofTuple t) = OnAxis a ->
               covered (_axes m1) t a /\
               (truthy a = true -> covered (_axes m1) [(a, 0)] a)).
Proof.
  intros E.
  destruct (getInstance_state m q axisOnly r q1 m1 E) as [Hs [Hn Hb]].
  split; [assumption |]. split; [assumption |]. split; [assumption |].
  unfold getInstance, getInstance_factors in E.
  bind_inv E. destruct a as [[[total fs] q'] m']. simpl in E.
  injection E as <- <- <-.
  bind_inv Ha. destruct a as [[fs' q''] m'']. simpl in Ha.
  rewrite getFactors_eq in Ha0. cbv zeta in Ha0. bind_inv Ha0. rename a into ds.
  injection Ha0 as <- <- <-.
  set (mc := _collectAxisPoints m) in *.
  set (names := getAxisNames mc) in *.
  set (items := sort (leb_of item_compare) (store mc)) in *.
  assert (Em : _axes m' = axes_loop names items (_axes mc)).
  { destruct (weighted_sum _); [| destruct (_neutral _); [| discriminate]];
      inversion Ha; subst; reflexivity. }
  rewrite Em.
  destruct (axes_loop_sentinels names (keys (store m)) items (_axes mc)) as [S C].
  { intros [t o] Hin. apply sort_In in Hin. now apply (store_keys_In (store m) t o). }
  { apply _collectAxisPoints_cover. }
  split.
  - intros t a Ct. apply covered_axes_loop. now apply fold_collect_mono.
  - intros t a Hin Ea. split; [now apply C |].
    intros Ht. apply in_map_iff in Hin as [[t' o] [Et Hin]]. simpl in Et. subst t'.
    apply (S (t, o) a); [| | assumption].
    + apply sort_In. exact Hin.
    + simpl. now rewrite LocFacts.isOnAxis_expand.
Qed.

(** X12.  Without a neutral [makeInstance] always raises [TypeError]
    (the sum [instanceObject + None]), and [getInstance] raises it on a
    mutator with no deltas (the product [0 * None]). *)
Theorem missing_neutral_TypeError (m : Mutator T) (q : Location) :
  _neutral m = None ->
  makeInstance m q = Raise TypeError /\
  (store m = [] -> forall axisOnly, getInstance m q axisOnly = Raise TypeError).
Proof.
  intros Hn.
  assert (G : forall q0 axisOnly,
             exists fs m', getFactors (_collectAxisPoints m) q0 axisOnly
                           = Ok (fs, Loc.expand q0 (getAxisNames m), m') /\
                           _neutral m' = None /\
                           (store m = [] -> fs = [])).
  { intros q0 axisOnly. destruct (getFactors_total m q0 axisOnly) as [fs [m' E]].
    exists fs, m'. split; [exact E |].
    rewrite getFactors_eq in E. cbv zeta in E. bind_inv E.
    injection E as <- <-. split; [exact Hn |].
    intros Hs. change (store (_collectAxisPoints m)) with (store m) in Ha.
    rewrite Hs in Ha. simpl in Ha. injection Ha as <-. reflexivity. }
  split.
  - unfold makeInstance, getInstance, getInstance_factors.
    destruct (G (Loc.sub q (_bias m)) false) as [fs [m' [-> [Hn' _]]]]. simpl.
    destruct (weighted_sum fs); simpl; rewrite Hn'; reflexivity.
  - intros Hs axisOnly. unfold getInstance, getInstance_factors.
    destruct (G q axisOnly) as [fs [m' [-> [Hn' Hfs]]]]. simpl.
    rewrite (Hfs Hs). simpl. rewrite Hn'. reflexivity.
Qed.

Lemma off_factor_total (locations : list Location) (q dl : Location)
  (axisOnly : bool) :
  exists r, off_factor q dl (getLimits locations q) axisOnly = Ok r.
Proof.
  unfold off_factor, offAxisBranch. destruct axisOnly; [simpl; eauto |].
  destruct (_calcOffAxisFactor_total locations q dl) as [r ->]. simpl. eauto.
Qed.

Lemma pure_factors_uncollected (names : list string) (locations : list Location)
  (q : Location) (axisOnly : bool) (items : Store T) :
  (exists t o a, In (t, o) items /\ Loc.isOnAxis (Loc.ofTuple t) = OnAxis a /\
                 truthy a = true) ->
  pure_factors [] names q (getLimits locations q) axisOnly items = Raise TypeError.
Proof.
  induction items as [| [t' [o' n']] rest IH]; intros [t [o [a [Hin [Ea Ht]]]]];
    [destruct Hin |].
  simpl. unfold delta_factor at 1. rewrite LocFacts.isOnAxis_expand.
  destruct (Loc.isOnAxis (Loc.ofTuple t')) as [| b |] eqn:Eb.
  - destruct Hin as [E | Hin]; [injection E as -> _; congruence |].
    simpl. rewrite IH by eauto 6. reflexivity.
  - destruct (truthy b) eqn:Hb; [reflexivity |].
    destruct Hin as [E | Hin]; [injection E as -> _; congruence |].
    destruct (off_factor_total locations q
                (Loc.expand (Loc.ofTuple t') names) axisOnly) as [r ->].
    simpl. rewrite IH by eauto 6. reflexivity.
  - destruct Hin as [E | Hin]; [injection E as -> _; congruence |].
    destruct (off_factor_total locations q
                (Loc.expand (Loc.ofTuple t') names) axisOnly) as [r ->].
    simpl. rewrite IH by eauto 6. reflexivity.
Qed.

(** X13.  [getFactors] relies on the index [_collectAxisPoints] fills: on
    a mutator whose index is still empty and which stores a delta on an
    axis, it raises [TypeError] ([d not in None]). *)
Theorem getFactors_before_collect (m : Mutator T) (q : Location) (axisOnly : bool)
  (t : LocTuple) (a : string) :
  _axes m = [] ->
  In t (keys (store m)) ->
  Loc.isOnAxis (Loc.ofTuple t) = OnAxis a -> truthy a = true ->
  getFactors m q axisOnly = Raise TypeError.
Proof.
  intros Hax Hin Ea Ht. rewrite getFactors_eq. cbv zeta. rewrite Hax.
  rewrite pure_factors_uncollected; [reflexivity |].
  apply in_map_iff in Hin as [[t' o] [Et Hin]]. simpl in Et. subst t'.
  exists t, o, a. split; [now apply sort_In | auto].
Qed.

Lemma pure_factors_length (axes : Axes) (names : list string) (q : Location)
  (limits : Limits) (axisOnly : bool) (items : Store T) :
  forall ds, pure_factors axes names q limits axisOnly items = Ok ds ->
             (List.length ds <= List.length items)%nat.
Proof.
  induction items as [| [t [o n]] rest IH]; intros ds E; simpl in *.
  - injection E as <-. simpl. lia.
  - bind_inv E. bind_inv E. injection E as <-.
    specialize (IH a0 Ha0). destruct (nonzero_factor a); simpl; lia.
Qed.

(** X14.  Every entry [(factor, item, name)] of the list [getFactors]
    returns is the [(item, name)] of a stored delta, so the list is no
    longer than the store; with [axisOnly=True] none of its entries is an
    off-axis delta. *)
Theorem getFactors_entries (m : Mutator T) (q : Location) (axisOnly : bool)
  (fs : list (Delta T)) (q' : Location) (m' : Mutator T) :
  getFactors m q axisOnly = Ok (fs, q', m') ->
  (List.length fs <= List.length (store m))%nat /\
  forall f o n, In (f, o, n) fs ->
    exists t, In (t, (o, n)) (store m) /\
              (axisOnly = true ->
               match Loc.isOnAxis (Loc.ofTuple t) with
               | AtOrigin => True
               | OnAxis a => truthy a = true
               | OffAxis => False
               end).
Proof.
  intros E. rewrite getFactors_eq in E. cbv zeta in E. bind_inv E.
  injection E as <- _ _. rename a into ds. split.
  - rewrite length_rev.
    apply pure_factors_length in Ha.
    pose proof (Permutation_length (sort_perm (leb_of delta_compare) ds)) as L1.
    pose proof (Permutation_length (sort_perm (leb_of item_compare) (store m))) as L2.
    lia.
  - intros f o n Hin. apply (proj1 (sorted_deltas_In _ _)) in Hin.
    destruct (pure_factors_inv _ _ _ _ _ _ _ Ha f o n Hin) as [t [Ht [Ef Hnz]]].
    apply sort_In in Ht. exists t. split; [assumption |].
    intros ->. unfold delta_factor in Ef. rewrite LocFacts.isOnAxis_expand in Ef.
    destruct (Loc.isOnAxis (Loc.ofTuple t)) as [| a |]; [exact I | |].
    + destruct (truthy a); [reflexivity |].
      simpl in Ef. injection Ef as <-. vm_compute in Hnz. discriminate.
    + simpl in Ef. injection Ef as <-. vm_compute in Hnz. discriminate.
Qed.

End MutatorFacts.

(* ================================================================= *)
(** * Instances at the masters *)

Section NeutralOnly.
Context {T : Type} `{MathObject T} `{!MathObjectLaws T}.

(** X15.  [setNeutral] on a mutator with no deltas stores [N - N] at the
    key [()] and makes [N] the neutral; [makeInstance] then returns [N] at
    every location and leaves its argument as it was. *)
Theorem neutral_only_instance (m0 : Mutator T) (N : T) (name : option string)
  (q : Location) :
  store m0 = [] ->
  exists m m',
    setNeutral m0 N name = Ok m /\
    store m = [([], (osub N N, name))] /\
    getNeutral m = Some N /\
    makeInstance m q = Ok (N, q, m').
Proof.
  intros Hs. unfold setNeutral, addDelta. cbn [bind set_store store].
  rewrite Hs. eexists. eexists. split; [reflexivity |].
  split; [reflexivity |]. split; [reflexivity |].
  unfold makeInstance.
  match goal with
  | |- context [getInstance ?m ?q ?b] =>
      destruct (getInstance_explicit m q b N eq_refl) as [ds [P E]]
  end.
  cbv zeta in P, E. cbn -[nonzero_factor] in P.
  match type of P with
  | context [nonzero_factor ?x] => change (nonzero_factor x) with true in P
  end.
  injection P as <-.
  rewrite E. cbn -[Loc.expand Loc.sub oscale oadd osub].
  rewrite oscale_1, !oadd_zero_l. reflexivity.
Qed.

End NeutralOnly.

Lemma limit_step_at_on (k : string) (current l a : Location)
  (limit : list (string * Buckets)) (nv : string * Qc) :
  (fst nv = k -> Loc.get a k = 0) ->
  at_nonempty_on k limit -> at_nonempty_on k (limit_step current l a limit nv).
Proof.
  intros Ea Hw lims Hin. unfold limit_step in Hin.
  apply In_dset in Hin as [E | Hin]; [| now apply Hw].
  injection E as Ek ->. symmetry in Ek. specialize (Ea Ek).
  assert (W : at_ (match dget String.eqb limit (fst nv) with
                   | Some b => b
                   | None => limit_init (Loc.get a (fst nv))
                   end) <> []).
  { destruct (dget String.eqb limit (fst nv)) as [b |] eqn:G.
    - apply (dget_In String.eqb String.eqb_spec) in G. rewrite Ek in G. now apply Hw.
    - rewrite Ek, Ea. discriminate. }
  destruct (Qcltb _ _); [exact W |].
  destruct (Qcltb _ _); [exact W |]. simpl. apply bucket_add_nonempty.
Qed.

Lemma getLimits_raw_at_on (k : string) (locations : list Location)
  (current : Location) :
  Loc.get current k = 0 ->
  at_nonempty_on k (getLimits_raw locations current).
Proof.
  intros Hz. unfold getLimits_raw.
  assert (G : forall limit, at_nonempty_on k limit ->
    at_nonempty_on k
      (fold_left
         (fun limit l =>
            match Loc.common current l with
            | None => limit
            | Some (a, b) => fold_left (limit_step current l a) b limit
            end) locations limit)).
  { induction locations as [| l locations IH]; intros limit Hw; simpl; [assumption |].
    apply IH. destruct (Loc.common current l) as [[a b] |] eqn:C; [| assumption].
    assert (Hb : forall nv, In nv b -> fst nv = k -> Loc.get a k = 0).
    { intros [name value] Hnv Ek. simpl in Ek. subst name. rewrite <- Hz.
      eapply common_get; eassumption. }
    clear C. revert limit Hw. induction b as [| nv b IHb]; intros limit Hw; simpl;
      [assumption |].
    apply IHb; [intros nv' Hnv'; apply Hb; now right |].
    apply limit_step_at_on; [apply Hb; now left | assumption]. }
  apply G. intros lims [].
Qed.

Lemma getLimits_key_on (raw : list (string * Buckets)) (k : string) :
  (forall lims, In (k, lims) raw -> exists t, sort_limit lims = Some t) ->
  In k (keys raw) ->
  forall l : Limits,
    In k (keys (fold_left (fun l nl => match sort_limit (snd nl) with
                                       | Some t => dset String.eqb l (fst nl) t
                                       | None => l
                                       end) raw l)).
Proof.
  intros Hs Hk.
  assert (Mono : forall raw' (l : Limits),
             In k (keys l) ->
             In k (keys (fold_left (fun l nl => match sort_limit (snd nl) with
                                                | Some t => dset String.eqb l (fst nl) t
                                                | None => l
                                                end) raw' l))).
  { induction raw' as [| [n lims] raw' IH]; intros l Hin; simpl; [assumption |].
    apply IH. destruct (sort_limit lims); [| assumption].
    rewrite (keys_dset String.eqb String.eqb_spec).
    destruct (has_key String.eqb l n); [assumption |].
    apply in_app_iff. now left. }
  induction raw as [| [n lims] raw IH]; intros l; simpl; [destruct Hk |].
  destruct Hk as [E | Hk].
  - simpl in E. subst n.
    destruct (Hs lims (or_introl eq_refl)) as [t ->].
    apply Mono.
    rewrite (keys_dset String.eqb String.eqb_spec).
    destruct (has_key String.eqb l k) eqn:E.
    + now apply (has_key_In String.eqb String.eqb_spec) in E.
    + apply in_app_iff. right. now left.
  - apply IH; [intros lims' Hin'; apply Hs; now right | assumption].
Qed.

(** On an axis where the query has the coordinate 0 and some location has a
    coordinate away from 0 the limits are [(None, M, None)]. *)
Lemma getLimits_at_zero (locations : list Location) (current l : Location)
  (k : string) :
  Loc.get current k = 0 ->
  In l locations -> Loc.has current k = true -> Loc.has l k = true ->
  Loc.near_zero (Loc.get l k) = false ->
  exists M, In (k, (None, Some M, None)) (getLimits locations current).
Proof.
  intros Hz Hl Hc Hlk Hnz.
  pose proof (getLimits_raw_at_on k locations current Hz) as Hat.
  assert (Shape : forall t, In (k, t) (getLimits locations current) ->
                            exists M, t = (None, Some M, None)).
  { intros t Hin. apply getLimits_In in Hin as [lims [Hin E]].
    destruct (sort_limit_at lims (Hat lims Hin)) as [M EM].
    exists M. congruence. }
  assert (Hk : In k (keys (getLimits locations current))).
  { unfold getLimits. apply getLimits_key_on.
    - intros lims Hin. destruct (sort_limit_at lims (Hat lims Hin)) as [M EM].
      eauto.
    - destruct (Loc.common current l) as [[a b] |] eqn:C.
      + apply (getLimits_raw_key locations current l a b k Hl C).
        apply common_Some in C as [dims [Ed [_ ->]]].
        unfold keys at 1. rewrite map_map. simpl. rewrite map_id. rewrite Ed.
        apply filter_In. split; [now apply LocFacts.has_In |].
        rewrite Hlk, Hnz. now rewrite andb_false_r.
      + exfalso. unfold Loc.common in C.
        destruct (filter _ (keys current)) as [| d dims] eqn:F; [| discriminate].
        assert (Hin : In k (filter
                  (fun k => Loc.has l k &&
                            negb (Loc.near_zero (Loc.get current k) &&
                                  Loc.near_zero (Loc.get l k))) (keys current))).
        { apply filter_In. split; [now apply LocFacts.has_In |].
          rewrite Hlk, Hnz. now rewrite andb_false_r. }
        rewrite F in Hin. destruct Hin. }
  apply in_map_iff in Hk as [[k' t] [Ek Hin]]. simpl in Ek. subst k'.
  destruct (Shape t Hin) as [M ->]. eauto.
Qed.

Section ZeroCoordinate.
Context {T : Type} `{MathObject T}.

(** The off-axis branch gives 0 to a delta with a coordinate away from 0 on
    an axis where the query has 0. *)
Lemma off_factor_zero_coordinate (m : Mutator T) (q : Location) (axisOnly : bool)
  (t : LocTuple) (k : string) (v : Qc) :
  let names := getAxisNames m in
  let q' := Loc.expand q names in
  Loc.get q k = 0 ->
  In t (keys (store m)) -> In (k, v) (Loc.ofTuple t) ->
  spaced v = true -> v <> 0 ->
  off_factor q' (Loc.expand (Loc.ofTuple t) names)
    (getLimits (_allLocations m) q') axisOnly = Ok 0.
Proof.
  intros names q' Hq Ht Hkv Hsp Hv. unfold off_factor, offAxisBranch.
  destruct axisOnly; [reflexivity |].
  assert (Hz : Loc.get q' k = 0).
  { unfold q'. now rewrite LocFacts.get_expand. }
  assert (Hg : Loc.get (Loc.ofTuple t) k = v).
  { apply LocFacts.get_In; [apply LocFacts.NoDup_ofTuple | assumption]. }
  assert (Hh : Loc.has (Loc.ofTuple t) k = true).
  { apply LocFacts.has_In. change k with (fst (k, v)). now apply in_map. }
  destruct (getLimits_at_zero (_allLocations m) q' (Loc.ofTuple t) k)
    as [M HM]; try assumption.
  - unfold _allLocations. now apply in_map.
  - unfold q'. rewrite LocFacts.has_expand. apply orb_true_iff. right.
    apply (mem_In String.eqb String.eqb_spec).
    apply (getAxisNames_In m t k Ht). now apply has_ofTuple.
  - rewrite Hg. now apply near_zero_spaced.
  - unfold _calcOffAxisFactor.
    destruct (offAxisRelative_total q' (Loc.expand (Loc.ofTuple t) names)
                (getLimits (_allLocations m) q')) as [rs E].
    { intros dim tr. apply getLimits_wf. }
    rewrite E. simpl.
    destruct (offAxisRelative_In _ _ _ _ k _ E HM) as [r [Er Hr]].
    rewrite Hz, LocFacts.get_expand, Hg in Er.
    rewrite offAxisDim_away in Er by assumption. injection Er as <-.
    do 2 f_equal. apply fold_mult_zero. now right.
Qed.

End ZeroCoordinate.

Lemma NoDup_keys_filter (p : string * Qc -> bool) (l : Location) :
  NoDup (keys l) -> NoDup (keys (filter p l)).
Proof.
  induction l as [| [k v] l IH]; simpl; [constructor |].
  intros Hnd. inversion Hnd as [| ? ? Hn Hnd']; subst.
  destruct (p (k, v)); [| auto]. simpl. constructor; [| auto].
  intros Hin. apply Hn. apply in_map_iff in Hin as [[k' v'] [Ek Hin]].
  simpl in Ek. subst k'. apply filter_In in Hin as [Hin _].
  change k with (fst (k, v')). now apply in_map.
Qed.

(** A location that is not at the origin and not on the axis [a] has a
    non-zero coordinate on another axis. *)
Lemma coordinate_off_axis (l : Location) (a : string) :
  NoDup (keys l) ->
  Loc.isOnAxis l <> AtOrigin -> Loc.isOnAxis l <> OnAxis a ->
  exists k v, In (k, v) l /\ v <> 0 /\ k <> a.
Proof.
  intros Hnd H0 Ha. unfold Loc.isOnAxis in *.
  pose proof (NoDup_keys_filter Loc.nonzero l Hnd) as Hf.
  assert (Hin : forall p, In p (filter Loc.nonzero l) -> In p l /\ snd p <> 0).
  { intros p Hp. apply filter_In in Hp as [Hp Hnz]. split; [assumption |].
    unfold Loc.nonzero in Hnz. destruct (Qceqb_spec (snd p) 0); [discriminate | assumption]. }
  destruct (filter Loc.nonzero l) as [| [k1 v1] [| [k2 v2] rest]].
  - congruence.
  - exists k1, v1. destruct (Hin (k1, v1) (or_introl eq_refl)) as [Hl Hv].
    repeat split; try assumption. intros ->. now apply Ha.
  - destruct (String.eqb_spec k1 a) as [-> | N1].
    + exists k2, v2.
      destruct (Hin (k2, v2) (or_intror (or_introl eq_refl))) as [Hl Hv].
      repeat split; try assumption. intros ->.
      simpl in Hf. inversion Hf as [| ? ? Hn _]; subst. apply Hn. now left.
    + exists k1, v1. destruct (Hin (k1, v1) (or_introl eq_refl)) as [Hl Hv].
      repeat split; assumption.
Qed.

Section OnAxisMaster.
Context {T : Type} `{MathObject T} `{!MathObjectLaws T}.

(** The sum of a factor list in which one delta has the factor 1 and every
    other delta the factor 0, or the factor 1 and the object [N - N]. *)
Lemma pure_factors_one (axes : Axes) (names : list string) (q : Location)
  (limits : Limits) (axisOnly : bool) (N : T) (t : LocTuple) :
  forall (items : Store T) (ds : list (Delta T)),
    pure_factors axes names q limits axisOnly items = Ok ds ->
    NoDup (keys items) ->
    (forall t' o' n', In (t', (o', n')) items ->
       exists f,
         delta_factor axes q (Loc.expand (Loc.ofTuple t') names) limits axisOnly
         = Ok f /\
         ((t' = t /\ f = 1) \/
          (t' <> t /\ (f = 0 \/ (f = 1 /\ o' = osub N N))))) ->
    (~ In t (keys items) -> wsum (osub N N) ds = osub N N) /\
    (forall o n, In (t, (o, n)) items -> wsum (osub N N) ds = o).
Proof.
  induction items as [| [t' [o' n']] rest IH]; intros ds E Hnd Hf; simpl in *.
  - injection E as <-. split; [reflexivity | intros o n []].
  - bind_inv E. rename a into f, Ha into Ef.
    bind_inv E. rename a into ds', Ha into Er. injection E as <-.
    inversion Hnd as [| ? ? Hn Hnd']; subst.
    destruct (IH ds' Er Hnd') as [IH0 IH1].
    { intros t2 o2 n2 Hin. apply (Hf t2 o2 n2). now right. }
    destruct (Hf t' o' n' (or_introl eq_refl)) as [f' [Ef' Hcase]].
    rewrite Ef in Ef'. injection Ef' as <-.
    destruct Hcase as [[-> ->] | [Hne [-> | [-> ->]]]].
    + change (nonzero_factor 1) with true. cbv iota. split.
      * intros Hnot. exfalso. apply Hnot. now left.
      * intros o n [Eq | Hin].
        -- injection Eq as <- <-. unfold wsum. simpl.
           fold (wsum (oadd (osub N N) (oscale 1 o')) ds').
           rewrite (wsum_out N), (IH0 Hn).
           now rewrite oscale_1, oadd_zero_l, oadd_zero_r.
        -- exfalso. apply Hn. change t with (fst (t, (o, n))). now apply in_map.
    + change (nonzero_factor 0) with false. cbv iota. split.
      * intros Hnot. apply IH0. tauto.
      * intros o n [Eq | Hin]; [congruence | now apply (IH1 o n)].
    + change (nonzero_factor 1) with true. cbv iota.
      assert (Eh : forall l : list (Delta T),
                 wsum (osub N N) ((1, osub N N, n') :: l) = wsum (osub N N) l).
      { intros l. unfold wsum. simpl. now rewrite oscale_1, oadd_zero_l. }
      rewrite Eh. split.
      * intros Hnot. apply IH0. tauto.
      * intros o n [Eq | Hin]; [congruence | now apply (IH1 o n)].
Qed.


Lemma apart_spec (x y : Qc) :
  apart x y = true -> x + _EPSILON <= y \/ y + _EPSILON <= x.
Proof.
  unfold apart. intros E. apply orb_true_iff in E as [E | E]; [left | right].
  - destruct (Qcleb_spec (x + _EPSILON) y); [assumption | discriminate].
  - destruct (Qcleb_spec (y + _EPSILON) x); [assumption | discriminate].
Qed.

(** At a location with the coordinate of a stored on-axis delta on its
    axis and 0 elsewhere, the instance is the object of that delta. *)
Lemma getInstance_at_on_axis_master (m : Mutator T) (N : T) (t : LocTuple) (o : T)
  (name : option string) (a : string) (q : Location) (axisOnly : bool) :
  _neutral m = Some N ->
  NoDup (keys (store m)) ->
  Forall (fun item : LocTuple * (T * option string) =>
            Loc.isOnAxis (Loc.ofTuple (fst item)) = AtOrigin ->
            fst (snd item) = osub N N) (store m) ->
  well_spaced (store m) = true ->
  no_origin_axis (store m) = true ->
  In (t, (o, name)) (store m) ->
  Loc.isOnAxis (Loc.ofTuple t) = OnAxis a -> truthy a = true ->
  (forall t' o', In (t', o') (store m) -> t' <> t ->
     Loc.isOnAxis (Loc.ofTuple t') = OnAxis a ->
     apart (Loc.get (Loc.ofTuple t') a) (Loc.get (Loc.ofTuple t) a) = true) ->
  Loc.get q a = Loc.get (Loc.ofTuple t) a ->
  (forall k, k <> a -> Loc.get q k = 0) ->
  exists q' m', getInstance m q axisOnly = Ok (o, q', m').
Proof.
  intros Hn Hnd Hzero Hsp Hno Hin Ea Hta Hapart Hqa Hq0.
  destruct (getInstance_explicit m q axisOnly N Hn) as [ds [P E]].
  cbv zeta in P, E.
  set (names := getAxisNames m) in *.
  set (q1 := Loc.expand q names) in *.
  set (items := sort (leb_of item_compare) (store m)) in *.
  set (axes := _axes (_collectAxisPoints m)) in *.
  set (limits := getLimits (_allLocations m) q1) in *.
  assert (Pd : Permutation (rev (sort (leb_of delta_compare) ds)) ds).
  { symmetry. etransitivity; [apply sort_perm | apply Permutation_rev]. }
  assert (Pi : Permutation (store m) items) by apply sort_perm.
  assert (Hg : forall k, Loc.get q1 k = Loc.get q k).
  { intros k. unfold q1. apply LocFacts.get_expand. }
  assert (Hspaced : forall t' o' k v, In (t', o') (store m) ->
                                      In (k, v) (Loc.ofTuple t') -> spaced v = true).
  { intros t' o' k v Ht' Hkv. unfold well_spaced in Hsp. rewrite forallb_forall in Hsp.
    specialize (Hsp (t', o') Ht'). simpl in Hsp. rewrite forallb_forall in Hsp.
    apply (Hsp (k, v) Hkv). }
  assert (Hnorigin : forall t' o' b, In (t', o') (store m) ->
                                     Loc.isOnAxis (Loc.ofTuple t') = OnAxis b ->
                                     b <> "origin").
  { intros t' o' b Ht' Eb. unfold no_origin_axis in Hno. rewrite forallb_forall in Hno.
    specialize (Hno (t', o') Ht'). simpl in Hno. rewrite Eb in Hno.
    now apply negb_true_iff, String.eqb_neq in Hno. }
  assert (Hon : forall t' o' b, In (t', o') (store m) ->
                  Loc.isOnAxis (Loc.ofTuple t') = OnAxis b -> truthy b = true ->
                  exists pts,
                    dget String.eqb axes b = Some pts /\
                    In t' (with_sentinel b pts) /\
                    (List.length (with_sentinel b pts) =? 1)%nat = false).
  { intros t' o' b Ht' Eb Hb.
    destruct (_collectAxisPoints_cover m t' b (store_keys_In _ _ _ Ht') Eb)
      as [pts [G Hpts]].
    exists pts. split; [exact G |]. split; [now apply with_sentinel_incl |].
    apply Nat.eqb_neq.
    pose proof (two_distinct_length (with_sentinel b pts) t' [(b, 0)]
                  (with_sentinel_incl b pts t' Hpts) (with_sentinel_In b pts)
                  (on_axis_not_sentinel t' b Eb)). lia. }
  destruct (pure_factors_one axes names q1 limits axisOnly N t items ds P) as [_ S].
  - eapply Permutation_NoDup; [| exact Hnd]. now apply Permutation_map.
  - intros t' o' n' Hin'. apply sort_In in Hin'.
    destruct (tuple_eqb_spec t' t) as [-> | Hne].
    + exists 1. split; [| now left].
      unfold delta_factor. rewrite LocFacts.isOnAxis_expand, Ea, Hta.
      destruct (Hon t (o', n') a Hin' Ea Hta) as [pts [G [Hpts L]]].
      rewrite G, L.
      rewrite _calcOnAxisFactor_at_value.
      * rewrite LocFacts.get_expand, Hg, Hqa, Qceqb_refl.
        now rewrite orb_true_r.
      * now apply (Hnorigin t (o', n')).
      * apply axis_values_In. exists t. split; [assumption |]. now rewrite Hg.
    + destruct (Loc.isOnAxis (Loc.ofTuple t')) as [| b |] eqn:Eb.
      * exists 1. split; [apply delta_factor_origin;
                          now rewrite LocFacts.isOnAxis_expand |].
        right. split; [assumption |]. right. split; [reflexivity |].
        rewrite Forall_forall in Hzero. apply (Hzero (t', (o', n')) Hin' Eb).
      * exists 0. split; [| right; split; [assumption | now left]].
        unfold delta_factor. rewrite LocFacts.isOnAxis_expand, Eb.
        destruct (truthy b) eqn:Hb.
        -- destruct (Hon t' (o', n') b Hin' Eb Hb) as [pts [G [Hpts L]]].
           rewrite G, L.
           destruct (String.eqb_spec b a) as [-> | Nba].
           ++ rewrite _calcOnAxisFactor_at_value.
              ** rewrite LocFacts.get_expand, Hg, Hqa.
                 destruct (apart_spec _ _ (Hapart t' (o', n') Hin' Hne Eb)) as [L1 | L1];
                   destruct (Qceqb_spec (Loc.get (Loc.ofTuple t) a)
                               (Loc.get (Loc.ofTuple t') a)) as [Eq | _];
                   try (exfalso; qc_lra);
                   destruct (Qcltb_spec (Loc.get (Loc.ofTuple t) a - _EPSILON)
                               (Loc.get (Loc.ofTuple t') a));
                   destruct (Qcltb_spec (Loc.get (Loc.ofTuple t') a)
                               (Loc.get (Loc.ofTuple t) a + _EPSILON));
                   try reflexivity; exfalso; qc_lra.
              ** now apply (Hnorigin t' (o', n')).
              ** destruct (Hon t (o, name) a Hin Ea Hta) as [pts0 [G0 [Hpts0 _]]].
                 rewrite G in G0. injection G0 as <-.
                 apply axis_values_In. exists t. split; [assumption |]. now rewrite Hg.
           ++ destruct (isOnAxis_coordinate (Loc.ofTuple t')) as [k [v [Hkv [Hv Hka]]]];
                [congruence |].
              specialize (Hka b Eb). subst k.
              assert (Hgv : Loc.get (Loc.expand (Loc.ofTuple t') names) b = v).
              { rewrite LocFacts.get_expand.
                apply LocFacts.get_In; [apply LocFacts.NoDup_ofTuple | assumption]. }
              apply _calcOnAxisFactor_at_zero.
              ** now apply (Hnorigin t' (o', n')).
              ** rewrite Hg. now apply Hq0.
              ** apply with_sentinel_In.
              ** rewrite Hgv. now apply (Hspaced t' (o', n') b v).
              ** now rewrite Hgv.
        -- destruct (isOnAxis_coordinate (Loc.ofTuple t')) as [k [v [Hkv [Hv Hka]]]];
             [congruence |].
           specialize (Hka b Eb). subst k.
           apply (off_factor_zero_coordinate m q axisOnly t' b v).
           ++ apply Hq0. intros ->. congruence.
           ++ now apply (store_keys_In _ _ _ Hin').
           ++ assumption.
           ++ now apply (Hspaced t' (o', n') b v).
           ++ assumption.
      * exists 0. split; [| right; split; [assumption | now left]].
        unfold delta_factor. rewrite LocFacts.isOnAxis_expand, Eb.
        destruct (coordinate_off_axis (Loc.ofTuple t') a) as [k [v [Hkv [Hv Hka]]]].
        -- apply LocFacts.NoDup_ofTuple.
        -- congruence.
        -- congruence.
        -- apply (off_factor_zero_coordinate m q axisOnly t' k v).
           ++ now apply Hq0.
           ++ now apply (store_keys_In _ _ _ Hin').
           ++ assumption.
           ++ now apply (Hspaced t' (o', n') k v).
           ++ assumption.
  - rewrite E, (wsum_perm _ _ Pd), (S o name); [eauto | now apply sort_In].
Qed.

End OnAxisMaster.

(* ----------------------------------------------------------------- *)
(** ** The properties at the systems of the doctests *)

Lemma onAxis_between_neighbours_witness :
  let q := [("pop", half)] in
  let pts := [[("pop", 1)]; [("pop", 0)]] in
  let dl := [("pop", 1)] in
  let f := Loc.get q "pop" in
  let v := Loc.get dl "pop" in
  let w_hi := (f - 0) / (1 - 0) in
  let w_lo := (f - 1) / (0 - 1) in
  (v = 1 -> _calcOnAxisFactor q "pop" pts dl = Ok w_hi) /\
  (v = 0 -> _calcOnAxisFactor q "pop" pts dl = Ok w_lo) /\
  (v < 0 \/ 1 < v -> _calcOnAxisFactor q "pop" pts dl = Ok 0) /\
  w_lo + w_hi = 1 /\
  w_lo * 0 + w_hi * 1 = f.
Proof.
  apply (onAxis_between_neighbours [("pop", half)] "pop"
           [[("pop", 1)]; [("pop", 0)]] [("pop", 1)] 0 1).
  - discriminate.
  - vm_compute. auto.
  - vm_compute. auto.
  - reflexivity.
  - reflexivity.
  - intros x Hx. vm_compute in Hx. destruct Hx as [<- | [<- | []]];
      [left | right]; discriminate.
Defined.

Lemma onAxis_extrapolation_witness :
  let q := [("pop", qz 2)] in
  let pts := [[("pop", 1)]; [("pop", 0)]] in
  let dl := [("pop", 1)] in
  let f := Loc.get q "pop" in
  let v := Loc.get dl "pop" in
  let w1 := (f - 0) / (1 - 0) in
  let w2 := (f - 1) / (0 - 1) in
  (v = 1 -> _calcOnAxisFactor q "pop" pts dl = Ok w1) /\
  (v = 0 -> _calcOnAxisFactor q "pop" pts dl = Ok w2) /\
  (v <> 1 -> v <> 0 -> _calcOnAxisFactor q "pop" pts dl = Ok 0) /\
  w1 + w2 = 1 /\
  w1 * 1 + w2 * 0 = f.
Proof.
  apply (onAxis_extrapolation [("pop", qz 2)] "pop"
           [[("pop", 1)]; [("pop", 0)]] [("pop", 1)] 1 0).
  - discriminate.
  - vm_compute. auto.
  - vm_compute. auto.
  - left. split; [reflexivity |]. split; [reflexivity |].
    intros x Hx. vm_compute in Hx. destruct Hx as [<- | [<- | []]];
      [right; discriminate | left; apply Qc_is_canon; reflexivity].
Defined.


Lemma onAxis_named_origin_witness :
  _calcOnAxisFactor [("origin", qz 5)] "origin"
    [[("origin", 1)]; [("origin", 0)]] [("origin", 1)] = Ok 1.
Proof.
  apply (onAxis_named_origin [("origin", qz 5)]
           [[("origin", 1)]; [("origin", 0)]] [("origin", 1)]).
  right. left. reflexivity.
Defined.

Lemma onAxis_one_value_IndexError_witness :
  _calcOnAxisFactor [("pop", qz 2)] "pop" [[("pop", 1)]] [("pop", 1)]
  = Raise IndexError.
Proof.
  apply (onAxis_one_value_IndexError [("pop", qz 2)] "pop" [[("pop", 1)]]
           [("pop", 1)] 1).
  - discriminate.
  - discriminate.
  - intros t [<- | []]. reflexivity.
  - discriminate.
Defined.

Lemma getLimits_brackets_witness :
  let locations := [[("pop", 0)]; [("pop", 1)]] in
  let c := Loc.get [("pop", half)] "pop" in
  (forall b, Some 0 = Some b -> b < c /\ from_locations locations "pop" b) /\
  (forall a, Some 1 = Some a -> c < a /\ from_locations locations "pop" a) /\
  (forall x, @None AtEntry = Some (AtValue x) ->
     from_locations locations "pop" x /\
     (Some 0 = @None Qc \/ Some 1 = @None Qc) /\
     (forall b, Some 0 = Some b -> b < x) /\
     (forall a, Some 1 = Some a -> x < a)) /\
  (forall d, @None AtEntry = Some (AtDict d) -> Some 0 = @None Qc /\ Some 1 = @None Qc).
Proof.
  apply (getLimits_brackets [[("pop", 0)]; [("pop", 1)]] [("pop", half)] "pop"
           (Some 0) None (Some 1)).
  vm_compute. left. reflexivity.
Defined.

Lemma getInstance_frame_witness :
  exists r q1 m1,
    getInstance (built twoAxes) [("pop", 1)] false = Ok (r, q1, m1) /\
    store m1 = store (built twoAxes) /\
    _neutral m1 = _neutral (built twoAxes) /\
    _bias m1 = _bias (built twoAxes) /\
    (forall t a, covered (_axes (built twoAxes)) t a -> covered (_axes m1) t a) /\
    (forall t a, In t (keys (store (built twoAxes))) ->
                 Loc.isOnAxis (Loc.ofTuple t) = OnAxis a ->
                 covered (_axes m1) t a /\
                 (truthy a = true -> covered (_axes m1) [(a, 0)] a)).
Proof.
  destruct (getInstance (built twoAxes) [("pop", 1)] false)
    as [[[r q1] m1] | e] eqn:E; [| vm_compute in E; discriminate E].
  exists r, q1, m1. split; [reflexivity |].
  apply (getInstance_frame (built twoAxes) [("pop", 1)] false r q1 m1 E).
Defined.

Lemma missing_neutral_TypeError_witness :
  let m := built (' (_, m) <- addDelta (newMutator None) [("pop", 1)] (qz 100)
                               None false true ;; Ok m) in
  makeInstance m [("pop", 1)] = Raise TypeError /\
  (store m = [] ->
   forall axisOnly, getInstance m [("pop", 1)] axisOnly = Raise TypeError).
Proof.
  apply (missing_neutral_TypeError
           (built (' (_, m) <- addDelta (newMutator None) [("pop", 1)] (qz 100)
                                 None false true ;; Ok m))
           [("pop", 1)]).
  reflexivity.
Defined.

Lemma getFactors_before_collect_witness :
  getFactors (built (singleAxis "pop" 0 (qz 100))) [("pop", 1)] false
  = Raise TypeError.
Proof.
  apply (getFactors_before_collect (built (singleAxis "pop" 0 (qz 100)))
           [("pop", 1)] false [("pop", 1)] "pop").
  - reflexivity.
  - vm_compute. auto.
  - reflexivity.
  - reflexivity.
Defined.

Lemma getFactors_entries_witness :
  exists fs q' m',
    getFactors (built twoAxesOffAxis) [("pop", 1); ("snap", 1)] true
    = Ok (fs, q', m') /\
    (List.length fs <= List.length (store (built twoAxesOffAxis)))%nat /\
    forall f o n, In (f, o, n) fs ->
      exists t, In (t, (o, n)) (store (built twoAxesOffAxis)) /\
                (true = true ->
                 match Loc.isOnAxis (Loc.ofTuple t) with
                 | AtOrigin => True
                 | OnAxis a => truthy a = true
                 | OffAxis => False
                 end).
Proof.
  destruct (getFactors (built twoAxesOffAxis) [("pop", 1); ("snap", 1)] true)
    as [[[fs q'] m'] | e] eqn:E; [| vm_compute in E; discriminate E].
  exists fs, q', m'. split; [reflexivity |].
  apply (getFactors_entries (built twoAxesOffAxis) [("pop", 1); ("snap", 1)] true
           fs q' m' E).
Defined.

Lemma neutral_only_instance_witness :
  exists m m',
    setNeutral (newMutator None) (qz 5) (Some "origin") = Ok m /\
    store m = [([], (osub (qz 5) (qz 5), Some "origin"))] /\
    getNeutral m = Some (qz 5) /\
    makeInstance m [("pop", qz 3)] = Ok (qz 5, [("pop", qz 3)], m').
Proof.
  apply (neutral_only_instance (newMutator None) (qz 5) (Some "origin")
           [("pop", qz 3)]).
  reflexivity.
Defined.

(* ================================================================= *)
(** * The location of an off-axis master *)


Lemma limit_step_NoDup (current l a : Location) (limit : list (string * Buckets))
  (nv : string * Qc) :
  NoDup (keys limit) -> NoDup (keys (limit_step current l a limit nv)).
Proof. apply NoDup_keys_dset, String.eqb_spec. Qed.

Lemma fold_limit_step_NoDup (current l a : Location) (b : Location) :
  forall limit, NoDup (keys limit) ->
                NoDup (keys (fold_left (limit_step current l a) b limit)).
Proof.
  induction b as [| nv b IH]; intros limit Hnd; simpl; [assumption |].
  apply IH. now apply limit_step_NoDup.
Qed.











Section OffAxisMaster.
Context {T : Type} `{MathObject T}.


End OffAxisMaster.

Section OffAxisSum.
Context {T : Type} `{MathObject T} `{!MathObjectLaws T}.




End OffAxisSum.


Section MastersReproduced.
Context {T : Type} `{MathObject T} `{!MathObjectLaws T}.

(** [makeInstance] from the instance at the location relative to the bias. *)
Lemma makeInstance_of (m : Mutator T) (loc : Location) (r : T) (q' : Location)
  (m' : Mutator T) (n : T) :
  _neutral m = Some n ->
  getInstance m (Loc.sub loc (_bias m)) false = Ok (r, q', m') ->
  makeInstance m loc = Ok (oadd r n, loc, m').
Proof.
  intros Hn E. unfold makeInstance. rewrite E. cbn [bind].
  destruct (getInstance_state m _ _ _ _ _ E) as [_ [Hn' _]].
  now rewrite Hn', Hn.
Qed.


(** X16.  An on-axis master is reproduced.  The mutator has its neutral
    [N] set, distinct keys, [N - N] at the origin, every stored coordinate
    at 0 or farther than epsilon from 0, no axis named "origin", and no
    other delta of the same axis closer than epsilon to the master.  At a
    location with the coordinate of the master on its axis and 0 elsewhere
    [getInstance] returns the object of that delta, with or without the
    off-axis deltas, and [makeInstance], at a location that is there
    relative to the bias, returns that object plus the neutral. *)
Theorem on_axis_master_instance (m : Mutator T) (N : T) (t : LocTuple) (o : T)
  (name : option string) (a : string) :
  _neutral m = Some N ->
  NoDup (keys (store m)) ->
  Forall (fun item : LocTuple * (T * option string) =>
            Loc.isOnAxis (Loc.ofTuple (fst item)) = AtOrigin ->
            fst (snd item) = osub N N) (store m) ->
  well_spaced (store m) = true ->
  no_origin_axis (store m) = true ->
  In (t, (o, name)) (store m) ->
  Loc.isOnAxis (Loc.ofTuple t) = OnAxis a -> truthy a = true ->
  (forall t' o', In (t', o') (store m) -> t' <> t ->
     Loc.isOnAxis (Loc.ofTuple t') = OnAxis a ->
     apart (Loc.get (Loc.ofTuple t') a) (Loc.get (Loc.ofTuple t) a) = true) ->
  (forall q axisOnly,
     Loc.get q a = Loc.get (Loc.ofTuple t) a ->
     (forall k, k <> a -> Loc.get q k = 0) ->
     exists q' m', getInstance m q axisOnly = Ok (o, q', m')) /\
  (forall loc,
     Loc.get (Loc.sub loc (_bias m)) a = Loc.get (Loc.ofTuple t) a ->
     (forall k, k <> a -> Loc.get (Loc.sub loc (_bias m)) k = 0) ->
     exists m', makeInstance m loc = Ok (oadd o N, loc, m')).
Proof.
  intros Hn Hnd Hzero Hsp Hno Hin Ea Hta Hapart. split.
  - intros q axisOnly Hqa Hq0.
    apply (getInstance_at_on_axis_master m N t o name a q axisOnly); assumption.
  - intros loc Hqa Hq0.
    destruct (getInstance_at_on_axis_master m N t o name a (Loc.sub loc (_bias m)) false)
      as [q' [m' E]]; try assumption.
    exists m'. now apply (makeInstance_of m loc o q' m' N).
Qed.


End MastersReproduced.

Lemma on_axis_master_instance_witness :
  let m := built twoAxesOffAxis in
  (forall q axisOnly,
     Loc.get q "pop" = Loc.get (Loc.ofTuple [("pop", 1)]) "pop" ->
     (forall k, k <> "pop" -> Loc.get q k = 0) ->
     exists q' m', getInstance m q axisOnly = Ok (qz 100, q', m')) /\
  (forall loc,
     Loc.get (Loc.sub loc (_bias m)) "pop" = Loc.get (Loc.ofTuple [("pop", 1)]) "pop" ->
     (forall k, k <> "pop" -> Loc.get (Loc.sub loc (_bias m)) k = 0) ->
     exists m', makeInstance m loc = Ok (oadd (qz 100) 0, loc, m')).
Proof.
  apply (on_axis_master_instance (built twoAxesOffAxis) 0 [("pop", 1)] (qz 100)
           (Some "test1") "pop").
  - reflexivity.
  - vm_compute. repeat constructor; simpl; intuition discriminate.
  - vm_compute. repeat constructor; intros; try discriminate.
  - vm_compute. reflexivity.
  - vm_compute. reflexivity.
  - vm_compute. auto.
  - reflexivity.
  - reflexivity.
  - intros t' o' Hin Hne Eax. vm_compute in Hin.
    repeat (destruct Hin as [Hin | Hin];
            [injection Hin as <- <-;
             first [ exfalso; apply Hne; reflexivity
                   | vm_compute in Eax; discriminate Eax ] |]).
    destruct Hin.
Defined.


(* ================================================================= *)
(** * What [buildMutator] builds *)

(* ----------------------------------------------------------------- *)
(** ** Locations and their keys *)





Lemma isOrigin_isOnAxis (l : Location) :
  Loc.isOrigin l = true <-> Loc.isOnAxis l = AtOrigin.
Proof.
  unfold Loc.isOrigin, Loc.isOnAxis. induction l as [| [k v] r IH]; simpl.
  - tauto.
  - unfold Loc.nonzero at 1. simpl.
    destruct (Qceqb v 0); simpl; [exact IH |].
    split; [discriminate |].
    destruct (filter Loc.nonzero r) as [| q [| ? ?]]; discriminate.
Qed.


Lemma isOrigin_all_zero (l : Location) :
  Loc.isOnAxis l = AtOrigin -> forall k, Loc.get l k = 0.
Proof. intros E k. apply isOrigin_get. now apply isOrigin_isOnAxis. Qed.




(* ----------------------------------------------------------------- *)
(** ** The instance of the on-axis deltas *)



Section OnAxisInstance.
Context {T : Type} `{MathObject T}.





End OnAxisInstance.

Section OnAxisStable.
Context {T : Type} `{MathObject T} `{!MathObjectLaws T}.


End OnAxisStable.

(* ----------------------------------------------------------------- *)
(** ** The store [buildMutator] builds *)


Lemma dset_In_other {K V : Type} (keq : K -> K -> bool)
  (keq_spec : forall x y, reflect (x = y) (keq x y))
  (d : list (K * V)) (k : K) (v : V) (p : K * V) :
  In p d -> fst p <> k -> In p (dset keq d k v).
Proof.
  induction d as [| [k' v'] r IH]; simpl; [tauto |].
  intros [<- | Hin] Hne.
  - simpl in Hne. destruct (keq_spec k k') as [-> | N]; [congruence | now left].
  - destruct (keq_spec k k'); [now right | right; auto].
Qed.










Section PunchLoop.
Context {T : Type} `{MathObject T} `{!MathObjectLaws T}.







End PunchLoop.

Section BuildStore.
Context {T : Type} `{MathObject T} `{!MathObjectLaws T}.



(** The first loop of [buildMutator]: the neutral is the object of an item
    at the bias, stored as [n - n] under the key [()]. *)
Lemma find_neutral_first (bias : Location) (items : list (Location * T))
  (m1 : Mutator T) :
  find_neutral (setBias (newMutator None) bias) bias items = Ok m1 ->
  _neutral m1 = None \/
  exists loc n,
    In (loc, n) items /\ Loc.isOrigin (Loc.sub loc bias) = true /\
    m1 = {| store := [([], (osub n n, Some "origin"))]; _axes := [];
            _neutral := Some n; _bias := bias |}.
Proof.
  induction items as [| [loc obj] rest IH]; simpl.
  - intros E. injection E as <-. now left.
  - destruct (Loc.isOrigin (Loc.sub loc bias)) eqn:E0.
    + intros E. right. exists loc, obj. split; [now left |]. split; [assumption |].
      unfold setNeutral, addDelta in E. simpl in E. now injection E as <-.
    + intros E. destruct (IH E) as [Hn | [loc' [n [Hin [H0 Em]]]]]; [now left |].
      right. exists loc', n. split; [now right | auto].
Qed.



End BuildStore.

Section BuildReproduces.
Context {T : Type} `{MathObject T} `{!MathObjectLaws T}.
Variable biasFromLocations : list Location -> bool -> Location.


End BuildReproduces.


Section BuildResult.
Context {T : Type} `{MathObject T}.
Variable biasFromLocations : list Location -> bool -> Location.

Lemma addDeltas_state (punch : bool) (ds : list (Location * T)) :
  forall (m m' : Mutator T) (n : T),
    _neutral m = Some n -> addDeltas m punch ds = Ok m' ->
    _neutral m' = Some n /\ _bias m' = _bias m.
Proof.
  intros m m' n Hn E.
  destruct (addDeltas_total punch ds m n Hn) as [m'' [E' [Hn' Hb']]].
  rewrite E in E'. injection E' as <-. auto.
Qed.

(** X19.  What [buildMutator] returns: the bias is the one
    [biasFromLocations] gives for the locations of the sorted items, it is
    the bias of the mutator, and the neutral of the mutator is the object of
    an item whose location is at the bias. *)
Theorem buildMutator_result (items : list (Location * T)) (bias : Location)
  (m : Mutator T) :
  buildMutator biasFromLocations items = Ok (bias, m) ->
  bias = biasFromLocations
           (map fst (sort (leb_of build_item_compare) items)) true /\
  getBias m = bias /\
  exists loc n,
    In (loc, n) items /\
    Loc.isOrigin (Loc.sub loc bias) = true /\
    getNeutral m = Some n.
Proof.
  intros E. unfold buildMutator in E.
  set (sorted := sort (leb_of build_item_compare) items) in *.
  set (b := biasFromLocations (map fst sorted) true) in *.
  bind_inv E. rename a into m1, Ha into E1.
  destruct (find_neutral_first b sorted m1 E1) as [Hnone | [loc0 [n [Hin0 [H00 Em1]]]]].
  { unfold getNeutral in E. rewrite Hnone in E. discriminate. }
  subst m1. unfold getNeutral in E. cbn [_neutral] in E.
  destruct (split_items b n sorted) as [onx ofx].
  bind_inv E. rename a into m2, Ha into E2.
  bind_inv E. rename a into m3, Ha into E3.
  injection E as <- <-.
  match type of E2 with
  | addDeltas ?m0 _ _ = _ =>
      destruct (addDeltas_state false onx m0 m2 n eq_refl E2) as [Hn2 Hb2]
  end.
  cbn [_bias] in Hb2.
  destruct (addDeltas_state true ofx m2 m3 n Hn2 E3) as [Hn3 Hb3].
  split; [reflexivity |]. split; [unfold getBias; congruence |].
  exists loc0, n. split; [now apply sort_In in Hin0 |]. split; assumption.
Qed.

End BuildResult.

Lemma buildMutator_result_witness :
  let bias := [("pop", qz 1); ("snap", qz 1)] in
  let m := built_mutator (buildMutator test_builder_bias test_builder_items) in
  bias = test_builder_bias
           (map fst (sort (leb_of build_item_compare) test_builder_items)) true /\
  getBias m = bias /\
  exists loc n,
    In (loc, n) test_builder_items /\
    Loc.isOrigin (Loc.sub loc bias) = true /\
    getNeutral m = Some n.
Proof.
  apply (buildMutator_result test_builder_bias test_builder_items
           [("pop", qz 1); ("snap", qz 1)]
           (built_mutator (buildMutator test_builder_bias test_builder_items))).
  vm_compute. reflexivity.
Defined.




(* ================================================================= *)
(** ** The nearest coordinates *)

Lemma bucket_add_mono (b : Bucket) (value : Qc) (l : Location) (k : Qc) :
  In k (keys b) -> In k (keys (bucket_add b value l)).
Proof.
  unfold bucket_add. rewrite (keys_dset Qceqb Qceqb_spec).
  destruct (has_key Qceqb b value); [auto |].
  intros Hk. apply in_app_iff. now left.
Qed.

Lemma bucket_add_In (b : Bucket) (value : Qc) (l : Location) :
  In value (keys (bucket_add b value l)).
Proof.
  unfold bucket_add.
  pose proof (In_dset_new Qceqb Qceqb_spec b value
                (match dget Qceqb b value with Some ls => ls | None => [] end ++ [l]))
    as Hin.
  apply (in_map fst) in Hin. exact Hin.
Qed.

Lemma filed_le (c v : Qc) (lims lims' : Buckets) :
  buckets_le lims lims' -> filed c v lims -> filed c v lims'.
Proof.
  intros [L1 [L2 L3]]. unfold filed.
  destruct (Qcltb c (v - _EPSILON)); [apply L1 |].
  destruct (Qcltb (v + _EPSILON) c); [apply L3 | apply L2].
Qed.

Lemma NoDup_keys_unique {K V : Type} (d : list (K * V)) (k : K) (x y : V) :
  NoDup (keys d) -> In (k, x) d -> In (k, y) d -> x = y.
Proof.
  induction d as [| [k' v'] r IH]; simpl; [tauto |].
  intros Hnd Hx Hy. inversion Hnd as [| ? ? Hn Hnd']; subst.
  destruct Hx as [Ex | Hx]; destruct Hy as [Ey | Hy].
  - congruence.
  - injection Ex as -> ->. exfalso. apply Hn.
    change k with (fst (k, y)). now apply in_map.
  - injection Ey as -> ->. exfalso. apply Hn.
    change k with (fst (k, x)). now apply in_map.
  - auto.
Qed.

(** The step of [getLimits] for the coordinate [(name, value)] of a
    location: the buckets of every axis grow, and the coordinate is filed. *)
Lemma limit_step_grows (current l a : Location) (limit : list (string * Buckets))
  (nv : string * Qc) (name : string) (lims : Buckets) :
  NoDup (keys limit) -> In (name, lims) limit ->
  exists lims', In (name, lims') (limit_step current l a limit nv) /\
                buckets_le lims lims'.
Proof.
  intros Hnd Hin. unfold limit_step.
  destruct (String.eqb_spec (fst nv) name) as [E | N].
  - assert (G : dget String.eqb limit (fst nv) = Some lims).
    { destruct (dget String.eqb limit (fst nv)) as [x |] eqn:G.
      - apply (dget_In String.eqb String.eqb_spec) in G. rewrite E in G.
        f_equal. now apply (NoDup_keys_unique limit name x lims).
      - exfalso. apply in_map with (f := fst) in Hin. simpl in Hin.
        apply (has_key_In String.eqb String.eqb_spec) in Hin.
        unfold has_key in Hin. rewrite <- E, G in Hin. discriminate. }
    rewrite G. rewrite E. eexists. split; [apply (In_dset_new String.eqb String.eqb_spec) |].
    destruct (Qcltb _ _); [| destruct (Qcltb _ _)]; unfold buckets_le; simpl;
      repeat split; auto; intros k; apply bucket_add_mono.
  - exists lims. split.
    + apply (dset_In_other String.eqb String.eqb_spec); [assumption |].
      simpl. congruence.
    + unfold buckets_le. auto.
Qed.

Lemma limit_step_files (current l a : Location) (limit : list (string * Buckets))
  (name : string) (v : Qc) :
  exists lims, In (name, lims) (limit_step current l a limit (name, v)) /\
               filed (Loc.get current name) v lims.
Proof.
  unfold limit_step. simpl. eexists.
  split; [apply (In_dset_new String.eqb String.eqb_spec) |].
  unfold filed.
  destruct (Qcltb _ _); [| destruct (Qcltb _ _)]; simpl; apply bucket_add_In.
Qed.

Lemma limit_step_keeps (current l a : Location) (limit : list (string * Buckets))
  (nv : string * Qc) (name : string) (v : Qc) :
  NoDup (keys limit) -> files current name v limit ->
  files current name v (limit_step current l a limit nv).
Proof.
  intros Hnd [lims [Hin F]].
  destruct (limit_step_grows current l a limit nv name lims Hnd Hin) as [lims' [Hin' L]].
  exists lims'. split; [assumption | now apply (filed_le _ _ lims)].
Qed.

Lemma fold_limit_step_keeps (current l a : Location) (b : Location)
  (name : string) (v : Qc) :
  forall limit, NoDup (keys limit) -> files current name v limit ->
                files current name v (fold_left (limit_step current l a) b limit).
Proof.
  induction b as [| nv b IH]; intros limit Hnd F; simpl; [assumption |].
  apply IH; [now apply limit_step_NoDup | now apply limit_step_keeps].
Qed.

Lemma fold_limit_step_files (current l a : Location) (b : Location)
  (name : string) (v : Qc) :
  In (name, v) b ->
  forall limit, NoDup (keys limit) ->
                files current name v (fold_left (limit_step current l a) b limit).
Proof.
  induction b as [| nv b IH]; intros Hin limit Hnd; simpl; [destruct Hin |].
  destruct Hin as [-> | Hin].
  - apply fold_limit_step_keeps; [now apply limit_step_NoDup |].
    apply limit_step_files.
  - apply IH; [assumption | now apply limit_step_NoDup].
Qed.

Lemma getLimits_raw_NoDup (locations : list Location) (current : Location) :
  NoDup (keys (getLimits_raw locations current)).
Proof.
  unfold getLimits_raw. generalize (NoDup_nil string).
  change (@nil string) with (keys (@nil (string * Buckets))).
  generalize (@nil (string * Buckets)).
  induction locations as [| l ls IH]; intros limit Hnd; simpl; [assumption |].
  apply IH. destruct (Loc.common current l) as [[a b] |];
    [now apply fold_limit_step_NoDup | assumption].
Qed.

(** Every coordinate [getLimits] reads is filed in the buckets of its
    axis. *)
Lemma getLimits_raw_files (locations : list Location) (current l a b : Location)
  (name : string) (v : Qc) :
  In l locations -> Loc.common current l = Some (a, b) -> In (name, v) b ->
  files current name v (getLimits_raw locations current).
Proof.
  intros Hl C Hb. unfold getLimits_raw.
  set (step := fun limit l => match Loc.common current l with
                              | None => limit
                              | Some (a, b) => fold_left (limit_step current l a) b limit
                              end).
  assert (Nd : forall limit l', NoDup (keys limit) -> NoDup (keys (step limit l'))).
  { intros limit l' Hnd. unfold step.
    destruct (Loc.common current l') as [[a' b'] |];
      [now apply fold_limit_step_NoDup | assumption]. }
  assert (Keep : forall ls limit, NoDup (keys limit) -> files current name v limit ->
                                  files current name v (fold_left step ls limit)).
  { induction ls as [| l' ls IH]; intros limit Hnd F; simpl; [assumption |].
    apply IH; [now apply Nd |]. unfold step.
    destruct (Loc.common current l') as [[a' b'] |];
      [now apply fold_limit_step_keeps | assumption]. }
  assert (G : forall ls limit, In l ls -> NoDup (keys limit) ->
                               files current name v (fold_left step ls limit)).
  { induction ls as [| l' ls IH]; intros limit Hin Hnd; simpl; [destruct Hin |].
    destruct Hin as [-> | Hin].
    - apply Keep; [now apply Nd |]. unfold step. rewrite C.
      now apply fold_limit_step_files.
    - apply IH; [assumption | now apply Nd]. }
  apply G; [assumption | constructor].
Qed.

Lemma sorted_head_le (l : list Qc) (x : Qc) (r : list Qc) (v : Qc) :
  StronglySorted Qcle l -> l = x :: r -> In v l -> x <= v.
Proof.
  intros Hs -> Hin. inversion Hs as [| ? ? _ Hall]; subst.
  destruct Hin as [<- | Hin]; [apply Qcle_refl |].
  rewrite Forall_forall in Hall. now apply Hall.
Qed.

Lemma sorted_second_le (l : list Qc) (x y : Qc) (r : list Qc) (v : Qc) :
  StronglySorted Qcle l -> l = x :: y :: r -> In v l -> v = x \/ y <= v.
Proof.
  intros Hs -> Hin. inversion Hs as [| ? ? Hs' _]; subst.
  destruct Hin as [<- | Hin]; [now left | right].
  now apply (sorted_head_le (y :: r) y r).
Qed.

Lemma sorted_last_ge (l : list Qc) (x : Qc) (r : list Qc) (v : Qc) :
  StronglySorted Qcle l -> rev l = x :: r -> In v l -> v <= x.
Proof.
  intros Hs E Hin. apply (StronglySorted_rev Qcle) in Hs. rewrite E in Hs.
  apply in_rev in Hin. rewrite E in Hin.
  inversion Hs as [| ? ? _ Hall]; subst.
  destruct Hin as [<- | Hin]; [apply Qcle_refl |].
  rewrite Forall_forall in Hall. now apply Hall.
Qed.

Lemma sorted_before_last_ge (l : list Qc) (x y : Qc) (r : list Qc) (v : Qc) :
  StronglySorted Qcle l -> rev l = x :: y :: r -> In v l -> v = x \/ v <= y.
Proof.
  intros Hs E Hin. apply (StronglySorted_rev Qcle) in Hs. rewrite E in Hs.
  apply in_rev in Hin. rewrite E in Hin.
  inversion Hs as [| ? ? Hs' _]; subst.
  destruct Hin as [<- | Hin]; [now left | right].
  inversion Hs' as [| ? ? _ Hall]; subst.
  destruct Hin as [<- | Hin]; [apply Qcle_refl |].
  rewrite Forall_forall in Hall. now apply Hall.
Qed.

(** The triple of an axis against a coordinate filed in its buckets. *)
Lemma sort_limit_nearest (c v : Qc) (lims : Buckets)
  (mB : option Qc) (M : option AtEntry) (mA : option Qc) :
  filed c v lims -> sort_limit lims = Some (mB, M, mA) ->
  (M = None ->
   exists lo hi, mB = Some lo /\ mA = Some hi /\ (v <= lo \/ hi <= v)) /\
  (forall x hi, M = Some (AtValue x) -> mA = Some hi ->
     x <= v /\ (v = x \/ hi <= v)) /\
  (forall x lo, M = Some (AtValue x) -> mB = Some lo ->
     v <= x /\ (v = x \/ v <= lo)).
Proof.
  unfold filed, sort_limit.
  pose proof (sort_Qcleb_sorted (keys (above_ lims))) as Sl.
  pose proof (sort_Qcleb_sorted (keys (below_ lims))) as Sm.
  pose proof (fun v => sort_In Qcleb v (keys (above_ lims))) as Il.
  pose proof (fun v => sort_In Qcleb v (keys (below_ lims))) as Im.
  set (less := sort Qcleb (keys (above_ lims))) in *.
  set (more := sort Qcleb (keys (below_ lims))) in *.
  intros F.
  assert (F' : (In v more) \/ (In v less) \/ In v (keys (at_ lims))).
  { destruct (Qcltb c (v - _EPSILON)); [left; now apply Im |].
    destruct (Qcltb (v + _EPSILON) c); [right; left; now apply Il | now right; right]. }
  clear F Il Im.
  assert (Lnil : rev less = [] -> ~ In v less).
  { intros R Hv. apply in_rev in Hv. rewrite R in Hv. destruct Hv. }
  destruct (rev less) as [| l1 rl] eqn:Er; destruct more as [| m0 rm] eqn:Em;
    destruct (keys (at_ lims)) as [| k ks] eqn:Ek;
    try (destruct rm as [| m1 rm]; [discriminate |]);
    try (destruct rl as [| l2 rl]; [discriminate |]);
    intros E; injection E as <- <- <-;
    (split; [intros EM; try discriminate
            | split; intros x z EM Ez; try discriminate]).
  all: try (injection EM as <-); try (injection Ez as <-).
  - (* nothing is filed *)
    exfalso. destruct F' as [[] | [Hv | []]]. now apply Lnil.
  - (* below the least: (None, m0, m1) *)
    assert (Hv : In v (m0 :: m1 :: rm)).
    { destruct F' as [Hv | [Hv | []]]; [assumption |].
      exfalso. now apply Lnil. }
    split; [now apply (sorted_head_le _ m0 (m1 :: rm) v Sm)
           | now apply (sorted_second_le _ m0 m1 rm v Sm)].
  - (* above the greatest: (l2, l1, None) *)
    assert (Hv : In v less).
    { destruct F' as [[] | [Hv | []]]. assumption. }
    split; [now apply (sorted_last_ge less l1 (l2 :: rl) v Sl Er)
           | now apply (sorted_before_last_ge less l1 l2 rl v Sl Er)].
  - (* between two: (l1, None, m0) *)
    exists l1, m0. split; [reflexivity |]. split; [reflexivity |].
    destruct F' as [Hv | [Hv | []]].
    + right. now apply (sorted_head_le _ m0 rm v Sm eq_refl).
    + left. now apply (sorted_last_ge less l1 rl v Sl Er).
Qed.

(** X20.  The bounds of a triple of [getLimits] are the nearest coordinates
    of the locations: for a coordinate [v] that a location shares with the
    query on the axis, a triple [(lo, None, hi)] has both bounds and [v] is
    not strictly between them; in a triple [(None, x, hi)] the value [x] is
    the least coordinate and [hi] the next one; in a triple [(lo, x, None)]
    the value [x] is the greatest coordinate and [lo] the one before. *)
Theorem getLimits_nearest (locations : list Location) (current l a b : Location)
  (name : string) (v : Qc) (mB : option Qc) (M : option AtEntry) (mA : option Qc) :
  In (name, (mB, M, mA)) (getLimits locations current) ->
  In l locations -> Loc.common current l = Some (a, b) -> In (name, v) b ->
  (M = None ->
   exists lo hi, mB = Some lo /\ mA = Some hi /\ (v <= lo \/ hi <= v)) /\
  (forall x hi, M = Some (AtValue x) -> mA = Some hi ->
     x <= v /\ (v = x \/ hi <= v)) /\
  (forall x lo, M = Some (AtValue x) -> mB = Some lo ->
     v <= x /\ (v = x \/ v <= lo)).
Proof.
  intros Hin Hl C Hb.
  apply getLimits_In in Hin as [lims [Hraw E]].
  destruct (getLimits_raw_files locations current l a b name v Hl C Hb)
    as [lims' [Hraw' F]].
  assert (lims' = lims) as ->.
  { apply (NoDup_keys_unique (getLimits_raw locations current) name);
      [apply getLimits_raw_NoDup | assumption | assumption]. }
  now apply (sort_limit_nearest (Loc.get current name) v lims).
Qed.

Lemma getLimits_nearest_witness :
  (@None AtEntry = None ->
   exists lo hi, Some 0 = Some lo /\ Some 1 = Some hi /\ (1 <= lo \/ hi <= 1)) /\
  (forall x hi, @None AtEntry = Some (AtValue x) -> Some 1 = Some hi ->
     x <= 1 /\ (1 = x \/ hi <= 1)) /\
  (forall x lo, @None AtEntry = Some (AtValue x) -> Some 0 = Some lo ->
     1 <= x /\ (1 = x \/ 1 <= lo)).
Proof.
  apply (getLimits_nearest [[("pop", 0)]; [("pop", 1)]] [("pop", half)]
           [("pop", 1)] [("pop", half)] [("pop", 1)] "pop" 1 (Some 0) None (Some 1)).
  - vm_compute. left. reflexivity.
  - right. left. reflexivity.
  - vm_compute. reflexivity.
  - left. reflexivity.
Defined.
